(** * Smart day planner: the fallback document store and the task scheduler

    A shallow embedding of [app/db/mongodb.py] (classes [FallbackCollection]
    and [FallbackStorage], function [save_plan]) and of
    [app/tasks/scheduler.py] (class [CustomScheduler]), followed by the
    properties of the specification that concern them.
    Further modules embed the rest of the fallback storage, the system
    monitor, the weather condition of [app/weather/weather_api.py], the
    station of [app/weather/weather_station.py] and the strategies of
    [app/planner], with the properties that their code shows.

    Conventions of the embedding.
    - Python dictionaries are objects: a document lives in a heap and is
      named by its address, so that two names of one dictionary are seen
      as such.  [dict.copy()] allocates.
    - Methods run in a state-and-exception monad; [try ... except
      Exception] is [try_except].
    - The wall clock and the outcome of each attempt to write the storage
      file are read from the state, one reading per call; a job function
      is a function of the process it acts upon, and acts in one go.
    - The coroutines of a batch take turns: the order of their steps is
      read from the state as well.
    - Timestamps are integers (a number of clock units); floating point
      values are not part of [Value]. *)

From stdpp Require Import gmap strings list fin_maps pretty.
From Stdlib Require Import ZArith Lia QArith Qround Lqa Ascii.

#[local] Set Warnings "-register-all,-clear-no-such-hyp".
#[local] Close Scope Q_scope.
#[local] Open Scope Z_scope.

(** ** Python values *)

Inductive Value : Type :=
  | VNone
  | VBool (b : bool)
  | VInt (z : Z)
  | VStr (s : string)
  | VList (l : list Value)
  | VDict (d : gmap string Value).

(** A document, a query and an update are dictionaries with string keys. *)
Abbreviation Doc := (gmap string Value).

Definition bool_int (b : bool) : Z := if b then 1 else 0.

(** Python's [==] on values: [bool] is a subclass of [int], sequences
    compare element by element, dictionaries key by key. *)
Fixpoint py_eq (a b : Value) : bool :=
  match a, b with
  | VNone, VNone => true
  | VBool x, VBool y => bool_decide (x = y)
  | VBool x, VInt z => bool_decide (bool_int x = z)
  | VInt z, VBool y => bool_decide (z = bool_int y)
  | VInt z, VInt z' => bool_decide (z = z')
  | VStr s, VStr t => bool_decide (s = t)
  | VList xs, VList ys =>
      (fix go (xs ys : list Value) : bool :=
         match xs, ys with
         | [], [] => true
         | x :: xs', y :: ys' => py_eq x y && go xs' ys'
         | _, _ => false
         end) xs ys
  | VDict d, VDict e =>
      map_fold (λ _ (ok : bool) acc, ok && acc) true
        (merge (λ x y, match x, y with
                       | Some x, Some y => Some (py_eq x y)
                       | None, None => None
                       | _, _ => Some false
                       end) d e)
  | _, _ => false
  end.

(** Python's [!=]. *)
Definition py_ne (a b : Value) : bool := negb (py_eq a b).

(** [repr(v)].  Strings are quoted without escapes, and the items of a
    dictionary come in the order of their keys, not of their insertion;
    only the text of log lines depends on either. *)
Fixpoint py_repr (v : Value) : string :=
  match v with
  | VNone => "None"
  | VBool b => if b then "True" else "False"
  | VInt z => pretty z
  | VStr s => "'" +:+ s +:+ "'"
  | VList l => "[" +:+ String.concat ", " (map py_repr l) +:+ "]"
  | VDict d =>
      "{" +:+ String.concat ", "
                (map_fold (λ k x acc, ("'" +:+ k +:+ "': " +:+ py_repr x) :: acc)
                   [] d)
          +:+ "}"
  end.

(** [str(v)], as an f-string renders a value. *)
Definition py_str (v : Value) : string :=
  match v with
  | VStr s => s
  | _ => py_repr v
  end.

(** [d.get(k)]: a missing key reads as [None]. *)
Definition dict_get (d : Doc) (k : string) : Value := default VNone (d !! k).

(** [d.get(k, dflt)]. *)
Definition dict_get_default (d : Doc) (k : string) (dflt : Value) : Value :=
  default dflt (d !! k).

(** [k in d]. *)
Definition dict_in (k : string) (d : Doc) : bool := bool_decide (is_Some (d !! k)).

(** [d.update(u)]: the keys of [u] are written over those of [d]. *)
Definition dict_update (d u : Doc) : Doc := u ∪ d.

(** ** Exceptions, results and the monad of methods *)

Inductive Exn : Type := Exception (msg : string).

Definition exn_str (e : Exn) : string := let 'Exception m := e in m.

Inductive Result (A : Type) : Type :=
  | Ok (a : A)
  | Raise (e : Exn).
Arguments Ok {A} a.
Arguments Raise {A} e.

Definition M (S A : Type) : Type := S → Result A * S.

Definition ret {S A} (a : A) : M S A := λ s, (Ok a, s).

Definition bind {S A B} (c : M S A) (k : A → M S B) : M S B :=
  λ s, match c s with
       | (Ok a, s') => k a s'
       | (Raise e, s') => (Raise e, s')
       end.

Definition raise {S A} (e : Exn) : M S A := λ s, (Raise e, s).

(** [try: c  except Exception as e: h e] *)
Definition try_except {S A} (c : M S A) (h : Exn → M S A) : M S A :=
  λ s, match c s with
       | (Ok a, s') => (Ok a, s')
       | (Raise e, s') => h e s'
       end.

Definition gets {S A} (f : S → A) : M S A := λ s, (Ok (f s), s).

Definition modify {S} (f : S → S) : M S unit := λ s, (Ok tt, f s).

Notation "'let*' x ':=' c 'in' k" := (bind c (λ x, k))
  (at level 10, x name, c at level 100, k at level 200).
Notation "c ';;;' k" := (bind c (λ _, k))
  (at level 100, k at level 200, right associativity).

(** ** Logging *)

Inductive Level : Type := DEBUG | INFO | WARNING | ERROR.

Definition LogRecord : Type := Level * string.

(** ** [app/db/mongodb.py]: the fallback storage *)

Module Mongodb.

(** What [fallback_storage.json] holds: the text that [json.dump] wrote
    in full, read as the collections it denotes, or the text that a write
    which failed has left, on which [json.load] raises
    [JSONDecodeError(error)]. *)
Inductive FileText : Type :=
  | Json (content : gmap string (list Doc))
  | Torn (error : string).

(** How an attempt to write the file fails.  Either [open(path, 'w')]
    raises [OSError(msg)] and the file is not touched; or the file is
    opened, which empties it, and [json.dump] or the closing of the file
    raises [OSError(msg)]: [remains] is what the file holds then, in general
    nothing or a beginning of the text. *)
Inductive WriteFailure : Type :=
  | OpenFails (msg : string)
  | DumpFails (msg : string) (remains : FileText).

(** [str(e)] for the exception of a failed write. *)
Definition failure_msg (f : WriteFailure) : string :=
  match f with
  | OpenFails msg => msg
  | DumpFails msg _ => msg
  end.

(** The process as the storage module sees it. *)
Record Store : Type := mkStore {
  heap : list Doc;
    (* the dictionary objects, addressed by position *)
  data : gmap string (list nat);
    (* FallbackStorage.data: collection name -> list of documents *)
  file : option FileText;
    (* what fallback_storage.json holds; None while the file is absent *)
  log : list LogRecord;
  clock : nat → Z;
    (* the successive readings of the wall clock *)
  clock_reads : nat;
  disk : nat → option WriteFailure;
    (* the k-th attempt to write the file: None when it succeeds *)
  writes : nat
}.

Definition set_heap (h : list Doc) (s : Store) : Store :=
  mkStore h (data s) (file s) (log s) (clock s) (clock_reads s) (disk s) (writes s).
Definition set_data (d : gmap string (list nat)) (s : Store) : Store :=
  mkStore (heap s) d (file s) (log s) (clock s) (clock_reads s) (disk s) (writes s).
Definition set_file (f : option FileText) (s : Store) : Store :=
  mkStore (heap s) (data s) f (log s) (clock s) (clock_reads s) (disk s) (writes s).
Definition set_log (l : list LogRecord) (s : Store) : Store :=
  mkStore (heap s) (data s) (file s) l (clock s) (clock_reads s) (disk s) (writes s).
Definition set_clock_reads (n : nat) (s : Store) : Store :=
  mkStore (heap s) (data s) (file s) (log s) (clock s) n (disk s) (writes s).
Definition set_writes (n : nat) (s : Store) : Store :=
  mkStore (heap s) (data s) (file s) (log s) (clock s) (clock_reads s) (disk s) n.

(** *** Objects *)

Definition heap_get (h : list Doc) (l : nat) : Doc := default ∅ (h !! l).

(** The dictionary at address [l]. *)
Definition deref (l : nat) : M Store Doc := gets (λ s, heap_get (heap s) l).

(** A new dictionary object holding [d]; [d.copy()] is [alloc d]. *)
Definition alloc (d : Doc) : M Store nat :=
  λ s, (Ok (length (heap s)), set_heap (heap s ++ [d]) s).

(** [obj[k] = v] on the dictionary at [l]. *)
Definition setitem (l : nat) (k : string) (v : Value) : M Store unit :=
  modify (λ s, set_heap (<[l := <[k := v]> (heap_get (heap s) l)]> (heap s)) s).

(** [obj.update(u)] on the dictionary at [l]. *)
Definition update_at (l : nat) (u : Doc) : M Store unit :=
  modify (λ s, set_heap (<[l := dict_update (heap_get (heap s) l) u]> (heap s)) s).

(** [d[k]]: KeyError when the key is missing. *)
Definition getitem (d : Doc) (k : string) : M Store Value :=
  match d !! k with
  | Some v => ret v
  | None => raise (Exception ("KeyError: " +:+ k))
  end.

(** The argument of [dict.update]: a mapping.  (Python also accepts an
    iterable of key/value pairs; the annotation of [update] is [Dict], and
    any other value is taken to raise as a non-iterable does.) *)
Definition as_mapping (v : Value) : M Store Doc :=
  match v with
  | VDict d => ret d
  | _ => raise (Exception "TypeError: object is not iterable")
  end.

(** *** Clock and logger *)

Definition now : M Store Z :=
  λ s, (Ok (clock s (clock_reads s)), set_clock_reads (S (clock_reads s)) s).

(** [datetime.isoformat()] of a reading. *)
Definition isoformat (t : Z) : string := pretty t.

Definition logger_log (lv : Level) (msg : string) : M Store unit :=
  modify (λ s, set_log (log s ++ [(lv, msg)]) s).
Definition logger_debug := logger_log DEBUG.
Definition logger_info := logger_log INFO.
Definition logger_error := logger_log ERROR.

(** *** FallbackStorage *)

(** What [json.dump(self.data, f)] writes. *)
Definition snapshot (s : Store) : gmap string (list Doc) :=
  (λ ls : list nat, heap_get (heap s) <$> ls) <$> data s.

(** [with open(self.file_path, 'w') as f: json.dump(self.data, f)]. *)
Definition write_file : M Store unit :=
  λ s, let s' := set_writes (S (writes s)) s in
       match disk s (writes s) with
       | None => (Ok tt, set_file (Some (Json (snapshot s))) s')
       | Some (OpenFails msg) => (Raise (Exception msg), s')
       | Some (DumpFails msg remains) => (Raise (Exception msg), set_file (Some remains) s')
       end.

Definition _save_data : M Store unit :=
  try_except
    (write_file ;;;
     logger_debug "Saved data to fallback storage")
    (λ e, logger_error ("Could not save fallback storage: " +:+ exn_str e)).

(** A [FallbackCollection] is built by [get_collection] only, from the
    list [self.data[collection_name]] and the callback [self._save_data];
    it is named here by its collection name, which denotes that very list. *)
Definition FallbackStorage_get_collection (collection_name : string)
  : M Store string :=
  let* present := gets (λ s, bool_decide (is_Some (data s !! collection_name))) in
  (if negb present then
     modify (λ s, set_data (<[collection_name := []]> (data s)) s) ;;;
     logger_debug ("Created new collection: " +:+ collection_name)
   else ret tt) ;;;
  ret collection_name.

(** *** FallbackCollection *)

(** [self.data] of the collection [c]. *)
Definition coll_data (s : Store) (c : string) : list nat :=
  default [] (data s !! c).

Definition save_callback : M Store unit := _save_data.

(** The inner loop shared by [find_one], [update_one] and [find]:
    [match] stays [True] unless some [doc.get(key) != value]. *)
Definition doc_matches (query doc : Doc) : bool :=
  forallb (λ kv, negb (py_ne (dict_get doc kv.1) kv.2)) (map_to_list query).

(** The outer loop of [find_one] and [update_one]: the first document of
    the list that matches. *)
Fixpoint first_match (h : list Doc) (query : Doc) (ls : list nat) : option nat :=
  match ls with
  | [] => None
  | l :: ls' =>
      if doc_matches query (heap_get h l) then Some l
      else first_match h query ls'
  end.

Definition find_one (c : string) (query : Doc) : M Store (option nat) :=
  let* hit := gets (λ s, first_match (heap s) query (coll_data s c)) in
  match hit with
  | Some l =>
      let* doc := deref l in
      let* r := alloc doc in
      ret (Some r)
  | None => ret None
  end.

Definition gen_id (n : nat) (t : Z) : string :=
  "doc_" +:+ pretty n +:+ "_" +:+ pretty t.

Definition insert_one (c : string) (document : Doc) : M Store unit :=
  let* document :=
    (if negb (dict_in "_id" document) then
       let* n := gets (λ s, length (coll_data s c)) in
       let* t := now in
       ret (<["_id" := VStr (gen_id (n + 1) t)]> document)
     else ret document) in
  let* l := alloc document in
  modify (λ s, set_data (<[c := coll_data s c ++ [l]]> (data s)) s) ;;;
  save_callback ;;;
  let* id := getitem document "_id" in
  logger_debug ("Inserted document with _id: " +:+ py_str id).

(** [doc.update(update['$set'])] when ['$set' in update], else
    [doc.update(update)]: the fields that an update writes. *)
Definition update_fields (update : Doc) : M Store Doc :=
  match update !! "$set" with
  | Some payload => as_mapping payload
  | None => ret update
  end.

Definition update_one (c : string) (query update : Doc) (upsert : bool)
  : M Store unit :=
  let* hit := gets (λ s, first_match (heap s) query (coll_data s c)) in
  let* found :=
    match hit with
    | Some l =>
        let* fields := update_fields update in
        update_at l fields ;;;
        let* t := now in
        setitem l "updated_at" (VStr (isoformat t)) ;;;
        logger_debug ("Updated document: " +:+ py_str (VDict query)) ;;;
        ret true
    | None => ret false
    end in
  (if negb found && upsert then
     let* fields := update_fields update in
     let new_doc := dict_update query fields in
     insert_one c new_doc ;;;
     logger_debug ("Upserted new document: " +:+ py_str (VDict query))
   else ret tt) ;;;
  if found || (negb found && upsert) then save_callback else ret tt.

(** The loop of [find] for a given query: a copy of every match, in the
    order of the list. *)
Fixpoint find_loop (query : Doc) (ls : list nat) : M Store (list nat) :=
  match ls with
  | [] => ret []
  | l :: ls' =>
      let* doc := deref l in
      if doc_matches query doc then
        let* r := alloc doc in
        let* rest := find_loop query ls' in
        ret (r :: rest)
      else find_loop query ls'
  end.

(** [find(query=None)].  Without a query the result is
    [self.data.copy()]: a new list of the same dictionary objects. *)
Definition find (c : string) (query : option Doc) : M Store (list nat) :=
  match query with
  | None => gets (λ s, coll_data s c)
  | Some q =>
      let* ls := gets (λ s, coll_data s c) in
      find_loop q ls
  end.

(** *** Module-level functions, for a process in fallback mode
    ([mongodb.use_fallback or not MONGODB_AVAILABLE] holds, so that
    [get_database()] is [fallback_storage]). *)

Definition get_collection (collection_name : string) : M Store string :=
  logger_debug ("Using fallback collection: " +:+ collection_name) ;;;
  FallbackStorage_get_collection collection_name.

(** [save_plan(plan_data)]; [plan_data] is the caller's dictionary.  In
    fallback mode [get_collection] never returns [None], so the branch
    [if collection is None] is not taken. *)
Definition save_plan (plan_data : nat) : M Store bool :=
  try_except
    (let* collection := get_collection "plans" in
     let* pd := deref plan_data in
     (if negb (dict_in "_id" pd) then
        setitem plan_data "_id"
          (VStr ("plan_" +:+ py_str (dict_get_default pd "date" (VStr "unknown"))
                 +:+ "_" +:+ py_str (dict_get_default pd "location" (VStr "unknown"))
                 +:+ "_" +:+ py_str (dict_get_default pd "user_id" (VStr "default"))))
      else ret tt) ;;;
     let* t := now in
     setitem plan_data "updated_at" (VStr (isoformat t)) ;;;
     let* pd := deref plan_data in
     let* id := getitem pd "_id" in
     update_one collection {["_id" := id]} {["$set" := VDict pd]} true ;;;
     logger_debug ("Plan saved: " +:+ py_str id) ;;;
     ret true)
    (λ e,
       logger_error ("Failed to save plan: " +:+ exn_str e) ;;;
       ret false).

(** [get_plan(plan_id)]. *)
Definition get_plan (plan_id : Value) : M Store (option nat) :=
  try_except
    (let* collection := get_collection "plans" in
     find_one collection {["_id" := plan_id]})
    (λ e,
       logger_error ("Failed to get plan " +:+ py_str plan_id +:+ ": " +:+ exn_str e) ;;;
       ret None).

(** *** Loading the file, and the other module-level operations *)

Definition logger_warning := logger_log WARNING.

(** The dictionaries that [json.load] builds for the documents of one
    collection: new objects, in the order of the array. *)
Fixpoint alloc_all (ds : list Doc) : M Store (list nat) :=
  match ds with
  | [] => ret []
  | d :: ds' =>
      let* l := alloc d in
      let* ls := alloc_all ds' in
      ret (l :: ls)
  end.

Fixpoint load_collections (kvs : list (string * list Doc))
  : M Store (gmap string (list nat)) :=
  match kvs with
  | [] => ret ∅
  | (c, ds) :: kvs' =>
      let* ls := alloc_all ds in
      let* m := load_collections kvs' in
      ret (<[c := ls]> m)
  end.

(** [json.load(f)].  On a text that [json.dump] wrote in full, the
    values of [Value] come back as they were written; on a torn text it
    raises. *)
Definition json_load (text : FileText) : M Store (gmap string (list nat)) :=
  match text with
  | Json content => load_collections (map_to_list content)
  | Torn error => raise (Exception error)
  end.

(** [_load_data()].  [read] is what opening and reading the file raises,
    if anything. *)
Definition _load_data (read : option string) : M Store unit :=
  try_except
    (let* f := gets file in
     match f with
     | Some text =>
         (match read with
          | Some msg => raise (Exception msg)
          | None => ret tt
          end) ;;;
         let* d := json_load text in
         modify (set_data d) ;;;
         logger_info "Loaded data from fallback storage: fallback_storage.json" ;;;
         let* keys := gets (λ s, (map_to_list (data s)).*1) in
         logger_info ("Collections: " +:+ py_repr (VList (VStr <$> keys)))
     | None => ret tt
     end)
    (λ e,
       logger_warning ("Could not load fallback storage: " +:+ exn_str e) ;;;
       modify (set_data ∅)).

(** [FallbackStorage.__init__()]: the storage of a process that starts. *)
Definition FallbackStorage_init (read : option string) : M Store unit :=
  modify (set_data ∅) ;;;
  _load_data read.


(** The dictionary [preferences_data] of [save_user_preferences]. *)
Definition preferences_data (user_id : string) (preferences : Doc) (t : Z) : Doc :=
  {["_id" := VStr ("prefs_" +:+ user_id);
    "user_id" := VStr user_id;
    "preferences" := VDict preferences;
    "updated_at" := VStr (isoformat t)]}.

Definition save_user_preferences (user_id : string) (preferences : Doc)
  : M Store bool :=
  try_except
    (let* collection := get_collection "user_preferences" in
     let* t := now in
     let data := preferences_data user_id preferences t in
     let* id := getitem data "_id" in
     update_one collection {["_id" := id]} {["$set" := VDict data]} true ;;;
     logger_debug ("Preferences saved for user: " +:+ user_id) ;;;
     ret true)
    (λ e,
       logger_error ("Failed to save preferences for user " +:+ user_id +:+ ": "
                     +:+ exn_str e) ;;;
       ret false).

(** [get_user_preferences(user_id)]: [result.get("preferences")] when
    [result] is a dictionary that is not empty, else [None]. *)
Definition get_user_preferences (user_id : string) : M Store Value :=
  try_except
    (let* collection := get_collection "user_preferences" in
     let* result := find_one collection {["_id" := VStr ("prefs_" +:+ user_id)]} in
     match result with
     | Some r =>
         let* d := deref r in
         if bool_decide (d = ∅) then ret VNone else ret (dict_get d "preferences")
     | None => ret VNone
     end)
    (λ e,
       logger_error ("Failed to get preferences for user " +:+ user_id +:+ ": "
                     +:+ exn_str e) ;;;
       ret VNone).

End Mongodb.

(** ** [app/tasks/scheduler.py]: the custom scheduler *)

Module Scheduler.

Section WithWorld.

(** What the job functions act upon (weather station, counters, ...). *)
Context {W : Type}.

(** One entry of [get_job_status()]. *)
Record JobStatus : Type := mkStatus {
  st_id : string;
  st_enabled : bool;
  st_last_run : option Z;
  st_next_run : Z;
  st_interval : Z
}.

(** A job function takes no argument.  It is a closure over the module:
    it may read the scheduler (as [health_check] does) and acts on the
    rest of the process; it returns or raises. *)
Definition Body : Type := list JobStatus → W → Result unit * W.

(** [asyncio.iscoroutinefunction(func)] tells the two kinds apart. *)
Inductive Callable : Type :=
  | AsyncFn (body : Body)
  | SyncFn (body : Body).

Definition iscoroutinefunction (f : Callable) : bool :=
  match f with AsyncFn _ => true | SyncFn _ => false end.

Definition body_of (f : Callable) : Body :=
  match f with AsyncFn b => b | SyncFn b => b end.

(** The dictionary [job_info]. *)
Record Job : Type := mkJob {
  func : Callable;
  interval : Z;
  id : string;
  last_run : option Z;
  next_run : Z;
  enabled : bool
}.

Record Sched : Type := mkSched {
  tasks : list Job;
    (* self.tasks; a job dictionary is named by its position, jobs are
       appended and never removed *)
  running : bool;
  start_time : Z;
  log : list LogRecord;
  clock : nat → Z;
    (* the successive values of time.time() *)
  clock_reads : nat;
  world : W;
  choice : nat → nat;
    (* the successive choices of the event loop and of the thread pool:
       which of the coroutines that can go on does so *)
  choices : nat
}.

Definition set_tasks (ts : list Job) (s : Sched) : Sched :=
  mkSched ts (running s) (start_time s) (log s) (clock s) (clock_reads s) (world s)
    (choice s) (choices s).
Definition set_running (b : bool) (s : Sched) : Sched :=
  mkSched (tasks s) b (start_time s) (log s) (clock s) (clock_reads s) (world s)
    (choice s) (choices s).
Definition set_log (l : list LogRecord) (s : Sched) : Sched :=
  mkSched (tasks s) (running s) (start_time s) l (clock s) (clock_reads s) (world s)
    (choice s) (choices s).
Definition set_clock_reads (n : nat) (s : Sched) : Sched :=
  mkSched (tasks s) (running s) (start_time s) (log s) (clock s) n (world s)
    (choice s) (choices s).
Definition set_world (w : W) (s : Sched) : Sched :=
  mkSched (tasks s) (running s) (start_time s) (log s) (clock s) (clock_reads s) w
    (choice s) (choices s).
Definition set_choices (n : nat) (s : Sched) : Sched :=
  mkSched (tasks s) (running s) (start_time s) (log s) (clock s) (clock_reads s)
    (world s) (choice s) n.

(** [time.time()] *)
Definition time_time : M Sched Z :=
  λ s, (Ok (clock s (clock_reads s)), set_clock_reads (S (clock_reads s)) s).

Definition logger_log (lv : Level) (msg : string) : M Sched unit :=
  modify (λ s, set_log (log s ++ [(lv, msg)]) s).
Definition logger_debug := logger_log DEBUG.
Definition logger_info := logger_log INFO.
Definition logger_warning := logger_log WARNING.
Definition logger_error := logger_log ERROR.

Definition status_of (job : Job) : JobStatus :=
  mkStatus (id job) (enabled job) (last_run job) (next_run job) (interval job).

Definition get_job_status (s : Sched) : list JobStatus :=
  status_of <$> tasks s.

(** [id or f"job_{len(self.tasks)}"]: [None] and the empty string are
    falsy. *)
Definition id_or (id : option string) (n : nat) : string :=
  match id with
  | Some i => if bool_decide (i = "") then "job_" +:+ pretty n else i
  | None => "job_" +:+ pretty n
  end.

(** [add_job(func, trigger, seconds, id)]; the source never reads
    [trigger]. *)
Definition add_job (func : Callable) (seconds : Z) (id : option string)
  : M Sched unit :=
  let* n := gets (λ s, length (tasks s)) in
  let* t := time_time in
  let job_id := id_or id n in
  let job_info := mkJob func seconds job_id None (t + seconds) true in
  modify (λ s, set_tasks (tasks s ++ [job_info]) s) ;;;
  logger_info ("Added job: " +:+ job_id +:+ " (every "
               +:+ pretty seconds +:+ " seconds)").

(** [job_info[...] = ...] on the job at position [i]. *)
Definition set_last_run (i : nat) (t : option Z) : M Sched unit :=
  modify (λ s, set_tasks
    (alter (λ j, mkJob (func j) (interval j) (id j) t (next_run j) (enabled j)) i
       (tasks s)) s).
Definition set_next_run (i : nat) (t : Z) : M Sched unit :=
  modify (λ s, set_tasks
    (alter (λ j, mkJob (func j) (interval j) (id j) (last_run j) t (enabled j)) i
       (tasks s)) s).

(** [await job_info['func']()], or the same function through
    [run_in_executor]: the body runs against the process and its
    exception, if any, is raised at the [await]. *)
Definition call (f : Callable) : M Sched unit :=
  λ s, let '(r, w) := body_of f (get_job_status s) (world s) in
       (r, set_world w s).

Definition _run_job (i : nat) : M Sched unit :=
  let* job_info := gets (λ s, tasks s !! i) in
  match job_info with
  | None => ret tt
  | Some job =>
      if negb (enabled job) then ret tt
      else
        try_except
          (logger_debug ("Running job: " +:+ id job) ;;;
           let* t := time_time in
           set_last_run i (Some t) ;;;
           let* t' := time_time in
           set_next_run i (t' + interval job) ;;;
           (if iscoroutinefunction (func job) then call (func job)
            else call (func job)) ;;;
           logger_debug ("Completed job: " +:+ id job))
          (λ e, logger_error ("Job " +:+ id job +:+ " failed: " +:+ exn_str e))
  end.

(** [job['enabled'] and current_time >= job['next_run']] *)
Definition is_due (current_time : Z) (job : Job) : bool :=
  enabled job && bool_decide (next_run job ≤ current_time).

(** The loop that fills [tasks_to_run], over the jobs from position [i]
    on: the positions of the jobs collected. *)
Fixpoint due_from (current_time : Z) (i : nat) (ts : list Job) : list nat :=
  match ts with
  | [] => []
  | job :: ts' =>
      if is_due current_time job then i :: due_from current_time (S i) ts'
      else due_from current_time (S i) ts'
  end.

Definition due_jobs (current_time : Z) (ts : list Job) : list nat :=
  due_from current_time 0 ts.

(** *** The batch of a scan

    [asyncio.gather] makes a task of every coroutine [self._run_job(job)]
    and the event loop runs the tasks, which take turns where they
    suspend.  A task runs from its start to the [await] of the job
    function in one go, and the tasks start in the order of their
    creation.  The function then runs, in the task if it is a coroutine
    function and in a thread of the pool otherwise, while other tasks go
    on; the task resumes once the function has returned or raised.  A job
    function acts upon the process in one go: a batch is an interleaving
    of the steps "start", "the function runs" and "resume" of its
    coroutines, and which one it is, the state tells. *)

(** A coroutine [self._run_job(job)] that has started, for the job at
    position [i]. *)
Inductive Coroutine : Type :=
  | Awaiting (i : nat)
      (* suspended at the await; the function has not run *)
  | Resuming (i : nat) (r : Result unit)
      (* the function has returned or raised; the coroutine is to resume *)
  | Finished (r : Result unit).

(** [_run_job] from its start to the [await]. *)
Definition start (i : nat) : M Sched Coroutine :=
  let* job_info := gets (λ s, tasks s !! i) in
  match job_info with
  | None => ret (Finished (Ok tt))
  | Some job =>
      if negb (enabled job) then ret (Finished (Ok tt))
      else
        logger_debug ("Running job: " +:+ id job) ;;;
        let* t := time_time in
        set_last_run i (Some t) ;;;
        let* t' := time_time in
        set_next_run i (t' + interval job) ;;;
        ret (Awaiting i)
  end.

(** The next step of a coroutine that has started: the function runs, or
    [_run_job] resumes after the [await], in the [try] block when the
    function returned and in the [except] block when it raised. *)
Definition proceed (c : Coroutine) : M Sched Coroutine :=
  match c with
  | Awaiting i =>
      let* job_info := gets (λ s, tasks s !! i) in
      match job_info with
      | Some job =>
          λ s, let '(r, s') := call (func job) s in (Ok (Resuming i r), s')
      | None => ret (Finished (Ok tt))
      end
  | Resuming i r =>
      let* job_info := gets (λ s, tasks s !! i) in
      match job_info with
      | Some job =>
          match r with
          | Ok _ => logger_debug ("Completed job: " +:+ id job)
          | Raise e =>
              logger_error ("Job " +:+ id job +:+ " failed: " +:+ exn_str e)
          end ;;;
          ret (Finished (Ok tt))
      | None => ret (Finished (Ok tt))
      end
  | Finished r => ret (Finished r)
  end.

(** What can happen next in a batch: one of the coroutines that have
    started and not finished goes on, or the next task starts. *)
Inductive Turn : Type :=
  | Proceed (k : nat)
  | Start.

Fixpoint unfinished (k : nat) (cs : list Coroutine) : list Turn :=
  match cs with
  | [] => []
  | Finished _ :: cs' => unfinished (S k) cs'
  | _ :: cs' => Proceed k :: unfinished (S k) cs'
  end.

Definition open_turns (cs : list Coroutine) (pending : list nat) : list Turn :=
  unfinished 0 cs ++ match pending with [] => [] | _ => [Start] end.

Definition next_choice : M Sched nat :=
  λ s, (Ok (choice s (choices s)), set_choices (S (choices s)) s).

(** The event loop on the tasks of a batch, until all have finished:
    [cs] are the coroutines that have started, [pending] the jobs of those
    that have not.  Every coroutine takes at most three steps, which
    bounds the number [fuel] of turns. *)
Fixpoint run_until_complete (fuel : nat) (cs : list Coroutine) (pending : list nat)
  : M Sched (list Coroutine) :=
  match fuel with
  | O => ret cs
  | S fuel' =>
      match open_turns cs pending with
      | [] => ret cs
      | turns =>
          let* n := next_choice in
          match turns !! (n mod length turns)%nat, pending with
          | Some Start, i :: pending' =>
              let* c := start i in
              run_until_complete fuel' (cs ++ [c]) pending'
          | Some (Proceed k), _ =>
              match cs !! k with
              | Some c =>
                  let* c' := proceed c in
                  run_until_complete fuel' (<[k := c']> cs) pending
              | None => ret cs
              end
          | _, _ => ret cs
          end
      end
  end.

(** What [gather] collects for a coroutine. *)
Definition result (c : Coroutine) : Result unit :=
  match c with
  | Finished r => r
  | _ => Ok tt
  end.

(** [asyncio.gather] on the coroutines [run_tasks], with
    [return_exceptions=True]; [run_tasks] holds the coroutine
    [self._run_job(job)] for each of the jobs given by position.  The
    results, exceptions among them, are collected. *)
Definition gather (run_tasks : list nat) : M Sched (list (Result unit)) :=
  let* cs := run_until_complete (3 * length run_tasks) [] run_tasks in
  ret (result <$> cs).

(** [asyncio.sleep(1)]: time passes, which the next clock reading shows. *)
Definition sleep : M Sched unit := ret tt.

(** One turn of the [while] loop of [_scheduler_loop]. *)
Definition scan : M Sched unit :=
  let* current_time := time_time in
  let* tasks_to_run := gets (λ s, due_jobs current_time (tasks s)) in
  (match tasks_to_run with
   | [] => ret tt
   | _ => gather tasks_to_run ;;; ret tt
   end) ;;;
  sleep.

(** How a bounded observation of the loop ends. *)
Inductive LoopEnd : Type :=
  | Stopped   (* [self.running] was found false *)
  | Scanning. (* still looping after the observed number of turns *)

Fixpoint while_running (turns : nat) : M Sched LoopEnd :=
  match turns with
  | O => ret Scanning
  | S n =>
      let* r := gets running in
      if r then scan ;;; while_running n else ret Stopped
  end.

Definition _scheduler_loop (turns : nat) : M Sched LoopEnd :=
  logger_info "Starting custom scheduler loop" ;;;
  modify (set_running true) ;;;
  while_running turns.

Definition shutdown : M Sched unit :=
  modify (set_running false) ;;;
  logger_info "Custom scheduler stopped".

End WithWorld.

Arguments JobStatus : clear implicits.
Arguments Body : clear implicits.
Arguments Callable : clear implicits.
Arguments Job : clear implicits.
Arguments Sched : clear implicits.

End Scheduler.

(** ** [app/tasks/scheduler.py]: the system monitor *)

Module Monitor.

(** [time.time()] returns a float, and the monitor divides the
    difference of two readings: the times of the monitor are rational
    numbers, which every float is, and the operations on them are the
    exact ones, which those of Python are on the uptimes of a process
    when the clock is not behind the start. *)

Record SystemMonitor : Type := mkMonitor {
  start_time : Q;
  request_count : Z;
  error_count : Z
}.

Definition increment_requests (m : SystemMonitor) : SystemMonitor :=
  mkMonitor (start_time m) (request_count m + 1) (error_count m).

Definition increment_errors (m : SystemMonitor) : SystemMonitor :=
  mkMonitor (start_time m) (request_count m) (error_count m + 1).

(** [x // y]: the largest whole number that is at most [x / y], as a
    float. *)
Definition floordiv (x y : Q) : Q := inject_Z (Qfloor (x / y)).

(** [x % y], which has the sign of [y]. *)
Definition modulo (x y : Q) : Q := (x - y * floordiv x y)%Q.

(** [int(x)], which rounds towards zero. *)
Definition int (x : Q) : Z :=
  if Qle_bool 0 x then Qfloor x else Qceiling x.

(** [hours], [minutes] and [seconds] of [get_system_info]. *)
Definition uptime_parts (uptime : Q) : Z * Z * Z :=
  (int (floordiv uptime 3600),
   int (floordiv (modulo uptime 3600) 60),
   int (modulo uptime 60)).

(** The dictionary that [get_system_info] returns. *)
Record SystemInfo : Type := mkInfo {
  platform : string;
  python_version : string;
  uptime : string;
  uptime_seconds : Q;
  requests_processed : Z;
  errors_occurred : Z;
  timestamp : string
}.

Definition get_system_info (now : Q) (timestamp platform python_version : string)
    (m : SystemMonitor) : SystemInfo :=
  let uptime := (now - start_time m)%Q in
  let '(hours, minutes, seconds) := uptime_parts uptime in
  mkInfo platform python_version
    (pretty hours +:+ "h " +:+ pretty minutes +:+ "m " +:+ pretty seconds +:+ "s")
    uptime (request_count m) (error_count m) timestamp.

End Monitor.

(** ** [app/weather/weather_api.py] and the fallback of
    [app/tasks/scheduler.py]: the weather condition *)

Module Weather.

Inductive WeatherCondition : Type := SUNNY | RAINY | CLOUDY | SNOWY.

(** The value of a member of the enumeration. *)
Definition value (c : WeatherCondition) : string :=
  match c with
  | SUNNY => "Sunny"
  | RAINY => "Rainy"
  | CLOUDY => "Cloudy"
  | SNOWY => "Snowy"
  end.

(** [v[k]] for a string [k]. *)
Definition subscript (v : Value) (k : string) : Result Value :=
  match v with
  | VDict d =>
      match d !! k with
      | Some x => Ok x
      | None => Raise (Exception ("KeyError: " +:+ k))
      end
  | VList _ => Raise (Exception "TypeError: list indices must be integers")
  | VStr _ => Raise (Exception "TypeError: string indices must be integers")
  | _ => Raise (Exception "TypeError: object is not subscriptable")
  end.

(** [v[0]]. *)
Definition first_item (v : Value) : Result Value :=
  match v with
  | VList (x :: _) => Ok x
  | VList [] => Raise (Exception "IndexError: list index out of range")
  | VStr (String a _) => Ok (VStr (String a ""))
  | VStr "" => Raise (Exception "IndexError: string index out of range")
  | VDict _ => Raise (Exception "KeyError: 0")
  | _ => Raise (Exception "TypeError: object is not subscriptable")
  end.

(** The operand of an order comparison with an integer. *)
Definition as_number (v : Value) : Result Z :=
  match v with
  | VInt z => Ok z
  | VBool b => Ok (bool_int b)
  | _ => Raise (Exception "TypeError: '<=' not supported")
  end.

(** [weather_data["weather"][0]["id"]] *)
Definition weather_id (weather_data : Value) : Result Value :=
  match subscript weather_data "weather" with
  | Ok w =>
      match first_item w with
      | Ok w0 => subscript w0 "id"
      | Raise e => Raise e
      end
  | Raise e => Raise e
  end.

(** [WeatherAPI.map_weather_condition] *)
Definition map_weather_condition (weather_data : Value) : Result WeatherCondition :=
  match weather_id weather_data with
  | Ok wid =>
      match as_number wid with
      | Ok n =>
          if bool_decide (200 ≤ n) && bool_decide (n < 600) then Ok RAINY
          else if bool_decide (600 ≤ n) && bool_decide (n < 700) then Ok SNOWY
          else if bool_decide (n = 800) then Ok SUNNY
          else if bool_decide (800 < n) then Ok CLOUDY
          else Ok CLOUDY
      | Raise e => Raise e
      end
  | Raise e => Raise e
  end.

(** [SimpleWeatherAPI.map_weather_condition], the fallback defined in
    the scheduler module: it returns the strings. *)
Definition simple_map_weather_condition (weather_data : Value) : Result string :=
  match weather_id weather_data with
  | Ok wid =>
      match as_number wid with
      | Ok n =>
          if bool_decide (200 ≤ n) && bool_decide (n < 600) then Ok "Rainy"
          else if bool_decide (600 ≤ n) && bool_decide (n < 700) then Ok "Snowy"
          else if bool_decide (n = 800) then Ok "Sunny"
          else Ok "Cloudy"
      | Raise e => Raise e
      end
  | Raise e => Raise e
  end.

End Weather.

(** ** [app/weather/weather_station.py]: the weather station *)

Module Station.

Section WithWorld.

(** What the observers act upon. *)
Context {W : Type}.

(** An observer is an object: [obs_id] is its identity, by which [in]
    and [list.remove] compare it, [obs_class] is [type(observer).__name__]
    and [update] its method, which acts on the world and leaves the
    station alone, as [DayPlanner.update] does.  The weather is read as a
    value: nobody writes to the dictionary once it is handed over. *)
Record Observer : Type := mkObserver {
  obs_id : nat;
  obs_class : string;
  update : Doc → W → Result unit * W
}.

Record WeatherStation : Type := mkStation {
  _observers : list Observer;
  _current_weather : option Doc;
  _current_city : option string;
  log : list LogRecord;
  world : W
}.

Definition set_observers (os : list Observer) (s : WeatherStation) : WeatherStation :=
  mkStation os (_current_weather s) (_current_city s) (log s) (world s).
Definition set_current (w : option Doc) (c : option string) (s : WeatherStation)
  : WeatherStation :=
  mkStation (_observers s) w c (log s) (world s).
Definition set_log (l : list LogRecord) (s : WeatherStation) : WeatherStation :=
  mkStation (_observers s) (_current_weather s) (_current_city s) l (world s).
Definition set_world (w : W) (s : WeatherStation) : WeatherStation :=
  mkStation (_observers s) (_current_weather s) (_current_city s) (log s) w.

Definition logger_info (msg : string) : M WeatherStation unit :=
  modify (λ s, set_log (log s ++ [(INFO, msg)]) s).

(** [observer in observers] *)
Definition is_in (o : Observer) (os : list Observer) : bool :=
  existsb (λ o', bool_decide (obs_id o' = obs_id o)) os.

(** [observers.remove(observer)]: the list without the first occurrence,
    or nothing when there is none. *)
Fixpoint remove_first (o : Observer) (os : list Observer) : option (list Observer) :=
  match os with
  | [] => None
  | o' :: os' =>
      if bool_decide (obs_id o' = obs_id o) then Some os'
      else match remove_first o os' with
           | Some r => Some (o' :: r)
           | None => None
           end
  end.

Definition attach (observer : Observer) : M WeatherStation unit :=
  let* present := gets (λ s, is_in observer (_observers s)) in
  if negb present then
    modify (λ s, set_observers (_observers s ++ [observer]) s) ;;;
    logger_info ("Observer attached: " +:+ obs_class observer)
  else ret tt.

Definition detach (observer : Observer) : M WeatherStation unit :=
  let* os := gets _observers in
  match remove_first observer os with
  | Some os' =>
      modify (set_observers os') ;;;
      logger_info ("Observer detached: " +:+ obs_class observer)
  | None => raise (Exception "ValueError: list.remove(x): x not in list")
  end.

(** [await observer.update(weather_data)] *)
Definition call_update (o : Observer) (weather_data : Doc) : M WeatherStation unit :=
  λ s, let '(r, w) := update o weather_data (world s) in (r, set_world w s).

(** The loop of [notify], over the observers that remain. *)
Fixpoint notify_loop (os : list Observer) (weather_data : Doc)
  : M WeatherStation unit :=
  match os with
  | [] => ret tt
  | o :: os' => call_update o weather_data ;;; notify_loop os' weather_data
  end.

Definition notify (weather_data : Doc) : M WeatherStation unit :=
  let* os := gets _observers in
  notify_loop os weather_data.

(** [old_weather != weather_data], where [old_weather] is [None] or a
    dictionary. *)
Definition differs (old_weather : option Doc) (weather_data : Doc) : bool :=
  match old_weather with
  | None => true
  | Some old => py_ne (VDict old) (VDict weather_data)
  end.

Definition set_weather (weather_data : Doc) (city : string) : M WeatherStation unit :=
  let* old_weather := gets _current_weather in
  modify (set_current (Some weather_data) (Some city)) ;;;
  if differs old_weather weather_data then
    logger_info ("Weather updated for " +:+ city +:+ ": "
                 +:+ py_str (dict_get_default weather_data "condition" (VStr "Unknown"))) ;;;
    notify weather_data
  else ret tt.

Definition get_current_weather (s : WeatherStation) : option Doc * option string :=
  (_current_weather s, _current_city s).

End WithWorld.

Arguments Observer : clear implicits.
Arguments WeatherStation : clear implicits.

End Station.

(** ** [app/db/models.py], [app/planner/strategies] and the choice of
    strategy of [app/planner/day_planner.py] *)

Module Planner.

Inductive ActivityType : Type :=
  OUTDOOR | INDOOR | PRODUCTIVE | RELAXATION | SPORT | LEARNING.

#[global] Instance ActivityType_eq_dec : EqDecision ActivityType :=
  ltac:(solve_decision).

Record Activity : Type := mkActivity {
  name : string;
  type : ActivityType;
  priority : Z;
  description : option string
}.

Record UserPreferences : Type := mkUserPreferences {
  preferred_types : list ActivityType;
  avoid_types : list ActivityType;
  working_hours : gmap string Z;
  weekend_mode : bool
}.

(** [UserPreferences()], the preferences of a new planner. *)
Definition default_preferences : UserPreferences :=
  mkUserPreferences [] [] {["start" := 9; "end" := 17]} true.

(** [x in types] *)
Definition type_in (x : ActivityType) (types : list ActivityType) : bool :=
  bool_decide (x ∈ types).

(** The truth value of a list. *)
Definition truthy {A} (l : list A) : bool :=
  match l with
  | [] => false
  | _ => true
  end.

(** The loop of [WeatherStrategy._filter_activities], over the
    activities that remain; [filtered] is the list built so far. *)
Fixpoint base_filter_loop (activities : list Activity) (preferences : UserPreferences)
    (filtered : list Activity) : list Activity :=
  match activities with
  | [] => filtered
  | activity :: rest =>
      if type_in (type activity) (avoid_types preferences) then
        base_filter_loop rest preferences filtered
      else if truthy (preferred_types preferences) then
        if type_in (type activity) (preferred_types preferences) then
          base_filter_loop rest preferences (filtered ++ [activity])
        else base_filter_loop rest preferences filtered
      else base_filter_loop rest preferences (filtered ++ [activity])
  end.

(** [WeatherStrategy._filter_activities] of [strategies/base.py]. *)
Definition base_filter_activities (activities : list Activity)
    (preferences : UserPreferences) : list Activity :=
  take 4 (base_filter_loop activities preferences []).

(** The loop of the [_filter_activities] that each of the four strategies
    defines for itself, with the same text. *)
Fixpoint filter_loop (activities : list Activity) (preferences : UserPreferences)
    (filtered : list Activity) : list Activity :=
  match activities with
  | [] => filtered
  | activity :: rest =>
      if type_in (type activity) (avoid_types preferences) then
        filter_loop rest preferences filtered
      else if truthy (preferred_types preferences)
              && type_in (type activity) (preferred_types preferences) then
        filter_loop rest preferences (filtered ++ [activity])
      else if negb (truthy (preferred_types preferences)) then
        filter_loop rest preferences (filtered ++ [activity])
      else filter_loop rest preferences filtered
  end.

Definition _filter_activities (activities : list Activity)
    (preferences : UserPreferences) : list Activity :=
  take 4 (filter_loop activities preferences []).

Inductive Strategy : Type :=
  | SunnyWeatherStrategy
  | RainyWeatherStrategy
  | CloudyWeatherStrategy
  | SnowyWeatherStrategy.

(** The list [activities] of [get_activities], for each strategy. *)
Definition activities_of (strategy : Strategy) : list Activity :=
  match strategy with
  | SunnyWeatherStrategy =>
      [mkActivity "Hiking" OUTDOOR 5 (Some "Enjoy the sunny weather outdoors");
       mkActivity "Cycling" SPORT 4 (Some "Great day for a bike ride");
       mkActivity "Picnic" OUTDOOR 3 (Some "Outdoor dining experience");
       mkActivity "Gardening" OUTDOOR 3 (Some "Tend to your garden");
       mkActivity "Beach Visit" OUTDOOR 4 (Some "Relax at the beach");
       mkActivity "Reading Outside" RELAXATION 2 (Some "Read a book in the sun");
       mkActivity "Studying" LEARNING 2 (Some "Catch up on studies");
       mkActivity "House Cleaning" INDOOR 1 (Some "Basic household chores")]
  | RainyWeatherStrategy =>
      [mkActivity "HouseWork" INDOOR 5 (Some "Perfect day for indoor chores");
       mkActivity "Studying" LEARNING 4 (Some "Focus on learning activities");
       mkActivity "Movie Marathon" RELAXATION 3 (Some "Catch up on films");
       mkActivity "Cooking" INDOOR 3 (Some "Try new recipes");
       mkActivity "Board Games" INDOOR 2 (Some "Family game time");
       mkActivity "Gym Workout" SPORT 3 (Some "Indoor exercise");
       mkActivity "Reading" RELAXATION 2 (Some "Cozy reading time")]
  | CloudyWeatherStrategy =>
      [mkActivity "Museum Visit" INDOOR 4 (Some "Cultural exploration");
       mkActivity "Shopping" INDOOR 3 (Some "Retail therapy");
       mkActivity "Light Walking" OUTDOOR 3 (Some "Gentle outdoor activity");
       mkActivity "Coffee with Friends" RELAXATION 3 (Some "Social time");
       mkActivity "Studying" LEARNING 3 (Some "Educational activities");
       mkActivity "Yoga" SPORT 2 (Some "Mindful exercise");
       mkActivity "House Organization" INDOOR 2 (Some "Declutter your space")]
  | SnowyWeatherStrategy =>
      [mkActivity "Skiing" SPORT 5 (Some "Winter sports fun");
       mkActivity "Building Snowman" OUTDOOR 4 (Some "Classic winter activity");
       mkActivity "Hot Chocolate by Fire" RELAXATION 4 (Some "Cozy relaxation");
       mkActivity "Winter Photography" OUTDOOR 3 (Some "Capture snowy scenes");
       mkActivity "Baking" INDOOR 3 (Some "Warm up with baking");
       mkActivity "Reading" LEARNING 2 (Some "Educational reading");
       mkActivity "Movie Day" RELAXATION 3 (Some "Winter movie marathon")]
  end.

Definition get_activities (strategy : Strategy) (user_preferences : UserPreferences)
  : list Activity :=
  _filter_activities (activities_of strategy) user_preferences.

(** The strategy that [DayPlanner.generate_plan] sets for the weather it
    is given.  A member of [WeatherCondition] is a string and equals the
    string that is its value. *)
Definition strategy_for (weather_data : Doc) : Strategy :=
  let condition := dict_get weather_data "condition" in
  if py_eq condition (VStr (Weather.value Weather.SUNNY)) then SunnyWeatherStrategy
  else if py_eq condition (VStr (Weather.value Weather.RAINY)) then RainyWeatherStrategy
  else if py_eq condition (VStr (Weather.value Weather.CLOUDY)) then CloudyWeatherStrategy
  else if py_eq condition (VStr (Weather.value Weather.SNOWY)) then SnowyWeatherStrategy
  else CloudyWeatherStrategy.

(** The activities of the plan that [generate_plan] makes. *)
Definition planned_activities (weather_data : Doc) (user_preferences : UserPreferences)
  : list Activity :=
  get_activities (strategy_for weather_data) user_preferences.

End Planner.

(** ** Vocabulary of the statements about values *)

(** The number of constructors of a value, the measure of the inductions
    on values. *)
Fixpoint Value_size (v : Value) : nat :=
  match v with
  | VList l => S (foldr (λ x acc, Value_size x + acc)%nat 0%nat l)
  | VDict d => S (map_fold (λ _ x acc, Value_size x + acc)%nat 0%nat d)
  | _ => 1%nat
  end.

(** Whether a string is free of underscores, as the digits of a number
    are. *)
Fixpoint plain (s : string) : bool :=
  match s with
  | EmptyString => true
  | String a s' => negb (Ascii.eqb a "_"%char) && plain s'
  end.

(** ** Vocabulary of the statements about the scheduler *)

Section SchedulerVocabulary.

Import Scheduler.

Context {W : Type}.

(** The job once [_run_job] has written [last_run] from the reading [t0]
    and [next_run] from the reading [t1]. *)
Definition stamped (t0 t1 : Z) (job : Job W) : Job W :=
  mkJob (func job) (interval job) (id job) (Some t0) (t1 + interval job)
    (enabled job).

(** The state in which a coroutine leaves the scheduler. *)
Definition after (c : M (Sched W) unit) (s : Sched W) : Sched W := (c s).2.

(** The log line with which [_run_job] ends, for a job whose function
    returned or raised [r]. *)
Definition closing_line (job : Job W) (r : Result unit) : LogRecord :=
  match r with
  | Ok _ => (DEBUG, "Completed job: " +:+ id job)
  | Raise e => (ERROR, "Job " +:+ id job +:+ " failed: " +:+ exn_str e)
  end.

(** Calls of job functions made one after the other: a call names the
    position of the job and the job list that its function sees.
    [outcomes] gives what each call returned or raised, and the world
    that the calls leave. *)
Fixpoint outcomes (ts : list (Job W)) (calls : list (nat * list JobStatus))
    (w : W) : list (nat * Result unit) * W :=
  match calls with
  | [] => ([], w)
  | (i, seen) :: calls' =>
      match ts !! i with
      | Some job =>
          let '(r, w1) := body_of (func job) seen w in
          let '(rs, w2) := outcomes ts calls' w1 in
          ((i, r) :: rs, w2)
      | None => outcomes ts calls' w
      end
  end.

(** Two states of the scheduler with the same jobs, flags and clock: they
    may differ in the log, in the world and in the choices made. *)
Definition same_jobs (s1 s2 : Sched W) : Prop :=
  tasks s1 = tasks s2 ∧ running s1 = running s2 ∧
  start_time s1 = start_time s2 ∧
  clock s1 = clock s2 ∧ clock_reads s1 = clock_reads s2.

(** The positions of the jobs whose function is yet to run, among the
    coroutines that have started. *)
Definition awaiting (cs : list Coroutine) : list nat :=
  omap (λ c, match c with Awaiting i => Some i | _ => None end) cs.

(** Whether [_run_job] goes past its first test for the job at [i]. *)
Definition startable (ts : list (Job W)) (i : nat) : bool :=
  match ts !! i with
  | Some job => enabled job
  | None => false
  end.

(** The number of steps that a coroutine has yet to take. *)
Definition steps_left (c : Coroutine) : nat :=
  match c with
  | Awaiting _ => 2
  | Resuming _ _ => 1
  | Finished _ => 0
  end.

(** A coroutine of a batch as the event loop can find it: about a job of
    the list, and with result [None] once it has finished. *)
Definition sound (ts : list (Job W)) (c : Coroutine) : Prop :=
  match c with
  | Awaiting i => (i < length ts)%nat
  | Resuming i _ => (i < length ts)%nat
  | Finished r => r = Ok tt
  end.

End SchedulerVocabulary.

(** Concrete schedulers.  The job functions leave a mark in the world, a
    list of strings; the clock advances by one unit at every reading. *)

Definition ticking (n : nat) : Z := 10 + Z.of_nat n.

Definition healthy : Scheduler.Body (list string) :=
  λ _ w, (Ok tt, w ++ ["healthy ran"]).

Definition failing : Scheduler.Body (list string) :=
  λ _ w, (Raise (Exception "boom"), w ++ ["failing ran"]).

(** The choices that let every coroutine run to its end before the next
    one starts, and those that have two coroutines start, then their
    functions run, then both resume. *)
Definition in_turn : nat → nat := λ _, 0%nat.

Definition in_pool : nat → nat := λ n, nth n [0; 1; 0; 1; 0; 0]%nat 0%nat.

Definition no_jobs : Scheduler.Sched (list string) :=
  Scheduler.mkSched [] false 0 [] ticking 0 [] in_turn 0.

Definition one_job : Scheduler.Sched (list string) :=
  Scheduler.mkSched
    [Scheduler.mkJob (Scheduler.AsyncFn healthy) 5 "refresh" None 0 true]
    true 0 [] ticking 0 [] in_turn 0.

Definition two_jobs : Scheduler.Sched (list string) :=
  Scheduler.mkSched
    [Scheduler.mkJob (Scheduler.AsyncFn failing) 5 "bad" None 0 true;
     Scheduler.mkJob (Scheduler.SyncFn healthy) 5 "good" None 0 true]
    true 0 [] ticking 0 [] in_turn 0.

(** Two plain functions, which run in the thread pool. *)
Definition two_pooled_jobs : Scheduler.Sched (list string) :=
  Scheduler.mkSched
    [Scheduler.mkJob (Scheduler.SyncFn failing) 5 "bad" None 0 true;
     Scheduler.mkJob (Scheduler.SyncFn healthy) 5 "good" None 0 true]
    true 0 [] ticking 0 [] in_pool 0.

(** ** Vocabulary of the statements about the store *)

Section StoreVocabulary.

Import Mongodb.

(** Every document of every collection is an allocated object. *)
Definition wf (s : Store) : Prop :=
  map_Forall (λ _ ls, Forall (λ l, (l < length (heap s))%nat) ls) (data s).

(** The documents of the collection [c], as values and in order. *)
Definition docs (s : Store) (c : string) : list Doc :=
  heap_get (heap s) <$> coll_data s c.

(** The document that [insert_one] stores for [document]: the argument
    itself when it has an ['_id'], otherwise the argument with the
    identifier made from the length of the collection and the clock. *)
Definition stored (s : Store) (c : string) (document : Doc) : Doc :=
  if dict_in "_id" document then document
  else <["_id" := VStr (gen_id (length (coll_data s c) + 1)
                          (clock s (clock_reads s)))]> document.

(** The state in which a method leaves the store. *)
Definition leaves {A} (m : M Store A) (s : Store) : Store := (m s).2.

(** What the caller of [find_one] reads in the dictionary it was given. *)
Definition read_one (c : string) (query : Doc) (s : Store) : option Doc :=
  match find_one c query s with
  | (Ok (Some r), s') => Some (heap_get (heap s') r)
  | _ => None
  end.

End StoreVocabulary.

(** Concrete stores: the clock advances by one unit at every reading;
    the disk takes every write, or is full, so that every write empties
    the file and fails, or is locked, so that the file cannot be opened. *)

Definition fresh_store (disk : nat → option Mongodb.WriteFailure) : Mongodb.Store :=
  Mongodb.mkStore [] {["c" := []]} None [] ticking 0 disk 0.

Definition good_disk : nat → option Mongodb.WriteFailure := λ _, None.

Definition full_disk : nat → option Mongodb.WriteFailure :=
  λ _, Some (Mongodb.DumpFails "[Errno 28] No space left on device"
               (Mongodb.Torn "Expecting value: line 1 column 1 (char 0)")).


(** A store whose collection ["c"] holds the one document [{a: 1}]. *)
Definition one_doc_store : Mongodb.Store :=
  Mongodb.mkStore [{["a" := VInt 1]}] {["c" := [0%nat]]} None [] ticking 0
    good_disk 0.

(** A process whose caller holds a plan dictionary at address 0, and
    whose disk is full. *)
Definition plan_store : Mongodb.Store :=
  Mongodb.mkStore
    [{["date" := VStr "2024-01-01"; "location" := VStr "Test City";
       "user_id" := VStr "test_user"]}]
    ∅ None [] ticking 0 full_disk 0.

(** Queries and updates of the examples. *)

Definition by_name : Doc := {["name" := VStr "x"]}.
Definition value_fields : Doc := {["value" := VInt 1]}.
Definition set_value : Doc := {["$set" := VDict value_fields]}.
Definition a_is_1 : Doc := {["a" := VInt 1]}.
Definition a_becomes_2 : Doc := {["a" := VInt 2]}.

(** Two documents with the same identifier, and one whose identifier is
    [None]. *)
Definition first_k : Doc := {["_id" := VStr "k"; "v" := VInt 1]}.
Definition second_k : Doc := {["_id" := VStr "k"; "v" := VInt 2]}.
Definition without_id : Doc := {["_id" := VNone; "a" := VInt 2]}.

(** A caller that asks for every document and writes to the first one it
    is given. *)
Definition write_to_first (query : option Doc) : M Mongodb.Store unit :=
  let* rs := Mongodb.find "c" query in
  match rs with
  | r :: _ => Mongodb.setitem r "a" (VInt 2)
  | [] => ret tt
  end.

(** ** Further vocabulary *)

Section MoreStoreVocabulary.

Import Mongodb.

(** What a caller reads in the dictionaries of a result list. *)
Definition read_all (rs : list nat) (s : Store) : list Doc :=
  heap_get (heap s) <$> rs.

(** No dictionary occurs twice in the collection [c]. *)
Definition unshared (s : Store) (c : string) : Prop := NoDup (coll_data s c).

(** The identifier under which [save_plan] files the plan [pd]: its
    ['_id'] when it has one, else the one made of its date, location and
    user. *)
Definition plan_id (pd : Doc) : Value :=
  if dict_in "_id" pd then dict_get pd "_id"
  else VStr ("plan_" +:+ py_str (dict_get_default pd "date" (VStr "unknown"))
             +:+ "_" +:+ py_str (dict_get_default pd "location" (VStr "unknown"))
             +:+ "_" +:+ py_str (dict_get_default pd "user_id" (VStr "default"))).

(** The caller's dictionary once [save_plan], reading the clock at [t],
    has completed it. *)
Definition plan_dict (pd : Doc) (t : Z) : Doc :=
  <["updated_at" := VStr (isoformat t)]> (<["_id" := plan_id pd]> pd).


End MoreStoreVocabulary.

Section MoreSchedulerVocabulary.

Import Scheduler.

Context {W : Type}.

(** What registration fixes of a job: its function, interval, name and
    whether it is enabled. *)
Definition same_registration (job job' : Job W) : Prop :=
  func job' = func job ∧ interval job' = interval job ∧
  id job' = id job ∧ enabled job' = enabled job.

(** The clock of the scheduler never goes back. *)
Definition monotone_clock (s : Sched W) : Prop :=
  ∀ n, clock s n ≤ clock s (S n).

(** Every job that has run is scheduled at least one interval after its
    last run. *)
Definition paced (s : Sched W) : Prop :=
  ∀ i job t, tasks s !! i = Some job → last_run job = Some t →
             t + interval job ≤ next_run job.

End MoreSchedulerVocabulary.

Section StationVocabulary.

Import Station.

Context {W : Type}.

(** No observer is attached twice. *)
Definition distinct_observers (s : WeatherStation W) : Prop :=
  NoDup (obs_id <$> _observers s).

(** Every observer of the station returns normally on [weather_data]. *)
Definition observers_return (s : WeatherStation W) (weather_data : Doc) : Prop :=
  ∀ o w, o ∈ _observers s → (update o weather_data w).1 = Ok tt.

End StationVocabulary.

Section PlannerVocabulary.

Import Planner.

(** Whether the preferences admit the activity: its type is not avoided
    and, when types are preferred, is one of them. *)
Definition admitted (preferences : UserPreferences) (activity : Activity) : bool :=
  negb (type_in (type activity) (avoid_types preferences)) &&
  (negb (truthy (preferred_types preferences))
   || type_in (type activity) (preferred_types preferences)).

End PlannerVocabulary.

(** Further concrete states. *)

(** A process that starts on the file [f]. *)
Definition starting_on (f : option Mongodb.FileText) : Mongodb.Store :=
  Mongodb.mkStore [] ∅ f [] ticking 0 good_disk 0.

(** A scheduler whose job ran at time 3 and is due again at time 8. *)
Definition job_that_ran : Scheduler.Sched (list string) :=
  Scheduler.mkSched
    [Scheduler.mkJob (Scheduler.AsyncFn healthy) 5 "refresh" (Some 3) 8 true]
    true 0 [] ticking 0 [] in_turn 0.

(** An observer that records the condition it is told, and a station
    without observers. *)
Definition recorder : Station.Observer (list string) :=
  Station.mkObserver 0 "DayPlanner"
    (λ weather_data w,
       (Ok tt, w ++ [py_str (dict_get_default weather_data "condition" (VStr "Unknown"))])).

Definition new_station : Station.WeatherStation (list string) :=
  Station.mkStation [] None None [] [].

Definition rainy_weather : Doc := {["condition" := VStr "Rainy"]}.

(** A monitor that started at time 0. *)
Definition a_monitor : Monitor.SystemMonitor := Monitor.mkMonitor 0 3 1.

(** The answer of the weather service for light rain. *)
Definition light_rain : Value :=
  VDict {["weather" := VList [VDict {["id" := VInt 500]}]]}.

(** A user who prefers sport and the outdoors but avoids the outdoors. *)
Definition sporty : Planner.UserPreferences :=
  Planner.mkUserPreferences [Planner.SPORT; Planner.OUTDOOR] [Planner.OUTDOOR] ∅ true.

(** * Properties of values *)

(** The identifiers that [insert_one] generates at different lengths of
    a collection differ. *)
Lemma append_cons a s1 s2 : String a s1 +:+ s2 = String a (s1 +:+ s2).
Proof. done. Qed.

Lemma append_snoc d a s : d +:+ String a s = (d +:+ String a "") +:+ s.
Proof.
  induction d as [|b d IH]; [done|]. rewrite !append_cons. by rewrite IH.
Qed.

Lemma plain_app s1 s2 : plain (s1 +:+ s2) = plain s1 && plain s2.
Proof.
  induction s1 as [|a s1 IH]; [done|].
  rewrite append_cons. cbn [plain]. rewrite IH. by rewrite andb_assoc.
Qed.

Lemma pretty_N_char_plain k : Ascii.eqb (pretty_N_char k) "_"%char = false.
Proof.
  destruct k as [|p]; [done|].
  do 4 (try destruct p as [p|p|]; try done).
Qed.

Lemma pretty_N_go_plain x s :
  ∃ d, pretty_N_go x s = d +:+ s ∧ plain d = true.
Proof.
  revert s. induction (N.lt_wf_0 x) as [x _ IH]; intros s.
  destruct (decide (x = 0%N)) as [->|Hx].
  - exists "". by rewrite pretty_N_go_0.
  - rewrite pretty_N_go_step by lia.
    destruct (IH (x `div` 10)%N) with (s := String (pretty_N_char (x `mod` 10)) s)
      as (d & -> & Hd).
    { apply N.div_lt; lia. }
    exists (d +:+ String (pretty_N_char (x `mod` 10)) "").
    split.
    + apply append_snoc.
    + rewrite plain_app, Hd. cbn. by rewrite pretty_N_char_plain.
Qed.

Lemma pretty_nat_plain (n : nat) : plain (pretty n) = true.
Proof.
  unfold pretty, pretty_nat, pretty, pretty_N.
  destruct (decide (N.of_nat n = 0%N)); [done|].
  destruct (pretty_N_go_plain (N.of_nat n) "") as (d & -> & Hd).
  by rewrite plain_app, Hd.
Qed.

Lemma plain_prefix_inj d1 d2 r1 r2 :
  plain d1 = true → plain d2 = true →
  d1 +:+ String "_"%char r1 = d2 +:+ String "_"%char r2 → d1 = d2.
Proof.
  revert d2. induction d1 as [|a d1 IH]; intros [|b d2] H1 H2 Heq; cbn in *.
  - done.
  - injection Heq as <- _. by rewrite Ascii.eqb_refl in H2.
  - injection Heq as -> _. by rewrite Ascii.eqb_refl in H1.
  - injection Heq as -> Heq. f_equal.
    apply andb_true_iff in H1 as [_ H1]. apply andb_true_iff in H2 as [_ H2].
    by eapply IH.
Qed.

Lemma gen_id_length_inj n n' t t' :
  Mongodb.gen_id n t = Mongodb.gen_id n' t' → n = n'.
Proof.
  unfold Mongodb.gen_id. intros H. cbn in H. injection H as H.
  apply plain_prefix_inj in H; [|apply pretty_nat_plain..].
  by apply (inj pretty) in H.
Qed.


Lemma all_true_fold (m : gmap string bool) :
  map_Forall (λ _ b, b = true) m →
  map_fold (λ _ (ok : bool) acc, ok && acc) true m = true.
Proof.
  apply (map_fold_weak_ind
           (λ r (m : gmap string bool), map_Forall (λ _ b, b = true) m → r = true)).
  - done.
  - intros k b m' r Hk IH Hall.
    apply map_Forall_insert in Hall as [-> Hall]; [|done].
    simpl. by apply IH.
Qed.

Lemma Value_size_lookup (d : gmap string Value) k v :
  d !! k = Some v → (Value_size v < Value_size (VDict d))%nat.
Proof.
  intros Hk. simpl.
  rewrite (map_fold_delete_L _ _ k v d); [lia | intros; lia | done].
Qed.

Lemma py_eq_refl_below n v : (Value_size v < n)%nat → py_eq v v = true.
Proof.
  revert v. induction n as [|n IH]; intros v Hn; [lia|].
  destruct v as [| b | z | s | l | d]; simpl;
    try done; try (by apply bool_decide_eq_true).
  - simpl in Hn. assert (Hl : (foldr (λ x acc, Value_size x + acc) 0 l < n)%nat) by lia.
    clear Hn. induction l as [|x l IHl]; [done|]. simpl in Hl.
    rewrite IH by lia. simpl. apply IHl. lia.
  - apply all_true_fold. intros k b Hk.
    rewrite lookup_merge in Hk.
    destruct (d !! k) as [v|] eqn:Hd; simpl in Hk; [|done].
    injection Hk as <-. apply IH.
    pose proof (Value_size_lookup d k v Hd). lia.
Qed.

(** Without floating point values, [==] is reflexive. *)
Lemma py_eq_refl v : py_eq v v = true.
Proof. apply (py_eq_refl_below (S (Value_size v))). lia. Qed.

(** * Properties of the fallback store *)

Section StoreProperties.

Import Mongodb.

Implicit Types (s : Store) (c k : string) (d q u : Doc) (l : nat).

(** *** Matching *)

Lemma doc_matches_true q d :
  doc_matches q d = true ↔
  ∀ k v, q !! k = Some v → py_eq (dict_get d k) v = true.
Proof.
  unfold doc_matches. rewrite forallb_forall. split.
  - intros H k v Hk.
    specialize (H (k, v)). simpl in H. unfold py_ne in H.
    rewrite negb_involutive in H. apply H.
    apply list_elem_of_In, elem_of_map_to_list, Hk.
  - intros H [k v] Hin. simpl. unfold py_ne. rewrite negb_involutive.
    apply H. by apply elem_of_map_to_list, list_elem_of_In.
Qed.

Lemma first_match_None h q ls :
  first_match h q ls = None ↔
  Forall (λ l, doc_matches q (heap_get h l) = false) ls.
Proof.
  induction ls as [|l ls IH]; simpl.
  - split; [constructor | done].
  - destruct (doc_matches q (heap_get h l)) eqn:Hm.
    + split; [done|]. intros H. apply Forall_cons in H as [H _]. congruence.
    + rewrite IH. split; [by constructor | by intros [_ ?]%Forall_cons].
Qed.

Lemma first_match_Some h q ls l :
  first_match h q ls = Some l →
  l ∈ ls ∧ doc_matches q (heap_get h l) = true.
Proof.
  induction ls as [|l' ls IH]; simpl; [done|].
  destruct (doc_matches q (heap_get h l')) eqn:Hm.
  - intros [= <-]. split; [apply list_elem_of_here | done].
  - intros H. destruct (IH H). split; [by apply list_elem_of_further | done].
Qed.

Lemma first_match_app h q ls ls' :
  first_match h q ls = None →
  first_match h q (ls ++ ls') = first_match h q ls'.
Proof.
  induction ls as [|l ls IH]; simpl; [done|].
  destruct (doc_matches q (heap_get h l)); [done | exact IH].
Qed.

(** *** Allocation leaves the allocated objects alone *)

Lemma heap_get_alloc h d l :
  (l < length h)%nat → heap_get (h ++ [d]) l = heap_get h l.
Proof. intros Hl. unfold heap_get. by rewrite lookup_app_l. Qed.

Lemma heap_get_new h d : heap_get (h ++ [d]) (length h) = d.
Proof.
  unfold heap_get. rewrite lookup_app_r by lia.
  by rewrite Nat.sub_diag.
Qed.

Lemma first_match_alloc h d q ls :
  Forall (λ l, (l < length h)%nat) ls →
  first_match (h ++ [d]) q ls = first_match h q ls.
Proof.
  induction 1 as [|l ls Hl _ IH]; simpl; [done|].
  by rewrite heap_get_alloc, IH.
Qed.

Lemma fmap_heap_get_alloc h d ls :
  Forall (λ l, (l < length h)%nat) ls →
  heap_get (h ++ [d]) <$> ls = heap_get h <$> ls.
Proof.
  induction 1 as [|l ls Hl _ IH]; [done|].
  by rewrite !fmap_cons, heap_get_alloc, IH.
Qed.

Lemma wf_coll s c :
  wf s → Forall (λ l, (l < length (heap s))%nat) (coll_data s c).
Proof.
  intros Hwf. unfold coll_data.
  destruct (data s !! c) as [ls|] eqn:Hc; [|constructor].
  exact (Hwf c ls Hc).
Qed.

Lemma wf_elem s c l :
  wf s → l ∈ coll_data s c → (l < length (heap s))%nat.
Proof.
  intros Hwf Hl. pose proof (wf_coll s c Hwf) as Hall.
  rewrite Forall_forall in Hall. by apply Hall.
Qed.

(** *** The durability flush *)

Lemma save_data_spec s :
  _save_data s =
    (Ok tt,
     match disk s (writes s) with
     | None =>
         mkStore (heap s) (data s) (Some (Json (snapshot s)))
           (log s ++ [(DEBUG, "Saved data to fallback storage")])
           (clock s) (clock_reads s) (disk s) (S (writes s))
     | Some failure =>
         mkStore (heap s) (data s)
           (match failure with
            | OpenFails _ => file s
            | DumpFails _ remains => Some remains
            end)
           (log s ++ [(ERROR, "Could not save fallback storage: "
                                +:+ failure_msg failure)])
           (clock s) (clock_reads s) (disk s) (S (writes s))
     end).
Proof.
  unfold _save_data, try_except, bind, write_file.
  destruct (disk s (writes s)) as [[msg|msg remains]|]; reflexivity.
Qed.

Lemma save_data_keeps s :
  heap (leaves _save_data s) = heap s ∧
  data (leaves _save_data s) = data s ∧
  clock (leaves _save_data s) = clock s ∧
  clock_reads (leaves _save_data s) = clock_reads s ∧
  disk (leaves _save_data s) = disk s.
Proof.
  unfold leaves. rewrite save_data_spec.
  by destruct (disk s (writes s)) as [[msg|msg remains]|].
Qed.

(** *** [find_one] *)

Lemma find_one_spec c q s :
  find_one c q s =
    match first_match (heap s) q (coll_data s c) with
    | Some l =>
        (Ok (Some (length (heap s))),
         set_heap (heap s ++ [heap_get (heap s) l]) s)
    | None => (Ok None, s)
    end.
Proof.
  unfold find_one, bind, gets.
  by destruct (first_match (heap s) q (coll_data s c)).
Qed.

Lemma find_one_None c q s :
  (find_one c q s).1 = Ok None ↔
  first_match (heap s) q (coll_data s c) = None.
Proof.
  rewrite find_one_spec.
  destruct (first_match (heap s) q (coll_data s c)); simpl; split; congruence.
Qed.

(** *** [insert_one] *)

(** The store once [insert_one] has allocated and appended the document,
    before the flush. *)
Lemma stored_has_id s c d : is_Some (stored s c d !! "_id").
Proof.
  unfold stored, dict_in. case_bool_decide as Hin; [done|].
  rewrite lookup_insert_eq. by eexists.
Qed.

Lemma insert_one_spec c d s :
  let doc := stored s c d in
  let s1 :=
    mkStore (heap s ++ [doc]) (<[c := coll_data s c ++ [length (heap s)]]> (data s))
      (file s) (log s) (clock s)
      (if dict_in "_id" d then clock_reads s else S (clock_reads s))
      (disk s) (writes s) in
  let s2 := leaves _save_data s1 in
  insert_one c d s =
    (Ok tt,
     set_log (log s2 ++ [(DEBUG, "Inserted document with _id: "
                                   +:+ py_str (dict_get doc "_id"))]) s2).
Proof.
  intros doc s1 s2. subst doc s1 s2.
  unfold insert_one, stored, leaves, dict_get.
  unfold bind at 1.
  destruct (dict_in "_id" d) eqn:Hin; simpl.
  - apply bool_decide_eq_true in Hin as [v Hv].
    unfold bind, alloc, modify, save_callback. simpl.
    rewrite !save_data_spec. simpl. unfold getitem. rewrite Hv. simpl.
    unfold logger_debug, logger_log, modify. simpl.
    by destruct (disk s (writes s)) as [[msg|msg remains]|].
  - unfold bind, gets, now, alloc, modify, save_callback. simpl.
    rewrite !save_data_spec. simpl. unfold getitem.
    rewrite !lookup_insert_eq. simpl.
    unfold logger_debug, logger_log, modify. simpl.
    by destruct (disk s (writes s)) as [[msg|msg remains]|].
Qed.

Lemma insert_one_after c d s :
  let s' := leaves (insert_one c d) s in
  (insert_one c d s).1 = Ok tt ∧
  heap s' = heap s ++ [stored s c d] ∧
  data s' = <[c := coll_data s c ++ [length (heap s)]]> (data s) ∧
  writes s' = S (writes s) ∧
  disk s' = disk s ∧
  clock s' = clock s ∧
  (disk s (writes s) = None → file s' = Some (Json (snapshot s'))) ∧
  (∀ failure, disk s (writes s) = Some failure →
     file s' = match failure with
               | OpenFails _ => file s
               | DumpFails _ remains => Some remains
               end ∧
     (ERROR, "Could not save fallback storage: " +:+ failure_msg failure)
       ∈ log s').
Proof.
  intros s'. subst s'. unfold leaves. rewrite insert_one_spec. cbv zeta.
  unfold leaves. rewrite save_data_spec. simpl.
  destruct (disk s (writes s)) as [failure|] eqn:Hd; simpl.
  - do 6 (split; [done|]). split; [done|].
    intros ? [= <-]. split; [done|].
    rewrite !elem_of_app, !list_elem_of_singleton. auto.
  - do 6 (split; [done|]). split; done.
Qed.

Lemma coll_data_insert_one c d s :
  coll_data (leaves (insert_one c d) s) c = coll_data s c ++ [length (heap s)].
Proof.
  destruct (insert_one_after c d s) as (_ & _ & Hdata & _).
  unfold coll_data at 1. rewrite Hdata. by rewrite lookup_insert_eq.
Qed.

Lemma coll_data_insert_one_ne c c' d s :
  c ≠ c' →
  coll_data (leaves (insert_one c d) s) c' = coll_data s c'.
Proof.
  intros Hne. destruct (insert_one_after c d s) as (_ & _ & Hdata & _).
  unfold coll_data. rewrite Hdata. by rewrite lookup_insert_ne.
Qed.

Lemma insert_one_wf c d s : wf s → wf (leaves (insert_one c d) s).
Proof.
  intros Hwf.
  destruct (insert_one_after c d s) as (_ & Hheap & Hdata & _).
  unfold wf. rewrite Hheap, Hdata, length_app. simpl.
  apply map_Forall_insert_2.
  - apply Forall_app. split.
    + eapply Forall_impl; [by apply wf_coll|]. simpl. lia.
    + repeat constructor. lia.
  - intros c' ls Hc'. eapply Forall_impl; [exact (Hwf c' ls Hc')|]. simpl. lia.
Qed.

Lemma docs_insert_one c d s :
  wf s → docs (leaves (insert_one c d) s) c = docs s c ++ [stored s c d].
Proof.
  intros Hwf. unfold docs. rewrite coll_data_insert_one.
  destruct (insert_one_after c d s) as (_ & -> & _).
  rewrite fmap_app, fmap_heap_get_alloc by by apply wf_coll.
  simpl. by rewrite heap_get_new.
Qed.

Lemma doc_matches_singleton k v d :
  doc_matches {[k := v]} d = py_eq (dict_get d k) v.
Proof.
  unfold doc_matches. rewrite map_to_list_singleton. simpl.
  unfold py_ne. by rewrite negb_involutive, andb_true_r.
Qed.

(** After [insert_one], the query of the first call still finds nothing
    among the older documents, so that the first match, if any, is the
    new document. *)
Lemma first_match_insert_one c d q s :
  wf s →
  first_match (heap s) q (coll_data s c) = None →
  first_match (heap (leaves (insert_one c d) s)) q
    (coll_data (leaves (insert_one c d) s) c)
  = if doc_matches q (stored s c d) then Some (length (heap s)) else None.
Proof.
  intros Hwf Hnone. rewrite coll_data_insert_one.
  destruct (insert_one_after c d s) as (_ & -> & _).
  rewrite first_match_app
    by (by rewrite first_match_alloc by by apply wf_coll).
  simpl. by rewrite heap_get_new.
Qed.

(** *** [update_one] *)

Lemma update_fields_cases u :
  (∃ fields, update_fields u = ret fields) ∨ (∃ e, update_fields u = raise e).
Proof.
  unfold update_fields. destruct (u !! "$set") as [[]|]; simpl; eauto.
Qed.

Lemma update_fields_Ok u s fields :
  (update_fields u s).1 = Ok fields → update_fields u = ret fields.
Proof.
  destruct (update_fields_cases u) as [[f ->]|[e ->]]; simpl; [|done].
  by intros [= ->].
Qed.

(** No match and no upsert: nothing is evaluated but the match. *)
Lemma update_one_no_match c q u s :
  first_match (heap s) q (coll_data s c) = None →
  update_one c q u false s = (Ok tt, s).
Proof.
  intros Hnone. unfold update_one, bind, gets. by rewrite Hnone.
Qed.

(** A match: the first matching document is updated in place and
    stamped, then the store is flushed. *)
Lemma update_one_found c q u upsert s l fields :
  first_match (heap s) q (coll_data s c) = Some l →
  update_fields u = ret fields →
  update_one c q u upsert s =
    (Ok tt,
     leaves _save_data
       (mkStore
          (<[l := <["updated_at" := VStr (isoformat (clock s (clock_reads s)))]>
                    (dict_update (heap_get (heap s) l) fields)]> (heap s))
          (data s) (file s)
          (log s ++ [(DEBUG, "Updated document: " +:+ py_str (VDict q))])
          (clock s) (S (clock_reads s)) (disk s) (writes s))).
Proof.
  intros Hl Hf. unfold update_one, bind at 1, gets. rewrite Hl, Hf.
  assert (Hlt : (l < length (heap s))%nat ∨ (length (heap s) ≤ l)%nat) by lia.
  unfold bind, ret, update_at, now, setitem, modify, logger_debug, logger_log.
  simpl. unfold save_callback, leaves. rewrite !save_data_spec. simpl.
  assert (Hh : <[l:=<["updated_at":=VStr (isoformat (clock s (clock_reads s)))]>
                  (heap_get (<[l:=dict_update (heap_get (heap s) l) fields]> (heap s)) l)]>
                 (<[l:=dict_update (heap_get (heap s) l) fields]> (heap s))
               = <[l:=<["updated_at":=VStr (isoformat (clock s (clock_reads s)))]>
                     (dict_update (heap_get (heap s) l) fields)]> (heap s)).
  { destruct Hlt as [Hlt|Hge].
    - unfold heap_get at 1. rewrite list_lookup_insert_eq by done. simpl.
      by rewrite list_insert_insert_eq.
    - by rewrite !list_insert_ge by (rewrite ?length_insert; lia). }
  rewrite Hh. done.
Qed.

(** No match and upsert: the query and the fields of the update make a
    new document, which [insert_one] stores; a second flush follows. *)
Lemma update_one_upsert c q u s fields :
  first_match (heap s) q (coll_data s c) = None →
  update_fields u = ret fields →
  let s1 := leaves (insert_one c (dict_update q fields)) s in
  update_one c q u true s =
    (Ok tt,
     leaves _save_data
       (set_log (log s1 ++ [(DEBUG, "Upserted new document: "
                                      +:+ py_str (VDict q))]) s1)).
Proof.
  intros Hnone Hf s1. subst s1.
  unfold update_one, bind at 1, gets. rewrite Hnone.
  unfold bind at 1, ret at 1. simpl. rewrite Hf.
  unfold bind at 1. unfold bind at 1, ret at 1.
  unfold bind at 1. unfold leaves.
  destruct (insert_one_after c (dict_update q fields) s) as (Hok & _).
  destruct (insert_one c (dict_update q fields) s) as [r s1]. simpl in Hok.
  subst r. simpl. unfold save_callback.
  by rewrite !save_data_spec.
Qed.

Lemma update_one_upsert_after c q u s fields :
  first_match (heap s) q (coll_data s c) = None →
  update_fields u = ret fields →
  let s' := leaves (update_one c q u true) s in
  (update_one c q u true s).1 = Ok tt ∧
  heap s' = heap (leaves (insert_one c (dict_update q fields)) s) ∧
  data s' = data (leaves (insert_one c (dict_update q fields)) s).
Proof.
  intros Hnone Hf s'. subst s'.
  pose proof (update_one_upsert c q u s fields Hnone Hf) as Hu. cbv zeta in Hu.
  unfold leaves at 1 3. rewrite Hu. cbn [fst snd].
  split; [done|].
  match goal with
  | |- context [leaves _save_data ?x] =>
      destruct (save_data_keeps x) as (-> & -> & _)
  end.
  done.
Qed.

Lemma update_one_found_after c q u upsert s l fields :
  first_match (heap s) q (coll_data s c) = Some l →
  update_fields u = ret fields →
  let s' := leaves (update_one c q u upsert) s in
  (update_one c q u upsert s).1 = Ok tt ∧
  data s' = data s ∧
  heap s' =
    <[l := <["updated_at" := VStr (isoformat (clock s (clock_reads s)))]>
             (dict_update (heap_get (heap s) l) fields)]> (heap s).
Proof.
  intros Hl Hf s'. subst s'. unfold leaves at 1 2.
  rewrite (update_one_found c q u upsert s l fields Hl Hf). cbn [fst snd].
  split; [done|].
  match goal with
  | |- context [leaves _save_data ?x] =>
      destruct (save_data_keeps x) as (-> & -> & _)
  end.
  done.
Qed.

(** *** [find] *)

Lemma find_loop_spec q ls s :
  Forall (λ l, (l < length (heap s))%nat) ls →
  let ms := List.filter (λ l, doc_matches q (heap_get (heap s) l)) ls in
  find_loop q ls s =
    (Ok (seq (length (heap s)) (length ms)),
     set_heap (heap s ++ (heap_get (heap s) <$> ms)) s).
Proof.
  revert s. induction ls as [|l ls IH]; intros s Hls ms; subst ms.
  - simpl. unfold ret, set_heap. rewrite app_nil_r. by destruct s.
  - apply Forall_cons in Hls as [Hl Hls].
    cbn [find_loop List.filter]. unfold bind at 1, deref, gets.
    destruct (doc_matches q (heap_get (heap s) l)) eqn:Hm.
    + unfold bind at 1, alloc. unfold bind at 1.
      set (s1 := set_heap (heap s ++ [heap_get (heap s) l]) s).
      assert (Hls1 : Forall (λ l', (l' < length (heap s1))%nat) ls).
      { eapply Forall_impl; [exact Hls|]. intros l' Hl'. unfold s1. simpl in *.
        rewrite length_app. simpl. lia. }
      rewrite (IH s1 Hls1). cbv zeta. unfold s1. simpl.
      assert (Hfilter :
        List.filter (λ l', doc_matches q (heap_get (heap s ++ [heap_get (heap s) l]) l')) ls
        = List.filter (λ l', doc_matches q (heap_get (heap s) l')) ls).
      { clear -Hls. induction Hls as [|l' ls Hl' _ IHls]; [done|].
        simpl. by rewrite heap_get_alloc, IHls. }
      rewrite Hfilter.
      set (ms := List.filter _ ls).
      assert (Hms : Forall (λ l', (l' < length (heap s))%nat) ms).
      { apply Forall_forall. intros l' Hin.
        apply list_elem_of_In, filter_In in Hin as [Hin _].
        rewrite Forall_forall in Hls. by apply Hls, list_elem_of_In. }
      rewrite fmap_heap_get_alloc by done.
      rewrite length_app. simpl. rewrite Nat.add_1_r.
      unfold ret, set_heap. simpl. by rewrite <- app_assoc.
    + by apply IH.
Qed.

Lemma snapshot_lookup s c :
  is_Some (data s !! c) → snapshot s !! c = Some (docs s c).
Proof.
  intros [ls Hls]. unfold snapshot, docs, coll_data.
  by rewrite lookup_fmap, Hls.
Qed.

(** *** The claims about the collection methods *)

(** C6.  [update_one] without upsert, when no document matches the query,
    returns normally and leaves the whole store as it was: the documents,
    their number, the file and the log.  What it returns is what a call
    that did update a document returns. *)
Theorem update_one_without_match_is_silent c q u s :
  (find_one c q s).1 = Ok None →
  update_one c q u false s = (Ok tt, s) ∧
  docs (leaves (update_one c q u false) s) c = docs s c ∧
  length (docs (leaves (update_one c q u false) s) c) = length (docs s c) ∧
  (∀ s2 fields,
     (find_one c q s2).1 ≠ Ok None →
     (update_fields u s2).1 = Ok fields →
     (update_one c q u false s2).1 = Ok tt).
Proof.
  intros Hnone%find_one_None.
  pose proof (update_one_no_match c q u s Hnone) as Hu.
  unfold leaves. rewrite Hu. do 3 (split; [done|]).
  intros s2 fields Hsome Hf%update_fields_Ok.
  destruct (first_match (heap s2) q (coll_data s2 c)) as [l|] eqn:Hl.
  - by destruct (update_one_found_after c q u false s2 l fields Hl Hf).
  - by apply find_one_None in Hl.
Qed.

Lemma first_match_find h q ls :
  heap_get h <$> first_match h q ls
  = List.find (doc_matches q) (heap_get h <$> ls).
Proof.
  induction ls as [|l ls IH]; [done|].
  rewrite fmap_cons. simpl.
  by destruct (doc_matches q (heap_get h l)).
Qed.

Lemma read_one_find c q s :
  read_one c q s = List.find (doc_matches q) (docs s c).
Proof.
  unfold read_one, docs. rewrite <- first_match_find, find_one_spec.
  destruct (first_match (heap s) q (coll_data s c)); [|done].
  simpl. by rewrite heap_get_new.
Qed.

Lemma find_ext {A} (f g : A → bool) (l : list A) :
  (∀ x, f x = g x) → List.find f l = List.find g l.
Proof.
  intros Hfg. induction l as [|x l IH]; [done|]. simpl. by rewrite Hfg, IH.
Qed.

Lemma find_app_Some {A} (f : A → bool) (l1 l2 : list A) x :
  List.find f l1 = Some x → List.find f (l1 ++ l2) = Some x.
Proof.
  induction l1 as [|y l1 IH]; [done|]. simpl. destruct (f y); [done|]. apply IH.
Qed.

Lemma find_app_None {A} (f : A → bool) (l1 l2 : list A) :
  Forall (λ x, f x = false) l1 → List.find f (l1 ++ l2) = List.find f l2.
Proof.
  induction 1 as [|y l1 Hy _ IH]; [done|]. simpl. by rewrite Hy.
Qed.

(** C7, as the code has it.  [insert_one] stores the document as it is
    when it has an ['_id'] and with a generated one otherwise; the stored
    document becomes the last of the collection; one write of the file is
    attempted and, when it succeeds, the file holds the collection with
    the new document.  [insert_one] does not compare the identifier with
    those of the collection: [find_one] on it returns the first document
    that carries an equal ['_id'], which is the stored document when no
    older document has one, and the older document otherwise.  No older
    document has one when the identifier is generated and those of the
    older documents were generated while the collection was shorter. *)
Theorem insert_one_then_find_one c d s :
  wf s →
  let doc := stored s c d in
  let id := dict_get doc "_id" in
  let s1 := leaves (insert_one c d) s in
  let same_id := λ d' : Doc, py_eq (dict_get d' "_id") id in
  (insert_one c d s).1 = Ok tt ∧
  (d !! "_id" = None →
     doc = <["_id" := VStr (gen_id (length (coll_data s c) + 1)
                              (clock s (clock_reads s)))]> d) ∧
  (is_Some (d !! "_id") → doc = d) ∧
  doc !! "_id" = Some id ∧
  docs s1 c = docs s c ++ [doc] ∧
  writes s1 = S (writes s) ∧
  (disk s (writes s) = None →
     file s1 = Some (Json (snapshot s1)) ∧ snapshot s1 !! c = Some (docs s1 c)) ∧
  read_one c {["_id" := id]} s1 = List.find same_id (docs s c ++ [doc]) ∧
  (Forall (λ d', same_id d' = false) (docs s c) →
   read_one c {["_id" := id]} s1 = Some doc) ∧
  (∀ d', List.find same_id (docs s c) = Some d' →
         read_one c {["_id" := id]} s1 = Some d') ∧
  (d !! "_id" = None →
   Forall (λ d', ∃ n t, (n ≤ length (coll_data s c))%nat ∧
                        dict_get d' "_id" = VStr (gen_id n t)) (docs s c) →
   read_one c {["_id" := id]} s1 = Some doc).
Proof.
  intros Hwf doc id s1 same_id.
  destruct (insert_one_after c d s) as (Hok & Hheap & Hdata & Hw & _ & _ & Hfile & _).
  fold s1 in Hheap, Hdata, Hw, Hfile.
  assert (Hid : doc !! "_id" = Some id).
  { subst id doc. unfold dict_get. by destruct (stored_has_id s c d) as [v ->]. }
  assert (Hread : read_one c {["_id" := id]} s1
                  = List.find same_id (docs s c ++ [doc])).
  { rewrite read_one_find. unfold s1. rewrite docs_insert_one by done.
    apply find_ext. intros d'. apply doc_matches_singleton. }
  split; [done|]. split.
  { intros Hd. subst doc. unfold stored, dict_in.
    rewrite bool_decide_eq_false_2; [done|]. rewrite Hd. by intros [? ?]. }
  split.
  { intros Hd. subst doc. unfold stored, dict_in.
    by rewrite bool_decide_eq_true_2. }
  split; [done|]. split; [by apply docs_insert_one|]. split; [done|]. split.
  { intros Hdisk. split; [by apply Hfile|]. apply snapshot_lookup.
    rewrite Hdata, lookup_insert_eq. by eexists. }
  assert (Hnew : Forall (λ d', same_id d' = false) (docs s c) →
                 read_one c {["_id" := id]} s1 = Some doc).
  { intros Hnew. rewrite Hread, find_app_None by done. simpl.
    assert (Hself : same_id doc = true); [|by rewrite Hself].
    unfold same_id, id. apply py_eq_refl. }
  split; [done|]. split; [done|]. split.
  - intros d' Hold. rewrite Hread. by apply find_app_Some.
  - intros Hd Hgen. apply Hnew. eapply Forall_impl; [exact Hgen|].
    intros d' (n & t & Hn & Hd'). unfold same_id. rewrite Hd'.
    assert (Hid' : id = VStr (gen_id (length (coll_data s c) + 1)
                               (clock s (clock_reads s)))).
    { unfold id, doc, stored, dict_in, dict_get.
      rewrite bool_decide_eq_false_2 by (rewrite Hd; by intros [? ?]).
      by rewrite lookup_insert_eq. }
    rewrite Hid'. simpl. apply bool_decide_eq_false.
    intros Heq%gen_id_length_inj. lia.
Qed.

(** C2, as the code has it.  [update_one] with upsert, when no document
    matches the query, appends exactly one document: the query overwritten
    with the fields of the update (the contents of ['$set'] when present),
    completed by a generated ['_id'] when neither supplies one.  A second
    call with the same arguments appends nothing, provided the update does
    not change the value of a field that the query names. *)
Theorem upsert_creates_one_document c q u fields s :
  wf s →
  (find_one c q s).1 = Ok None →
  (update_fields u s).1 = Ok fields →
  let doc := stored s c (dict_update q fields) in
  let s1 := leaves (update_one c q u true) s in
  let s2 := leaves (update_one c q u true) s1 in
  (update_one c q u true s).1 = Ok tt ∧
  docs s1 c = docs s c ++ [doc] ∧
  dom doc = dom q ∪ dom fields ∪ {["_id"]} ∧
  (∀ k v, fields !! k = Some v → doc !! k = Some v) ∧
  (∀ k v, q !! k = Some v → fields !! k = None → doc !! k = Some v) ∧
  ((∀ k v v', q !! k = Some v → fields !! k = Some v' → py_eq v' v = true) →
   (update_one c q u true s1).1 = Ok tt ∧
   docs s2 c = <[length (docs s c) := heap_get (heap s2) (length (heap s))]> (docs s1 c) ∧
   length (docs s2 c) = length (docs s1 c)).
Proof.
  intros Hwf Hnone%find_one_None Hf%update_fields_Ok doc s1 s2.
  destruct (update_one_upsert_after c q u s fields Hnone Hf) as (Hok & Hheap & Hdata).
  fold s1 in Hheap, Hdata.
  set (si := leaves (insert_one c (dict_update q fields)) s) in *.
  assert (Hcoll : ∀ c', coll_data s1 c' = coll_data si c').
  { intros c'. unfold coll_data. by rewrite Hdata. }
  assert (Hdocs : docs s1 c = docs s c ++ [doc]).
  { unfold docs. rewrite Hcoll, Hheap. by apply docs_insert_one. }
  assert (Hdoc_new : ∀ k v, dict_update q fields !! k = Some v → doc !! k = Some v).
  { intros k v Hk. subst doc. unfold stored, dict_in.
    case_bool_decide as Hin; [done|].
    rewrite lookup_insert_ne; [done|]. intros <-. apply Hin. by eexists. }
  split; [done|]. split; [done|]. split.
  { subst doc. unfold stored, dict_in, dict_update.
    case_bool_decide as Hin.
    - apply elem_of_dom in Hin. rewrite dom_union_L. set_solver.
    - rewrite dom_insert_L, dom_union_L. set_solver. }
  split.
  { intros k v Hk. apply Hdoc_new. unfold dict_update.
    by apply lookup_union_Some_l. }
  split.
  { intros k v Hq Hk. apply Hdoc_new. unfold dict_update.
    by rewrite lookup_union_r. }
  intros Hagree.
  assert (Hmatch : doc_matches q doc = true).
  { apply doc_matches_true. intros k v Hq. unfold dict_get.
    destruct (fields !! k) as [v'|] eqn:Hk.
    - rewrite (Hdoc_new k v'); [by eapply Hagree|].
      unfold dict_update. by apply lookup_union_Some_l.
    - rewrite (Hdoc_new k v); [apply py_eq_refl|].
      unfold dict_update. by rewrite lookup_union_r. }
  assert (Hfirst : first_match (heap s1) q (coll_data s1 c) = Some (length (heap s))).
  { rewrite Hcoll, Hheap. subst si.
    rewrite (first_match_insert_one c _ q s Hwf Hnone). fold doc.
    by rewrite Hmatch. }
  destruct (update_one_found_after c q u true s1 _ fields Hfirst Hf)
    as (Hok2 & Hdata2 & Hheap2).
  fold s2 in Hdata2, Hheap2.
  split; [done|].
  assert (Hcoll2 : coll_data s2 c = coll_data s c ++ [length (heap s)]).
  { unfold coll_data at 1. rewrite Hdata2. fold (coll_data s1 c).
    rewrite Hcoll. apply coll_data_insert_one. }
  assert (Hlen : length (docs s2 c) = length (docs s1 c)).
  { unfold docs. rewrite !length_fmap, Hcoll2, Hcoll. subst si.
    by rewrite coll_data_insert_one. }
  split; [|done].
  apply list_eq. intros i.
  unfold docs at 1 3. rewrite Hcoll2, Hcoll. subst si.
  rewrite coll_data_insert_one.
  unfold docs at 1. rewrite length_fmap.
  destruct (decide (i = length (coll_data s c))) as [->|Hne].
  - rewrite list_lookup_insert_eq
      by (rewrite length_fmap, length_app; simpl; lia).
    rewrite list_lookup_fmap, lookup_app_r by lia.
    by rewrite Nat.sub_diag.
  - rewrite list_lookup_insert_ne by done.
    rewrite !list_lookup_fmap.
    destruct ((coll_data s c ++ [length (heap s)]) !! i) as [l|] eqn:Hi; [|done].
    simpl. f_equal.
    assert (Hl : (l < length (heap s))%nat).
    { apply lookup_app_Some in Hi as [Hi|[Hge Hi]].
      - apply (wf_elem s c); [done|]. by eapply list_elem_of_lookup_2.
      - apply list_lookup_singleton_Some in Hi as [Hi _]. lia. }
    unfold heap_get. rewrite Hheap2.
    rewrite list_lookup_insert_ne by lia. done.
Qed.

(** *** Failures of the file *)

Lemma update_one_settles c q u upsert fields s :
  update_fields u = ret fields →
  (update_one c q u upsert s).1 = Ok tt.
Proof.
  intros Hf.
  destruct (first_match (heap s) q (coll_data s c)) as [l|] eqn:Hl.
  - by destruct (update_one_found_after c q u upsert s l fields Hl Hf).
  - destruct upsert.
    + by destruct (update_one_upsert_after c q u s fields Hl Hf).
    + by rewrite update_one_no_match.
Qed.

Lemma heap_get_insert h l d :
  (l < length h)%nat → heap_get (<[l := d]> h) l = d.
Proof. intros Hl. unfold heap_get. by rewrite list_lookup_insert_eq. Qed.


Lemma insert_one_settles c d s : (insert_one c d s).1 = Ok tt.
Proof. by destruct (insert_one_after c d s). Qed.



(** C10.  A query that maps a field to [None] matches every document
    that lacks the field.  When the first document of a collection lacks
    [k], [find_one] on [{k: None}] returns a copy of it, a document
    without field [k]; [find] returns that copy first; and [update_one]
    takes the document for its match and updates it. *)
Theorem none_query_matches_missing_field c k s l ls :
  wf s →
  coll_data s c = l :: ls →
  heap_get (heap s) l !! k = None →
  let q : Doc := {[k := VNone]} in
  (∀ d, d !! k = None → doc_matches q d = true) ∧
  (∃ r, (find_one c q s).1 = Ok (Some r) ∧
        heap_get (heap (leaves (find_one c q) s)) r = heap_get (heap s) l ∧
        heap_get (heap (leaves (find_one c q) s)) r !! k = None) ∧
  (∃ r rs, (find c (Some q) s).1 = Ok (r :: rs) ∧
           heap_get (heap (leaves (find c (Some q)) s)) r !! k = None) ∧
  (∀ u fields,
     (update_fields u s).1 = Ok fields →
     heap_get (heap (leaves (update_one c q u false) s)) l
       = <["updated_at" := VStr (isoformat (clock s (clock_reads s)))]>
           (dict_update (heap_get (heap s) l) fields)).
Proof.
  intros Hwf Hc Hk q.
  assert (Hq : ∀ d, d !! k = None → doc_matches q d = true).
  { intros d Hd. subst q. rewrite doc_matches_singleton.
    unfold dict_get. by rewrite Hd. }
  assert (Hfirst : first_match (heap s) q (coll_data s c) = Some l).
  { rewrite Hc. simpl. by rewrite Hq. }
  assert (Hl : (l < length (heap s))%nat).
  { apply (wf_elem s c); [done|]. rewrite Hc. apply list_elem_of_here. }
  split; [done|]. split; [|split].
  - exists (length (heap s)). unfold leaves.
    rewrite find_one_spec, Hfirst. simpl.
    rewrite heap_get_new. done.
  - unfold leaves, find, bind, gets.
    rewrite (find_loop_spec q (coll_data s c) s (wf_coll s c Hwf)). cbv zeta.
    rewrite Hc. cbn [List.filter]. rewrite (Hq _ Hk). simpl.
    eexists _, _. split; [done|].
    replace (heap s ++ heap_get (heap s) l :: _)
      with ((heap s ++ [heap_get (heap s) l]) ++
              (heap_get (heap s) <$>
                 List.filter (λ l', doc_matches q (heap_get (heap s) l')) ls))
      by (by rewrite <- app_assoc).
    unfold heap_get at 1.
    rewrite lookup_app_l by (rewrite length_app; simpl; lia).
    fold (heap_get (heap s ++ [heap_get (heap s) l]) (length (heap s))).
    by rewrite heap_get_new.
  - intros u fields Hf%update_fields_Ok.
    destruct (update_one_found_after c q u false s l fields Hfirst Hf)
      as (_ & _ & ->).
    by apply heap_get_insert.
Qed.

(** *** Copies *)

Lemma read_one_alloc c q s d :
  wf s → read_one c q (set_heap (heap s ++ [d]) s) = read_one c q s.
Proof.
  intros Hwf. unfold read_one. rewrite !find_one_spec. simpl.
  change (coll_data (set_heap (heap s ++ [d]) s) c) with (coll_data s c).
  rewrite first_match_alloc by by apply wf_coll.
  destruct (first_match (heap s) q (coll_data s c)) as [l|] eqn:Hl; [|done].
  simpl. apply first_match_Some in Hl as [Hl _].
  rewrite !heap_get_new, heap_get_alloc; [done|]. by apply (wf_elem s c).
Qed.

(** The dictionary that [find_one] returns is a new object: writing to
    it changes the result of no later [find_one]. *)
Lemma find_one_returns_a_copy c q s r k v c' q' :
  wf s →
  (find_one c q s).1 = Ok (Some r) →
  read_one c' q' (leaves (find_one c q ;;; setitem r k v) s) = read_one c' q' s.
Proof.
  intros Hwf Hr. unfold leaves, bind. rewrite find_one_spec in *.
  destruct (first_match (heap s) q (coll_data s c)) as [l|]; [|done].
  simpl in *. injection Hr as <-.
  unfold setitem, modify. simpl.
  rewrite heap_get_new.
  replace (<[length (heap s) := <[k:=v]> (heap_get (heap s) l)]>
             (heap s ++ [heap_get (heap s) l]))
    with (heap s ++ [<[k:=v]> (heap_get (heap s) l)]).
  - unfold set_heap at 1. simpl.
    apply (read_one_alloc c' q' s _ Hwf).
  - apply list_eq. intros i.
    destruct (decide (i = length (heap s))) as [->|Hne].
    + rewrite list_lookup_insert_eq by (rewrite length_app; simpl; lia).
      rewrite lookup_app_r by lia. by rewrite Nat.sub_diag.
    + rewrite list_lookup_insert_ne by done.
      destruct (decide (i < length (heap s))%nat) as [Hlt|Hge].
      * by rewrite !lookup_app_l.
      * rewrite !lookup_app_r by lia.
        destruct (i - length (heap s))%nat as [|j] eqn:Hi; [lia|done].
Qed.

End StoreProperties.

(** ** The store on concrete inputs *)

Lemma fresh_store_wf disk : wf (fresh_store disk).
Proof. apply map_Forall_singleton. constructor. Qed.

Lemma one_doc_store_wf : wf one_doc_store.
Proof. apply map_Forall_singleton. repeat constructor. Qed.

Lemma update_one_without_match_is_silent_witness :
  Mongodb.update_one "c" by_name set_value false one_doc_store
    = (Ok tt, one_doc_store).
Proof.
  apply (update_one_without_match_is_silent "c" by_name set_value one_doc_store).
  vm_compute. reflexivity.
Defined.

Lemma insert_one_then_find_one_witness :
  let s := leaves (Mongodb.insert_one "c" by_name) (fresh_store good_disk) in
  let s1 := leaves (Mongodb.insert_one "c" by_name) s in
  docs s1 "c"
    = [<["_id" := VStr "doc_1_10"]> by_name; <["_id" := VStr "doc_2_11"]> by_name] ∧
  Mongodb.file s1 = Some (Mongodb.Json (Mongodb.snapshot s1)) ∧
  read_one "c" {["_id" := VStr "doc_2_11"]} s1
    = Some (<["_id" := VStr "doc_2_11"]> by_name).
Proof.
  intros s s1.
  assert (Hwf : wf s) by apply insert_one_wf, fresh_store_wf.
  pose proof (insert_one_then_find_one "c" by_name s Hwf) as H.
  cbv zeta in H. fold s1 in H.
  destruct H as (_ & _ & _ & _ & Hdocs & _ & Hfile & _ & _ & _ & Hgen).
  split; [exact Hdocs|]. split; [apply Hfile; reflexivity|].
  apply Hgen; [reflexivity|].
  apply Forall_singleton. exists 1%nat, 10.
  split; [vm_compute; lia | vm_compute; reflexivity].
Defined.

(** C7, counterexample.  A document inserted with the ['_id'] of a
    stored document is appended all the same, and [find_one] on that
    identifier returns the older document, which differs from it; so does
    a document inserted with ['_id'] [None] into a collection that holds
    a document without ['_id']. *)
Lemma insert_one_with_a_stored_identifier_is_not_found :
  (let s := leaves (Mongodb.insert_one "c" first_k) (fresh_store good_disk) in
   let s1 := leaves (Mongodb.insert_one "c" second_k) s in
   (Mongodb.insert_one "c" second_k s).1 = Ok tt ∧
   docs s1 "c" = [first_k; second_k] ∧
   read_one "c" {["_id" := dict_get second_k "_id"]} s1 = Some first_k ∧
   first_k ≠ second_k) ∧
  (let s1 := leaves (Mongodb.insert_one "c" without_id) one_doc_store in
   docs s1 "c" = [a_is_1; without_id] ∧
   read_one "c" {["_id" := dict_get without_id "_id"]} s1 = Some a_is_1 ∧
   a_is_1 ≠ without_id).
Proof.
  split; cbv zeta.
  - split; [vm_compute; reflexivity|]. split; [vm_compute; reflexivity|].
    split; [vm_compute; reflexivity|].
    intros H. apply (f_equal (λ m : Doc, m !! "v")) in H.
    vm_compute in H. discriminate H.
  - split; [vm_compute; reflexivity|]. split; [vm_compute; reflexivity|].
    intros H. apply (f_equal (λ m : Doc, m !! "_id")) in H.
    vm_compute in H. discriminate H.
Qed.

Lemma upsert_creates_one_document_witness :
  let s1 := leaves (Mongodb.update_one "c" by_name set_value true)
              (fresh_store good_disk) in
  let s2 := leaves (Mongodb.update_one "c" by_name set_value true) s1 in
  docs s1 "c"
    = [] ++ [stored (fresh_store good_disk) "c" (dict_update by_name value_fields)] ∧
  length (docs s2 "c") = length (docs s1 "c").
Proof.
  pose proof (upsert_creates_one_document "c" by_name set_value value_fields
                (fresh_store good_disk) (fresh_store_wf good_disk)) as H.
  assert (Hnone : (Mongodb.find_one "c" by_name (fresh_store good_disk)).1 = Ok None)
    by (vm_compute; reflexivity).
  specialize (H Hnone eq_refl). cbv zeta in H.
  destruct H as (_ & Hdocs & _ & _ & _ & Hagain).
  split; [exact Hdocs|]. apply Hagain.
  intros k v v' Hq Hf. unfold by_name, value_fields in *.
  apply lookup_singleton_Some in Hq as [<- <-].
  apply lookup_singleton_Some in Hf as [Hk _]. discriminate Hk.
Defined.

(** C2, counterexample.  On an empty collection, the upsert of the query
    [{name: x}] with [{$set: {value: 1}}] stores a document with a third
    field, the generated ['_id']; and the upsert of the query [{a: 1}]
    with the update [{a: 2}], made twice, stores two documents. *)
Lemma upsert_adds_an_id_and_may_repeat :
  (∃ doc,
     docs (leaves (Mongodb.update_one "c" by_name set_value true)
             (fresh_store good_disk)) "c" = [doc] ∧
     doc !! "_id" = Some (VStr "doc_1_10") ∧
     dict_update by_name value_fields !! "_id" = None ∧
     doc ≠ dict_update by_name value_fields) ∧
  length
    (docs (leaves (Mongodb.update_one "c" a_is_1 a_becomes_2 true ;;;
                   Mongodb.update_one "c" a_is_1 a_becomes_2 true)
             (fresh_store good_disk)) "c") = 2%nat.
Proof.
  split; [|vm_compute; reflexivity].
  eexists. split; [vm_compute; reflexivity|].
  split; [vm_compute; reflexivity|]. split; [vm_compute; reflexivity|].
  intros H. apply (f_equal (λ m : Doc, m !! "_id")) in H.
  vm_compute in H. discriminate H.
Qed.



Lemma none_query_matches_missing_field_witness :
  ∃ r, (Mongodb.find_one "c" {["b" := VNone]} one_doc_store).1 = Ok (Some r) ∧
       Mongodb.heap_get
         (Mongodb.heap (leaves (Mongodb.find_one "c" {["b" := VNone]}) one_doc_store)) r
       = a_is_1.
Proof.
  destruct (none_query_matches_missing_field "c" "b" one_doc_store 0%nat []
              one_doc_store_wf eq_refl eq_refl) as (_ & (r & Hr & Hdoc & _) & _).
  exists r. split; [exact Hr | exact Hdoc].
Defined.

(** C3, the code at the failing input.  [find] without a query hands out
    the stored dictionaries themselves: once the caller has written to
    the first one, [find_one] no longer answers [{a: 1}] but [{a: 2}].
    The same caller, given the copies that [find] makes for a query,
    changes nothing. *)
Theorem find_without_query_returns_the_stored_objects :
  (Mongodb.find "c" None one_doc_store).1 = Ok (Mongodb.coll_data one_doc_store "c") ∧
  read_one "c" ∅ one_doc_store = Some a_is_1 ∧
  read_one "c" ∅ (leaves (write_to_first None) one_doc_store) = Some a_becomes_2 ∧
  read_one "c" ∅ (leaves (write_to_first (Some ∅)) one_doc_store) = Some a_is_1.
Proof. vm_compute. repeat split. Qed.

(** * Properties of the scheduler *)

Section SchedulerProperties.

Import Scheduler.

Context {W : Type}.
Implicit Types (s : Sched W) (job : Job W) (f : Callable W).

(** What [_run_job] does to a job that is present and enabled: the two
    clock readings, the two writes, then the call, whose outcome only
    selects the closing log line. *)
Lemma run_job_enabled s i job :
  tasks s !! i = Some job →
  enabled job = true →
  let t0 := clock s (clock_reads s) in
  let t1 := clock s (S (clock_reads s)) in
  let ts := <[i := stamped t0 t1 job]> (tasks s) in
  let out := body_of (func job) (status_of <$> ts) (world s) in
  _run_job i s =
    (Ok tt,
     mkSched ts (running s) (start_time s)
       (log s ++ [(DEBUG, "Running job: " +:+ id job)] ++
          [match out.1 with
           | Ok _ => (DEBUG, "Completed job: " +:+ id job)
           | Raise e => (ERROR, "Job " +:+ id job +:+ " failed: " +:+ exn_str e)
           end])
       (clock s) (S (S (clock_reads s))) out.2 (choice s) (choices s)).
Proof.
  intros Hi Hen t0 t1 ts out. subst t0 t1.
  assert (Hts : alter
      (λ j, mkJob (func j) (interval j) (id j) (last_run j)
              (clock s (S (clock_reads s)) + interval job) (enabled j)) i
      (alter (λ j, mkJob (func j) (interval j) (id j)
                     (Some (clock s (clock_reads s))) (next_run j)
                     (enabled j)) i (tasks s)) = ts).
  { subst ts. apply list_eq; intros k. destruct (decide (i = k)) as [<-|Hne].
    - rewrite !list_lookup_alter_eq, Hi. simpl.
      rewrite list_lookup_insert_eq by (by eapply lookup_lt_Some). done.
    - rewrite !list_lookup_alter_ne, list_lookup_insert_ne by done. done. }
  unfold _run_job, bind, gets, try_except. simpl. rewrite Hi, Hen. simpl.
  unfold call, get_job_status. simpl. rewrite Hts.
  destruct (iscoroutinefunction (func job)); simpl;
    repeat match goal with
    | |- context [body_of ?f ?st ?w] =>
        progress change (body_of f st w) with out
    end;
    clearbody out; destruct out as [[[]|e] w];
    unfold logger_debug, logger_error, logger_log, modify, set_log; simpl;
    by rewrite <- app_assoc.
Qed.

(** [_run_job] settles normally whatever the job does, and leaves
    [self.running] alone. *)
Lemma run_job_settles s i :
  (_run_job i s).1 = Ok tt ∧ running (_run_job i s).2 = running s.
Proof.
  destruct (tasks s !! i) as [job|] eqn:Hi.
  - destruct (enabled job) eqn:Hen.
    + rewrite (run_job_enabled s i job Hi Hen). done.
    + unfold _run_job, bind, gets. simpl. rewrite Hi, Hen. done.
  - unfold _run_job, bind, gets. simpl. rewrite Hi. done.
Qed.

(** *** The steps of a coroutine *)

Lemma stamp_alter (ts : list (Job W)) i job t0 t1 :
  ts !! i = Some job →
  alter (λ j, mkJob (func j) (interval j) (id j) (last_run j)
                (t1 + interval job) (enabled j)) i
    (alter (λ j, mkJob (func j) (interval j) (id j) (Some t0) (next_run j)
                   (enabled j)) i ts)
  = <[i := stamped t0 t1 job]> ts.
Proof.
  intros Hi. apply list_eq; intros k. destruct (decide (i = k)) as [<-|Hne].
  - rewrite !list_lookup_alter_eq, Hi. simpl.
    rewrite list_lookup_insert_eq by (by eapply lookup_lt_Some). done.
  - rewrite !list_lookup_alter_ne, list_lookup_insert_ne by done. done.
Qed.

Lemma start_spec s i :
  start i s =
    match tasks s !! i with
    | Some job =>
        if enabled job then
          (Ok (Awaiting i),
           mkSched
             (<[i := stamped (clock s (clock_reads s))
                       (clock s (S (clock_reads s))) job]> (tasks s))
             (running s) (start_time s)
             (log s ++ [(DEBUG, "Running job: " +:+ id job)])
             (clock s) (S (S (clock_reads s))) (world s) (choice s) (choices s))
        else (Ok (Finished (Ok tt)), s)
    | None => (Ok (Finished (Ok tt)), s)
    end.
Proof.
  unfold start, bind, gets. cbn [fst snd].
  destruct (tasks s !! i) as [job|] eqn:Hi; [|done].
  destruct (enabled job); [|done]. cbn.
  by rewrite (stamp_alter (tasks s) i job _ _ Hi).
Qed.

Lemma proceed_awaiting s i job :
  tasks s !! i = Some job →
  proceed (Awaiting i) s =
    (Ok (Resuming i (body_of (func job) (get_job_status s) (world s)).1),
     set_world (body_of (func job) (get_job_status s) (world s)).2 s).
Proof.
  intros Hi. unfold proceed, bind, gets, call. cbn [fst snd]. rewrite Hi.
  by destruct (body_of (func job) (get_job_status s) (world s)).
Qed.

Lemma proceed_resuming s i r job :
  tasks s !! i = Some job →
  proceed (Resuming i r) s =
    (Ok (Finished (Ok tt)), set_log (log s ++ [closing_line job r]) s).
Proof.
  intros Hi. unfold proceed, bind, gets. cbn [fst snd]. rewrite Hi.
  by destruct r.
Qed.

(** A coroutine that nothing interleaves with is [_run_job]. *)
Lemma run_job_steps s i :
  _run_job i s
  = (let* c := start i in let* c := proceed c in let* _ := proceed c in ret tt) s.
Proof.
  unfold bind at 1. rewrite start_spec.
  destruct (tasks s !! i) as [job|] eqn:Hi.
  - destruct (enabled job) eqn:Hen.
    + rewrite (run_job_enabled s i job Hi Hen). cbv zeta.
      set (ts := <[i := stamped _ _ job]> (tasks s)).
      assert (Hts : ts !! i = Some (stamped (clock s (clock_reads s))
                                      (clock s (S (clock_reads s))) job)).
      { unfold ts. apply list_lookup_insert_eq. by eapply lookup_lt_Some. }
      unfold bind at 1. erewrite proceed_awaiting by exact Hts.
      unfold bind at 1. erewrite proceed_resuming by exact Hts.
      unfold ret, get_job_status, set_log, set_world. cbn.
      fold ts. destruct (body_of (func job) (status_of <$> ts) (world s)) as [[[]|e] w];
        cbn; by rewrite <- app_assoc.
    + unfold _run_job, bind, gets. cbn. by rewrite Hi, Hen.
  - unfold _run_job, bind, gets. cbn. by rewrite Hi.
Qed.

(** *** States with the same jobs *)

Lemma same_jobs_refl s : same_jobs s s.
Proof. done. Qed.

Lemma same_jobs_trans s1 s2 s3 :
  same_jobs s1 s2 → same_jobs s2 s3 → same_jobs s1 s3.
Proof.
  intros (? & ? & ? & ? & ?) (? & ? & ? & ? & ?).
  repeat split; congruence.
Qed.

Lemma run_job_after s i :
  let s' := after (_run_job i) s in
  running s' = running s ∧ start_time s' = start_time s ∧ clock s' = clock s ∧
  match tasks s !! i with
  | Some job =>
      if enabled job then
        tasks s' = <[i := stamped (clock s (clock_reads s))
                             (clock s (S (clock_reads s))) job]> (tasks s) ∧
        clock_reads s' = S (S (clock_reads s))
      else tasks s' = tasks s ∧ clock_reads s' = clock_reads s
  | None => tasks s' = tasks s ∧ clock_reads s' = clock_reads s
  end.
Proof.
  intros s'. subst s'. unfold after.
  destruct (tasks s !! i) as [job|] eqn:Hi.
  - destruct (enabled job) eqn:Hen.
    + rewrite (run_job_enabled s i job Hi Hen). done.
    + unfold _run_job, bind, gets. simpl. rewrite Hi, Hen. done.
  - unfold _run_job, bind, gets. simpl. rewrite Hi. done.
Qed.

Lemma run_job_same_jobs s1 s2 i :
  same_jobs s1 s2 →
  same_jobs (after (_run_job i) s1) (after (_run_job i) s2).
Proof.
  intros (Ht & Hr & Hst & Hc & Hn).
  destruct (run_job_after s1 i) as (Hr1 & Hst1 & Hc1 & H1).
  destruct (run_job_after s2 i) as (Hr2 & Hst2 & Hc2 & H2).
  rewrite Ht in H1.
  unfold same_jobs. rewrite Hr1, Hr2, Hst1, Hst2, Hc1, Hc2.
  destruct (tasks s2 !! i) as [job|].
  - destruct (enabled job); destruct H1 as [-> ->], H2 as [-> ->];
      repeat split; congruence.
  - destruct H1 as [-> ->], H2 as [-> ->]. done.
Qed.

Lemma batch_same_jobs js s1 s2 :
  same_jobs s1 s2 →
  same_jobs (foldl (λ s i, after (_run_job i) s) s1 js)
    (foldl (λ s i, after (_run_job i) s) s2 js).
Proof.
  revert s1 s2. induction js as [|j js IH]; intros s1 s2 H; [done|].
  cbn [foldl]. by apply IH, run_job_same_jobs.
Qed.

Lemma start_same_jobs s i :
  same_jobs (start i s).2 (after (_run_job i) s).
Proof.
  destruct (run_job_after s i) as (Hr & Hst & Hc & H).
  rewrite start_spec. unfold same_jobs. rewrite Hr, Hst, Hc.
  destruct (tasks s !! i) as [job|].
  - destruct (enabled job); destruct H as [-> ->]; done.
  - destruct H as [-> ->]. done.
Qed.

Lemma choice_same_jobs s n : same_jobs (set_choices n s) s.
Proof. done. Qed.

(** *** What the steps keep of the jobs *)

Lemma registered_refl (ts : list (Job W)) : Forall2 same_registration ts ts.
Proof. induction ts; constructor; [done|done]. Qed.

Lemma registered_trans (ts1 ts2 ts3 : list (Job W)) :
  Forall2 same_registration ts1 ts2 →
  Forall2 same_registration ts2 ts3 →
  Forall2 same_registration ts1 ts3.
Proof.
  intros H12. revert ts3. induction H12 as [|j1 j2 ts1 ts2 H _ IH]; intros ts3 H23.
  - by inversion H23.
  - inversion H23 as [|? j3 ? ts3' H' H23']; subst. constructor; [|by apply IH].
    destruct H as (? & ? & ? & ?), H' as (? & ? & ? & ?).
    repeat split; congruence.
Qed.

Lemma start_registered s i :
  Forall2 same_registration (tasks s) (tasks (start i s).2).
Proof.
  rewrite start_spec. destruct (tasks s !! i) as [job|] eqn:Hi;
    [|apply registered_refl].
  destruct (enabled job); [|apply registered_refl]. cbn [snd tasks].
  rewrite <- (list_insert_id (tasks s) i job) at 1 by done.
  apply Forall2_insert; [apply registered_refl|done].
Qed.

Lemma registered_lookup (ts ts' : list (Job W)) i job :
  Forall2 same_registration ts ts' →
  ts !! i = Some job →
  ∃ job', ts' !! i = Some job' ∧ same_registration job job'.
Proof.
  intros H Hi. rewrite Forall2_lookup in H. specialize (H i).
  rewrite Hi in H. inversion H; subst. eauto.
Qed.

Lemma registered_lookup_None (ts ts' : list (Job W)) i :
  Forall2 same_registration ts ts' → ts !! i = None → ts' !! i = None.
Proof.
  intros H Hi. rewrite Forall2_lookup in H. specialize (H i).
  rewrite Hi in H. by inversion H.
Qed.

Lemma outcomes_registered (ts ts' : list (Job W)) calls w :
  Forall2 same_registration ts ts' →
  outcomes ts' calls w = outcomes ts calls w.
Proof.
  intros H. revert w. induction calls as [|[i seen] calls IH]; intros w; [done|].
  cbn [outcomes]. destruct (ts !! i) as [job|] eqn:Hi.
  - destruct (registered_lookup ts ts' i job H Hi) as (job' & -> & Hf & _).
    rewrite Hf. destruct (body_of (func job) seen w) as [r w1]. by rewrite IH.
  - rewrite (registered_lookup_None ts ts' i H Hi). apply IH.
Qed.

Lemma startable_registered (ts ts' : list (Job W)) i :
  Forall2 same_registration ts ts' → startable ts' i = startable ts i.
Proof.
  intros H. unfold startable. destruct (ts !! i) as [job|] eqn:Hi.
  - by destruct (registered_lookup ts ts' i job H Hi) as (job' & -> & _ & _ & _ & ->).
  - by rewrite (registered_lookup_None ts ts' i H Hi).
Qed.

Lemma filter_startable_registered (ts ts' : list (Job W)) js :
  Forall2 same_registration ts ts' →
  List.filter (startable ts') js = List.filter (startable ts) js.
Proof.
  intros H. induction js as [|j js IH]; [done|]. simpl.
  by rewrite (startable_registered ts ts' j H), IH.
Qed.

Lemma closing_line_registered (job job' : Job W) r :
  same_registration job job' → closing_line job' r = closing_line job r.
Proof. intros (_ & _ & Hid & _). unfold closing_line. by rewrite Hid. Qed.

(** *** The turns of a batch *)

Lemma split_at {A} (l : list A) k x :
  l !! k = Some x →
  ∃ l1 l2, l = l1 ++ x :: l2 ∧ ∀ y, <[k := y]> l = l1 ++ y :: l2.
Proof.
  intros H. destruct (list_elem_of_split_length l k x H) as (l1 & l2 & -> & ->).
  exists l1, l2. split; [done|]. intros y.
  rewrite insert_app_r_alt by lia. by rewrite Nat.sub_diag.
Qed.

Lemma unfinished_spec k0 cs k :
  Proceed k ∈ unfinished k0 cs →
  ∃ c, cs !! (k - k0)%nat = Some c ∧ (k0 ≤ k)%nat ∧ (0 < steps_left c)%nat.
Proof.
  revert k0. induction cs as [|c cs IH]; intros k0 Hin.
  - by apply elem_of_nil in Hin.
  - assert (Hrest : Proceed k ∈ unfinished (S k0) cs →
              ∃ c', (c :: cs) !! (k - k0)%nat = Some c' ∧ (k0 ≤ k)%nat
                    ∧ (0 < steps_left c')%nat).
    { intros (c' & Hc' & Hle & Hpos)%IH. exists c'.
      replace (k - k0)%nat with (S (k - S k0)) by lia. split; [done|]. lia. }
    destruct c as [i|i r|r]; cbn [unfinished] in Hin.
    + apply elem_of_cons in Hin as [[= ->]|Hin]; [|by apply Hrest].
      exists (Awaiting i). rewrite Nat.sub_diag. simpl. split; [done|]. lia.
    + apply elem_of_cons in Hin as [[= ->]|Hin]; [|by apply Hrest].
      exists (Resuming i r). rewrite Nat.sub_diag. simpl. split; [done|]. lia.
    + by apply Hrest.
Qed.

Lemma unfinished_no_start k0 cs : Start ∉ unfinished k0 cs.
Proof.
  revert k0. induction cs as [|[i|i r|r] cs IH]; intros k0; cbn [unfinished].
  - apply not_elem_of_nil.
  - apply not_elem_of_cons. split; [done|apply IH].
  - apply not_elem_of_cons. split; [done|apply IH].
  - apply IH.
Qed.

Lemma unfinished_nil k0 cs :
  unfinished k0 cs = [] → sum_list (steps_left <$> cs) = 0%nat.
Proof.
  revert k0. induction cs as [|[i|i r|r] cs IH]; intros k0; cbn [unfinished];
    [done|done|done|].
  intros H. simpl. by apply IH in H.
Qed.

Lemma open_turns_proceed cs pending k :
  Proceed k ∈ open_turns cs pending →
  ∃ c, cs !! k = Some c ∧ (0 < steps_left c)%nat.
Proof.
  unfold open_turns. rewrite elem_of_app. intros [Hin|Hin].
  - apply unfinished_spec in Hin as (c & Hc & _ & Hpos).
    rewrite Nat.sub_0_r in Hc. eauto.
  - destruct pending; [by apply elem_of_nil in Hin|].
    by apply list_elem_of_singleton in Hin.
Qed.

Lemma open_turns_start cs pending :
  Start ∈ open_turns cs pending → pending ≠ [].
Proof.
  unfold open_turns. rewrite elem_of_app. intros [Hin|Hin].
  - by apply unfinished_no_start in Hin.
  - by destruct pending; [apply elem_of_nil in Hin|].
Qed.

Lemma open_turns_nil cs pending :
  open_turns cs pending = [] →
  sum_list (steps_left <$> cs) = 0%nat ∧ pending = [].
Proof.
  unfold open_turns. intros [H1 H2]%app_eq_nil. split.
  - by eapply unfinished_nil.
  - by destruct pending.
Qed.

Lemma all_finished (ts : list (Job W)) cs :
  sum_list (steps_left <$> cs) = 0%nat →
  Forall (sound ts) cs →
  cs = replicate (length cs) (Finished (Ok tt)) ∧
  awaiting cs = [] ∧
  ∀ i r, Resuming i r ∉ cs.
Proof.
  induction cs as [|c cs IH]; intros Hsum Hsound.
  - split; [done|]. split; [done|]. intros i r. apply not_elem_of_nil.
  - apply Forall_cons in Hsound as [Hc Hsound].
    destruct c as [i|i r|r]; simpl in Hsum; [lia|lia|].
    simpl in Hc. subst r. destruct (IH Hsum Hsound) as (Hcs & Haw & Hres).
    split; [simpl; by rewrite <- Hcs|]. split; [done|].
    intros i r. apply not_elem_of_cons. split; [done|apply Hres].
Qed.

Lemma steps_left_app (l1 l2 : list Coroutine) :
  sum_list (steps_left <$> (l1 ++ l2))
  = (sum_list (steps_left <$> l1) + sum_list (steps_left <$> l2))%nat.
Proof. induction l1 as [|c l1 IH]; [done|]. csimpl. rewrite IH. lia. Qed.

Lemma run_until_complete_S fuel cs pending s :
  run_until_complete (S fuel) cs pending s =
    match open_turns cs pending with
    | [] => (Ok cs, s)
    | turn :: turns =>
        let s0 := set_choices (S (choices s)) s in
        match (turn :: turns) !! (choice s (choices s) mod length (turn :: turns))%nat,
              pending with
        | Some Start, i :: pending' =>
            match start i s0 with
            | (Ok c, s1) => run_until_complete fuel (cs ++ [c]) pending' s1
            | (Raise e, s1) => (Raise e, s1)
            end
        | Some (Proceed k), _ =>
            match cs !! k with
            | Some c =>
                match proceed c s0 with
                | (Ok c', s1) => run_until_complete fuel (<[k := c']> cs) pending s1
                | (Raise e, s1) => (Raise e, s1)
                end
            | None => (Ok cs, s0)
            end
        | _, _ => (Ok cs, s0)
        end
    end.
Proof.
  cbn [run_until_complete].
  destruct (open_turns cs pending) as [|turn turns]; [done|].
  unfold bind at 1, next_choice. cbv zeta.
  destruct ((turn :: turns) !! _) as [[k|]|]; [| |done].
  - destruct (cs !! k); [|done]. done.
  - destruct pending; [done|]. done.
Qed.

(** *** The batch

    Whatever the choices, the loop settles every coroutine with a normal
    result.  The jobs, the flags and the clock are then what the
    coroutines run one after the other leave; the functions of the jobs
    that were awaiting their call or were to start have been called,
    each once; and the log has the closing line of every call. *)
Lemma run_until_complete_spec fuel cs pending s :
  (sum_list (steps_left <$> cs) + 3 * length pending ≤ fuel)%nat →
  Forall (sound (tasks s)) cs →
  ∃ calls,
    (run_until_complete fuel cs pending s).1
      = Ok (replicate (length cs + length pending) (Finished (Ok tt))) ∧
    same_jobs (run_until_complete fuel cs pending s).2
      (foldl (λ s i, after (_run_job i) s) s pending) ∧
    calls.*1 ≡ₚ awaiting cs ++ List.filter (startable (tasks s)) pending ∧
    world (run_until_complete fuel cs pending s).2
      = (outcomes (tasks s) calls (world s)).2 ∧
    (∀ x, x ∈ log s → x ∈ log (run_until_complete fuel cs pending s).2) ∧
    (∀ i r job,
       tasks s !! i = Some job →
       (i, r) ∈ (outcomes (tasks s) calls (world s)).1 ∨ Resuming i r ∈ cs →
       closing_line job r ∈ log (run_until_complete fuel cs pending s).2).
Proof.
  revert cs pending s.
  assert (Hdone : ∀ cs pending s,
    sum_list (steps_left <$> cs) = 0%nat → pending = [] →
    Forall (sound (tasks s)) cs →
    ∀ s', same_jobs s' s → world s' = world s → log s' = log s →
    ∃ calls,
      (Ok cs : Result (list Coroutine))
        = Ok (replicate (length cs + length pending) (Finished (Ok tt))) ∧
      same_jobs s' (foldl (λ s i, after (_run_job i) s) s pending) ∧
      calls.*1 ≡ₚ awaiting cs ++ List.filter (startable (tasks s)) pending ∧
      world s' = (outcomes (tasks s) calls (world s)).2 ∧
      (∀ x, x ∈ log s → x ∈ log s') ∧
      (∀ i r job,
         tasks s !! i = Some job →
         (i, r) ∈ (outcomes (tasks s) calls (world s)).1 ∨ Resuming i r ∈ cs →
         closing_line job r ∈ log s')).
  { intros cs pending s Hsum -> Hsound s' Hsame Hworld Hlog.
    destruct (all_finished (tasks s) cs Hsum Hsound) as (Hcs & Haw & Hres).
    exists []. rewrite Haw, Nat.add_0_r. cbn.
    split; [by rewrite <- Hcs|]. split; [done|]. split; [done|].
    split; [done|]. split; [by rewrite Hlog|].
    intros i r job _ [Hin|Hin]; [by apply elem_of_nil in Hin|].
    by apply Hres in Hin. }
  induction fuel as [|fuel IH]; intros cs pending s Hfuel Hsound.
  { cbn [run_until_complete]. unfold ret. cbn [fst snd].
    apply Hdone; [lia|destruct pending; [done|simpl in Hfuel; lia]|done..]. }
  rewrite run_until_complete_S.
  destruct (open_turns cs pending) as [|turn turns] eqn:Hturns.
  { apply open_turns_nil in Hturns as [Hsum ->]. cbn [fst snd].
    by apply Hdone. }
  cbv zeta. set (s0 := set_choices (S (choices s)) s).
  set (m := (choice s (choices s) mod length (turn :: turns))%nat).
  assert (Hm : (m < length (turn :: turns))%nat)
    by (apply Nat.mod_upper_bound; simpl; lia).
  destruct (lookup_lt_is_Some_2 _ _ Hm) as [t Ht]. rewrite Ht.
  assert (Hin : t ∈ open_turns cs pending).
  { rewrite Hturns. by eapply list_elem_of_lookup_2. }
  clear Hturns Ht Hm m turn turns.
  destruct t as [k|].
  - (* a coroutine goes on *)
    apply open_turns_proceed in Hin as (c & Hk & Hpos). rewrite Hk.
    destruct (split_at cs k c Hk) as (l1 & l2 & Hcs & Hins).
    destruct c as [i|i r|r]; [| |simpl in Hpos; lia].
    + (* the function runs *)
      assert (Hi : (i < length (tasks s))%nat).
      { rewrite Forall_forall in Hsound. apply (Hsound (Awaiting i)).
        by eapply list_elem_of_lookup_2. }
      destruct (lookup_lt_is_Some_2 _ _ Hi) as [job Hjob].
      rewrite (proceed_awaiting s0 i job Hjob).
      change (get_job_status s0) with (get_job_status s).
      change (world s0) with (world s).
      destruct (body_of (func job) (get_job_status s) (world s)) as [r w] eqn:Hbody.
      cbn [fst snd]. set (s1 := set_world w s0). rewrite Hins.
      destruct (IH (l1 ++ Resuming i r :: l2) pending s1) as
        (calls & Hres & Hsame & Hperm & Hworld & Hlog & Hclose).
      { rewrite Hcs in Hfuel. rewrite steps_left_app in Hfuel |- *.
        simpl in Hfuel |- *. lia. }
      { rewrite Hcs in Hsound. apply Forall_app in Hsound as [H1 H2].
        apply Forall_cons in H2 as [_ H2].
        apply Forall_app. split; [done|]. by apply Forall_cons. }
      exists ((i, get_job_status s) :: calls).
      split.
      { rewrite Hres. rewrite Hcs, !length_app. done. }
      split.
      { eapply same_jobs_trans; [exact Hsame|]. by apply batch_same_jobs. }
      split.
      { rewrite fmap_cons. cbn [fst]. rewrite Hperm, Hcs.
        unfold awaiting. rewrite !omap_app. cbn [omap].
        rewrite <- !app_assoc. cbn [app]. apply Permutation_middle. }
      cbn [outcomes]. rewrite Hjob, Hbody.
      change (tasks s1) with (tasks s) in *. change (world s1) with w in *.
      destruct (outcomes (tasks s) calls w) as [rs w2] eqn:Hout. cbn [fst snd] in *.
      split; [done|]. split; [intros x Hx; by apply Hlog|].
      intros i' r' job' Hjob' [Hcall|Hold].
      * apply elem_of_cons in Hcall as [[= -> ->]|Hcall].
        -- apply (Hclose i r job' Hjob'). right.
           rewrite elem_of_app, elem_of_cons. auto.
        -- apply (Hclose i' r' job' Hjob'). by left.
      * apply (Hclose i' r' job' Hjob'). right. rewrite Hcs in Hold.
        rewrite elem_of_app, elem_of_cons in Hold |- *.
        destruct Hold as [?|[?|?]]; [auto|done|auto].
    + (* the coroutine resumes *)
      assert (Hi : (i < length (tasks s))%nat).
      { rewrite Forall_forall in Hsound. apply (Hsound (Resuming i r)).
        by eapply list_elem_of_lookup_2. }
      destruct (lookup_lt_is_Some_2 _ _ Hi) as [job Hjob].
      rewrite (proceed_resuming s0 i r job Hjob). cbn [fst snd].
      set (s1 := set_log (log s0 ++ [closing_line job r]) s0). rewrite Hins.
      destruct (IH (l1 ++ Finished (Ok tt) :: l2) pending s1) as
        (calls & Hres & Hsame & Hperm & Hworld & Hlog & Hclose).
      { rewrite Hcs in Hfuel. rewrite steps_left_app in Hfuel |- *.
        simpl in Hfuel |- *. lia. }
      { rewrite Hcs in Hsound. apply Forall_app in Hsound as [H1 H2].
        apply Forall_cons in H2 as [_ H2].
        apply Forall_app. split; [done|]. by apply Forall_cons. }
      exists calls.
      split.
      { rewrite Hres. rewrite Hcs, !length_app. done. }
      split.
      { eapply same_jobs_trans; [exact Hsame|]. by apply batch_same_jobs. }
      split.
      { rewrite Hperm, Hcs. unfold awaiting. rewrite !omap_app. done. }
      change (tasks s1) with (tasks s) in *. change (world s1) with (world s) in *.
      split; [done|].
      assert (Hlog1 : ∀ x, x ∈ log s ++ [closing_line job r] →
                x ∈ log (run_until_complete fuel (l1 ++ Finished (Ok tt) :: l2)
                           pending s1).2)
        by (intros x Hx; by apply Hlog).
      split.
      { intros x Hx. apply Hlog1. rewrite elem_of_app. by left. }
      intros i' r' job' Hjob' [Hcall|Hold].
      * apply (Hclose i' r' job' Hjob'). by left.
      * rewrite Hcs in Hold. rewrite elem_of_app, elem_of_cons in Hold.
        destruct Hold as [Hold|[[= -> ->]|Hold]].
        -- apply (Hclose i' r' job' Hjob'). right.
           rewrite elem_of_app. by left.
        -- apply Hlog1. rewrite elem_of_app, list_elem_of_singleton.
           right. congruence.
        -- apply (Hclose i' r' job' Hjob'). right.
           rewrite elem_of_app, elem_of_cons. auto.
  - (* the next task starts *)
    apply open_turns_start in Hin.
    destruct pending as [|i pending]; [done|]. clear Hin.
    pose proof (start_same_jobs s0 i) as Hstart.
    pose proof (start_registered s0 i) as Hreg.
    assert (Hkeep : world (start i s0).2 = world s ∧
                    (∀ x, x ∈ log s → x ∈ log (start i s0).2) ∧
                    (start i s0).1
                    = Ok (if startable (tasks s) i then Awaiting i
                          else Finished (Ok tt))).
    { rewrite start_spec. unfold startable.
      change (tasks s0) with (tasks s).
      destruct (tasks s !! i) as [job|]; [|done].
      destruct (enabled job); [|done]. cbn.
      split; [done|]. split; [|done]. intros x Hx. rewrite elem_of_app. by left. }
    destruct Hkeep as (Hw & Hl & Hc).
    destruct (start i s0) as [rc s1]. cbn [fst snd] in *. subst rc.
    change (tasks s0) with (tasks s) in Hreg.
    set (c := if startable (tasks s) i then Awaiting i else Finished (Ok tt)).
    assert (Hlen : length (tasks s1) = length (tasks s))
      by (symmetry; by eapply Forall2_length).
    destruct (IH (cs ++ [c]) pending s1) as
      (calls & Hres & Hsame & Hperm & Hworld & Hlog & Hclose).
    { rewrite steps_left_app. cbn [length] in Hfuel.
      assert (steps_left c ≤ 2)%nat by (unfold c; destruct (startable _ _); simpl; lia).
      simpl. lia. }
    { apply Forall_app. split.
      - eapply Forall_impl; [exact Hsound|].
        intros [j|j r|r]; simpl; rewrite ?Hlen; done.
      - apply Forall_singleton. unfold c, startable.
        destruct (tasks s !! i) as [job|] eqn:Hjob; [|done].
        destruct (enabled job); [|done]. simpl. rewrite Hlen.
        by eapply lookup_lt_Some. }
    exists calls.
    split.
    { rewrite Hres, length_app. cbn [length]. do 2 f_equal. lia. }
    split.
    { eapply same_jobs_trans; [exact Hsame|]. cbn [foldl].
      apply batch_same_jobs. eapply same_jobs_trans; [exact Hstart|].
      by apply run_job_same_jobs. }
    split.
    { rewrite Hperm. rewrite (filter_startable_registered _ _ _ Hreg).
      unfold awaiting. rewrite omap_app. cbn [List.filter]. unfold c.
      destruct (startable (tasks s) i); cbn [omap].
      - by rewrite <- app_assoc.
      - by rewrite app_nil_r. }
    rewrite (outcomes_registered _ _ _ _ Hreg), Hw in Hworld, Hclose.
    split; [done|]. split; [intros x Hx; by apply Hlog, Hl|].
    intros i' r' job' Hjob' Hor.
    destruct (registered_lookup _ _ i' job' Hreg Hjob') as (job1 & Hjob1 & Hsame1).
    rewrite <- (closing_line_registered job' job1 r' Hsame1).
    apply (Hclose i' r' job1 Hjob1).
    destruct Hor as [?|Hold]; [by left|]. right. rewrite elem_of_app. by left.
Qed.

Lemma gather_spec js s :
  ∃ calls,
    (gather js s).1 = Ok (replicate (length js) (Ok tt)) ∧
    same_jobs (gather js s).2 (foldl (λ s i, after (_run_job i) s) s js) ∧
    calls.*1 ≡ₚ List.filter (startable (tasks s)) js ∧
    world (gather js s).2 = (outcomes (tasks s) calls (world s)).2 ∧
    (∀ x, x ∈ log s → x ∈ log (gather js s).2) ∧
    (∀ i r job,
       tasks s !! i = Some job →
       (i, r) ∈ (outcomes (tasks s) calls (world s)).1 →
       closing_line job r ∈ log (gather js s).2).
Proof.
  destruct (run_until_complete_spec (3 * length js) [] js s) as
    (calls & Hres & Hsame & Hperm & Hworld & Hlog & Hclose);
    [simpl; lia|constructor|].
  exists calls. unfold gather, bind.
  destruct (run_until_complete (3 * length js) [] js s) as [r s1].
  cbn [fst snd] in *. subst r. cbn [fst snd ret].
  split; [by rewrite fmap_replicate|]. split; [done|]. split; [done|].
  split; [done|]. split; [done|].
  intros i r job Hjob Hin. apply (Hclose i r job Hjob). by left.
Qed.

Lemma batch_keeps_running js s :
  running (foldl (λ s i, after (_run_job i) s) s js) = running s.
Proof.
  revert s. induction js as [|j js IH]; intros s; [done|].
  cbn [foldl]. rewrite IH. apply run_job_settles.
Qed.

Lemma due_from_spec t i0 ts :
  NoDup (due_from t i0 ts) ∧
  ∀ i, i ∈ due_from t i0 ts ↔
       (i0 ≤ i)%nat ∧ ∃ job, ts !! (i - i0)%nat = Some job ∧ is_due t job = true.
Proof.
  revert i0. induction ts as [|job ts IH]; intros i0.
  - split; [constructor|]. intros i. split.
    + by intros ?%elem_of_nil.
    + intros (_ & job & Hjob & _). done.
  - destruct (IH (S i0)) as [Hnd Hin]. simpl.
    assert (Hrest : ∀ i, i ∈ due_from t (S i0) ts ↔
              (i0 < i)%nat ∧ ∃ job', (job :: ts) !! (i - i0)%nat = Some job'
                                     ∧ is_due t job' = true).
    { intros i. rewrite Hin. split.
      - intros (Hle & job' & Hjob' & Hdue). split; [lia|]. exists job'.
        split; [|done]. replace (i - i0)%nat with (S (i - S i0)) by lia. done.
      - intros (Hlt & job' & Hjob' & Hdue). split; [lia|]. exists job'.
        split; [|done]. replace (i - i0)%nat with (S (i - S i0)) in Hjob' by lia.
        done. }
    destruct (is_due t job) eqn:Hdue.
    + split.
      * apply NoDup_cons. split; [|done]. rewrite Hrest. lia.
      * intros i. rewrite elem_of_cons, Hrest. split.
        -- intros [->|[Hlt Hex]]; [|split; [lia|done]].
           split; [lia|]. exists job. by rewrite Nat.sub_diag.
        -- intros (Hle & job' & Hjob' & Hdue').
           destruct (decide (i = i0)) as [->|Hne]; [by left|].
           right. split; [lia|]. by exists job'.
    + split; [done|]. intros i. rewrite Hrest. split.
      * intros [Hlt Hex]. split; [lia|done].
      * intros (Hle & job' & Hjob' & Hdue').
        destruct (decide (i = i0)) as [->|Hne].
        -- rewrite Nat.sub_diag in Hjob'. simpl in Hjob'. congruence.
        -- split; [lia|]. by exists job'.
Qed.

Lemma due_jobs_spec t ts :
  NoDup (due_jobs t ts) ∧
  ∀ i, i ∈ due_jobs t ts ↔ ∃ job, ts !! i = Some job ∧ is_due t job = true.
Proof.
  unfold due_jobs. destruct (due_from_spec t 0 ts) as [Hnd Hin].
  split; [done|]. intros i. rewrite Hin, Nat.sub_0_r. split.
  - by intros [_ ?].
  - intros ?. split; [lia|done].
Qed.

Lemma due_jobs_startable t (ts : list (Job W)) :
  List.filter (startable ts) (due_jobs t ts) = due_jobs t ts.
Proof.
  apply forallb_filter_id, forallb_forall. intros i Hi%list_elem_of_In.
  destruct (due_jobs_spec t ts) as [_ Hdue].
  apply Hdue in Hi as (job & Hjob & Hd). unfold startable. rewrite Hjob.
  unfold is_due in Hd. by apply andb_true_iff in Hd as [-> _].
Qed.


(** A scan returns normally.  It leaves the jobs, the flags and the clock
    that its coroutines run one after the other would leave; the
    function of every job that was due has been called, once; and the
    log has the closing line of every call. *)
Lemma scan_spec s :
  ∃ calls,
    (scan s).1 = Ok tt ∧
    same_jobs (after scan s)
      (foldl (λ s i, after (_run_job i) s)
         (set_clock_reads (S (clock_reads s)) s)
         (due_jobs (clock s (clock_reads s)) (tasks s))) ∧
    calls.*1 ≡ₚ due_jobs (clock s (clock_reads s)) (tasks s) ∧
    world (after scan s) = (outcomes (tasks s) calls (world s)).2 ∧
    (∀ x, x ∈ log s → x ∈ log (after scan s)) ∧
    (∀ i r job,
       tasks s !! i = Some job →
       (i, r) ∈ (outcomes (tasks s) calls (world s)).1 →
       closing_line job r ∈ log (after scan s)).
Proof.
  unfold after, scan, bind, gets, time_time, sleep, ret.
  cbn [fst snd tasks set_clock_reads].
  destruct (due_jobs _ _) as [|j js] eqn:Hd.
  { exists []. cbn. split; [done|]. split; [done|]. split; [done|].
    split; [done|]. split; [done|]. intros i r job _ Hin.
    by apply elem_of_nil in Hin. }
  rewrite <- Hd. clear Hd.
  destruct (gather_spec (due_jobs (clock s (clock_reads s)) (tasks s))
              (set_clock_reads (S (clock_reads s)) s))
    as (calls & Hres & Hsame & Hperm & Hworld & Hlog & Hclose).
  cbn [tasks world log set_clock_reads] in *.
  rewrite due_jobs_startable in Hperm.
  destruct (gather _ _) as [r s1]. cbn [fst snd] in *. subst r.
  exists calls. done.
Qed.

Lemma scan_same_jobs s :
  same_jobs (after scan s)
    (foldl (λ s i, after (_run_job i) s)
       (set_clock_reads (S (clock_reads s)) s)
       (due_jobs (clock s (clock_reads s)) (tasks s))).
Proof. by destruct (scan_spec s) as (calls & _ & Hsame & _). Qed.

Lemma scan_settles s :
  (scan s).1 = Ok tt ∧ running (scan s).2 = running s.
Proof.
  destruct (scan_spec s) as (calls & Hok & (_ & Hrun & _) & _). split; [done|].
  unfold after in Hrun. rewrite Hrun. by rewrite batch_keeps_running.
Qed.

Lemma while_running_S n s :
  while_running (S n) s =
    if running s then
      match scan s with
      | (Ok _, s') => while_running n s'
      | (Raise e, s') => (Raise e, s')
      end
    else (Ok Stopped, s).
Proof. cbn [while_running]. unfold bind, gets. by destruct (running s). Qed.



(** C1, as the code has it.  [_run_job] on an enabled job reads the clock
    twice: [last_run] is the first reading [t0] and [next_run] is the
    second reading [t1] plus the interval.  Both are written before the
    job function is called (the function is called with a job list that
    already shows them) and whatever the call does, return or raise.
    Afterwards [next_run = last_run + interval + (t1 - t0)]: at least
    [last_run + interval] when the clock does not go back, and equal to it
    when the two readings coincide. *)
Theorem run_job_writes_times_before_call s i job :
  tasks s !! i = Some job →
  enabled job = true →
  let t0 := clock s (clock_reads s) in
  let t1 := clock s (S (clock_reads s)) in
  let job' := stamped t0 t1 job in
  let seen := status_of <$> <[i := job']> (tasks s) in
  let s' := after (_run_job i) s in
  (_run_job i s).1 = Ok tt ∧
  tasks s' !! i = Some job' ∧
  last_run job' = Some t0 ∧
  next_run job' = t1 + interval job' ∧
  seen !! i = Some (status_of job') ∧
  world s' = (body_of (func job) seen (world s)).2 ∧
  (t0 ≤ t1 → t0 + interval job' ≤ next_run job') ∧
  (t0 = t1 → next_run job' = t0 + interval job').
Proof.
  intros Hi Hen t0 t1 job' seen s'.
  pose proof (run_job_enabled s i job Hi Hen) as Hrun. cbv zeta in Hrun.
  fold t0 t1 job' in Hrun. fold seen in Hrun.
  assert (Hlt : (i < length (tasks s))%nat) by (by eapply lookup_lt_Some).
  subst s'. unfold after. rewrite Hrun. simpl.
  repeat split.
  - by rewrite list_lookup_insert_eq.
  - subst seen. rewrite list_lookup_fmap, list_lookup_insert_eq by done. done.
  - lia.
  - lia.
Qed.

(** C4, as the code has it.  [add_job] does not look at the interval:
    whatever its sign, the call returns normally and the job list ends
    with an enabled job that carries this interval. *)
Theorem add_job_accepts_any_interval func seconds id s :
  ∃ job,
    add_job func seconds id s
      = (Ok tt, after (add_job func seconds id) s) ∧
    tasks (after (add_job func seconds id) s) = tasks s ++ [job] ∧
    interval job = seconds ∧
    enabled job = true.
Proof.
  eexists. unfold after, add_job, bind, gets, time_time, modify, logger_info,
    logger_log. simpl. repeat split.
Qed.

(** C8, as the code has it.  A job registered while the clock reads [t]
    has never run and has [next_run = t + interval].  With a positive
    interval it is not due at time [t]; with a zero or negative interval,
    which [add_job] accepts, it is due at once. *)
Theorem add_job_first_run func seconds id s :
  let t := clock s (clock_reads s) in
  ∃ job,
    tasks (after (add_job func seconds id) s) = tasks s ++ [job] ∧
    last_run job = None ∧
    next_run job = t + seconds ∧
    (0 < seconds → is_due t job = false) ∧
    (seconds ≤ 0 → is_due t job = true).
Proof.
  intros t. eexists. unfold after, add_job, bind, gets, time_time, modify,
    logger_info, logger_log. simpl. split; [reflexivity|]. fold t.
  unfold is_due. simpl. repeat split.
  - intros Hpos. apply bool_decide_eq_false. lia.
  - intros Hle. apply bool_decide_eq_true. lia.
Qed.


End SchedulerProperties.

(** ** The scheduler on concrete inputs *)

Lemma run_job_writes_times_before_call_witness :
  let job := Scheduler.mkJob (Scheduler.AsyncFn healthy) 5 "refresh" None 0 true in
  (Scheduler._run_job 0 one_job).1 = Ok tt ∧
  Scheduler.tasks (after (Scheduler._run_job 0) one_job) !! 0%nat
    = Some (stamped 10 11 job).
Proof.
  intros job.
  pose proof (run_job_writes_times_before_call one_job 0 job eq_refl eq_refl) as H.
  cbv zeta in H. destruct H as (H1 & H2 & _). split; [exact H1 | exact H2].
Defined.

(** C1, counterexample.  With a clock that advances between the two
    readings, a job of interval 5 that runs at time 10 ends with
    [last_run = 10] and [next_run = 16], not [10 + 5]. *)
Lemma run_job_next_run_is_not_last_run_plus_interval :
  ∃ job' t,
    Scheduler.tasks (after (Scheduler._run_job 0) one_job) !! 0%nat = Some job' ∧
    Scheduler.last_run job' = Some t ∧
    Scheduler.next_run job' ≠ t + Scheduler.interval job'.
Proof.
  eexists _, 10. split; [reflexivity|]. split; [reflexivity|]. vm_compute. discriminate.
Qed.

(** C4, counterexample.  Registrations with interval 0 and with interval
    -5 take effect: the job list then holds a job with that interval. *)
Lemma add_job_nonpositive_interval_is_registered :
  (∃ job, job ∈ Scheduler.tasks
            (after (Scheduler.add_job (Scheduler.SyncFn healthy) 0 None) no_jobs) ∧
          Scheduler.interval job = 0) ∧
  (∃ job, job ∈ Scheduler.tasks
            (after (Scheduler.add_job (Scheduler.SyncFn healthy) (-5) None) no_jobs) ∧
          Scheduler.interval job = -5).
Proof.
  split; (eexists; split; [apply list_elem_of_here | reflexivity]).
Qed.

Lemma add_job_first_run_witness :
  ∃ job,
    Scheduler.tasks (after (Scheduler.add_job (Scheduler.AsyncFn healthy) 1800
                              (Some "weather_update")) no_jobs) = [job] ∧
    Scheduler.next_run job = 10 + 1800 ∧
    Scheduler.is_due 10 job = false.
Proof.
  destruct (add_job_first_run (Scheduler.AsyncFn healthy) 1800
              (Some "weather_update") no_jobs) as (job & Ht & _ & Hn & Hpos & _).
  exists job. split; [exact Ht|]. split; [exact Hn|]. apply Hpos. lia.
Defined.

(** C8, counterexample.  A job registered with interval 0 while the clock
    reads 10 has [next_run = 10]: the scan made at that very time collects
    it. *)
Lemma add_job_zero_interval_is_due_at_once :
  Scheduler.due_jobs 10
    (Scheduler.tasks
       (after (Scheduler.add_job (Scheduler.SyncFn healthy) 0 None) no_jobs))
  = [0%nat].
Proof. reflexivity. Qed.


(** The two batches at work.  When every coroutine runs to its end before
    the next one starts, the failure of the first job is logged before
    the second job starts; when both functions run in the thread pool,
    both jobs have started before either function has run.  Either way
    both functions have run, and the jobs carry the same times. *)
Example healthy_job_runs_after_failing_one :
  (let s := after Scheduler.scan two_jobs in
   Scheduler.world s = ["failing ran"; "healthy ran"] ∧
   Scheduler.log s
     = [(DEBUG, "Running job: bad"); (ERROR, "Job bad failed: boom");
        (DEBUG, "Running job: good"); (DEBUG, "Completed job: good")] ∧
   Scheduler.last_run <$> Scheduler.tasks s = [Some 11; Some 13]) ∧
  (let s := after Scheduler.scan two_pooled_jobs in
   Scheduler.world s = ["failing ran"; "healthy ran"] ∧
   Scheduler.log s
     = [(DEBUG, "Running job: bad"); (DEBUG, "Running job: good");
        (ERROR, "Job bad failed: boom"); (DEBUG, "Completed job: good")] ∧
   Scheduler.last_run <$> Scheduler.tasks s = [Some 11; Some 13]).
Proof. repeat split. Qed.

(** * Further properties of the fallback store *)

Section MoreStoreProperties.

Import Mongodb.

Implicit Types (s : Store) (c k : string) (d q u : Doc) (l r : nat).

Lemma leaves_bind_ok {A B} (m : M Store A) (f : A → M Store B) s a s1 :
  m s = (Ok a, s1) → leaves (bind m f) s = leaves (f a) s1.
Proof. intros Hm. unfold leaves, bind. by rewrite Hm. Qed.

(** *** Reading *)

Lemma docs_alloc s c d :
  wf s → docs (set_heap (heap s ++ [d]) s) c = docs s c.
Proof.
  intros Hwf. unfold docs. simpl.
  change (coll_data (set_heap (heap s ++ [d]) s) c) with (coll_data s c).
  by apply fmap_heap_get_alloc, wf_coll.
Qed.

(** X1.  [find_one] answers with the first document of the collection,
    in insertion order, that matches the query, and with [None] exactly
    when no document matches; the documents of the store are the same
    afterwards. *)
Theorem find_one_reads_the_first_match c q s :
  wf s →
  read_one c q s = List.find (doc_matches q) (docs s c) ∧
  ((find_one c q s).1 = Ok None ↔
   Forall (λ d, doc_matches q d = false) (docs s c)) ∧
  (∀ c', docs (leaves (find_one c q) s) c' = docs s c').
Proof.
  intros Hwf. split; [|split].
  - unfold read_one, docs. rewrite <- first_match_find, find_one_spec.
    destruct (first_match (heap s) q (coll_data s c)); [|done].
    simpl. by rewrite heap_get_new.
  - rewrite find_one_None, first_match_None. unfold docs.
    by rewrite Forall_fmap.
  - intros c'. unfold leaves. rewrite find_one_spec.
    destruct (first_match (heap s) q (coll_data s c)); [|done].
    simpl. by apply docs_alloc.
Qed.

Lemma heap_get_app_l h h' l :
  (l < length h)%nat → heap_get (h ++ h') l = heap_get h l.
Proof. intros Hl. unfold heap_get. by rewrite lookup_app_l. Qed.

Lemma fmap_heap_get_app h h' ls :
  Forall (λ l, (l < length h)%nat) ls →
  heap_get (h ++ h') <$> ls = heap_get h <$> ls.
Proof.
  induction 1 as [|l ls Hl _ IH]; [done|].
  by rewrite !fmap_cons, heap_get_app_l, IH.
Qed.

Lemma heap_get_seq_app h ds :
  heap_get (h ++ ds) <$> seq (length h) (length ds) = ds.
Proof.
  revert h. induction ds as [|d ds IH]; intros h; [done|].
  simpl. f_equal.
  - unfold heap_get. rewrite lookup_app_r by lia.
    by rewrite Nat.sub_diag.
  - specialize (IH (h ++ [d])). rewrite length_app in IH. simpl in IH.
    rewrite Nat.add_1_r, <- app_assoc in IH. exact IH.
Qed.

Lemma filter_fmap_heap_get h q ls :
  heap_get h <$> List.filter (λ l, doc_matches q (heap_get h l)) ls
  = List.filter (doc_matches q) (heap_get h <$> ls).
Proof.
  induction ls as [|l ls IH]; [done|].
  rewrite fmap_cons. simpl.
  destruct (doc_matches q (heap_get h l)); [|exact IH].
  by rewrite fmap_cons, IH.
Qed.

Lemma find_query_spec c q s :
  wf s →
  let ms := List.filter (λ l, doc_matches q (heap_get (heap s) l)) (coll_data s c) in
  find c (Some q) s =
    (Ok (seq (length (heap s)) (length ms)),
     set_heap (heap s ++ (heap_get (heap s) <$> ms)) s).
Proof.
  intros Hwf ms. unfold find, bind, gets.
  apply (find_loop_spec q (coll_data s c) s (wf_coll s c Hwf)).
Qed.

Lemma find_query_result c q s :
  wf s →
  ∃ rs,
    (find c (Some q) s).1 = Ok rs ∧
    read_all rs (leaves (find c (Some q)) s)
      = List.filter (doc_matches q) (docs s c) ∧
    Forall (λ r, (length (heap s) ≤ r)%nat) rs ∧
    NoDup rs ∧
    (∀ c', docs (leaves (find c (Some q)) s) c' = docs s c').
Proof.
  intros Hwf.
  pose proof (find_query_spec c q s Hwf) as Hf. cbv zeta in Hf.
  set (ms := List.filter (λ l, doc_matches q (heap_get (heap s) l)) (coll_data s c)) in *.
  exists (seq (length (heap s)) (length ms)).
  unfold leaves. rewrite Hf. cbn [fst snd].
  split; [done|]. split; [|split; [|split]].
  - unfold read_all. cbn [heap set_heap].
    rewrite <- (length_fmap (heap_get (heap s)) ms), heap_get_seq_app.
    apply filter_fmap_heap_get.
  - apply Forall_forall. intros r Hr%elem_of_seq. lia.
  - apply NoDup_seq.
  - intros c'. unfold docs. cbn [heap set_heap].
    change (coll_data (set_heap _ s) c') with (coll_data s c').
    by apply fmap_heap_get_app, wf_coll.
Qed.


(** X2.  [find] with a query returns new dictionaries, one for each
    document of the collection that matches and in insertion order; the
    documents of the store are the same afterwards. *)
Theorem find_returns_copies_of_the_matches c q s :
  wf s →
  ∃ rs,
    (find c (Some q) s).1 = Ok rs ∧
    read_all rs (leaves (find c (Some q)) s)
      = List.filter (doc_matches q) (docs s c) ∧
    Forall (λ r, (length (heap s) ≤ r)%nat) rs ∧
    NoDup rs ∧
    (∀ c', docs (leaves (find c (Some q)) s) c' = docs s c').
Proof. apply find_query_result. Qed.

(** *** Writing to a result *)

Lemma docs_setitem_fresh s0 s1 c r k v :
  wf s0 →
  data s1 = data s0 →
  (∃ ext, heap s1 = heap s0 ++ ext) →
  (length (heap s0) ≤ r)%nat →
  docs (leaves (setitem r k v) s1) c = docs s0 c.
Proof.
  intros Hwf Hdata [ext Hheap] Hr. unfold leaves, setitem, modify, docs. simpl.
  unfold coll_data. simpl. rewrite Hdata. fold (coll_data s0 c).
  pose proof (wf_coll s0 c Hwf) as Hall.
  induction Hall as [|l ls Hl _ IH]; [done|].
  rewrite !fmap_cons. f_equal; [|exact IH].
  unfold heap_get at 1. rewrite list_lookup_insert_ne by lia.
  rewrite Hheap. fold (heap_get (heap s0 ++ ext) l).
  by apply heap_get_app_l.
Qed.

(** X3.  The dictionaries returned by [find_one] and by [find] with a
    query are the caller's own: writing to one of them changes no
    document of the store. *)
Theorem results_are_copies c q s r k v :
  wf s →
  ((find_one c q s).1 = Ok (Some r) →
   ∀ c', docs (leaves (find_one c q ;;; setitem r k v) s) c' = docs s c') ∧
  (∀ rs, (find c (Some q) s).1 = Ok rs → r ∈ rs →
   ∀ c', docs (leaves (find c (Some q) ;;; setitem r k v) s) c' = docs s c').
Proof.
  intros Hwf. split.
  - intros Hr c'. rewrite find_one_spec in Hr.
    destruct (first_match (heap s) q (coll_data s c)) as [l|] eqn:Hl; [|done].
    injection Hr as <-.
    erewrite leaves_bind_ok by (rewrite find_one_spec, Hl; reflexivity).
    apply (docs_setitem_fresh s); [done|done|by eexists|done].
  - intros rs Hrs Hin c'.
    pose proof (find_query_spec c q s Hwf) as Hf. cbv zeta in Hf.
    rewrite Hf in Hrs. injection Hrs as <-.
    erewrite leaves_bind_ok by exact Hf.
    apply (docs_setitem_fresh s); [done|done|by eexists|].
    apply elem_of_seq in Hin. lia.
Qed.

(** *** Updating *)

Lemma first_match_at h q ls i l :
  ls !! i = Some l →
  doc_matches q (heap_get h l) = true →
  (∀ j l', (j < i)%nat → ls !! j = Some l' →
           doc_matches q (heap_get h l') = false) →
  first_match h q ls = Some l.
Proof.
  revert i. induction ls as [|l0 ls IH]; intros i Hi Hm Hbefore; [done|].
  destruct i as [|i]; simpl in *.
  - injection Hi as ->. by rewrite Hm.
  - rewrite (Hbefore 0%nat l0) by (done || lia).
    apply (IH i); [done|done|].
    intros j l' Hj Hl'. apply (Hbefore (S j)); [lia|done].
Qed.

Lemma fmap_heap_get_insert h ls i l d :
  NoDup ls →
  ls !! i = Some l →
  (l < length h)%nat →
  heap_get (<[l := d]> h) <$> ls = <[i := d]> (heap_get h <$> ls).
Proof.
  intros Hnd Hi Hl. apply list_eq. intros j.
  rewrite list_lookup_fmap.
  destruct (decide (j = i)) as [->|Hne].
  - rewrite Hi. simpl.
    rewrite list_lookup_insert_eq
      by (rewrite length_fmap; by eapply lookup_lt_Some).
    unfold heap_get. by rewrite list_lookup_insert_eq.
  - rewrite list_lookup_insert_ne by done. rewrite list_lookup_fmap.
    destruct (ls !! j) as [l'|] eqn:Hj; [|done]. simpl. f_equal.
    unfold heap_get. rewrite list_lookup_insert_ne; [done|].
    intros <-. apply Hne. by eapply NoDup_lookup.
Qed.

(** X4.  When a document matches, [update_one] changes the first
    matching document and no other: it keeps its place, receives the
    fields of the update over its own and the stamp [updated_at]; the
    collection keeps its length, and one write of the file is
    attempted, whatever [upsert] is. *)
Theorem update_one_changes_the_first_match c q u upsert fields s i d :
  wf s →
  unshared s c →
  docs s c !! i = Some d →
  doc_matches q d = true →
  (∀ j d', (j < i)%nat → docs s c !! j = Some d' → doc_matches q d' = false) →
  (update_fields u s).1 = Ok fields →
  let s' := leaves (update_one c q u upsert) s in
  (update_one c q u upsert s).1 = Ok tt ∧
  docs s' c
    = <[i := <["updated_at" := VStr (isoformat (clock s (clock_reads s)))]>
               (dict_update d fields)]> (docs s c) ∧
  length (docs s' c) = length (docs s c) ∧
  writes s' = S (writes s).
Proof.
  intros Hwf Hnd Hi Hm Hbefore Hf%update_fields_Ok s'.
  unfold docs in Hi. rewrite list_lookup_fmap in Hi.
  destruct (coll_data s c !! i) as [l|] eqn:Hl; [|done].
  injection Hi as <-.
  assert (Hfirst : first_match (heap s) q (coll_data s c) = Some l).
  { apply (first_match_at _ _ _ i); [done|done|].
    intros j l' Hj Hl'. apply (Hbefore j); [done|].
    unfold docs. by rewrite list_lookup_fmap, Hl'. }
  assert (Hlt : (l < length (heap s))%nat).
  { apply (wf_elem s c); [done|]. by eapply list_elem_of_lookup_2. }
  destruct (update_one_found_after c q u upsert s l fields Hfirst Hf)
    as (Hok & Hdata & Hheap).
  fold s' in Hdata, Hheap.
  assert (Hdocs : docs s' c
    = <[i := <["updated_at" := VStr (isoformat (clock s (clock_reads s)))]>
               (dict_update (heap_get (heap s) l) fields)]> (docs s c)).
  { unfold docs, coll_data. rewrite Hdata, Hheap. fold (coll_data s c).
    by apply fmap_heap_get_insert. }
  split; [done|]. split; [done|]. split.
  { by rewrite Hdocs, length_insert. }
  subst s'. unfold leaves.
  rewrite (update_one_found c q u upsert s l fields Hfirst Hf). cbn [snd].
  unfold leaves. rewrite save_data_spec. cbn [disk writes].
  by destruct (disk s (writes s)).
Qed.

(** *** Collections *)

(** X5.  [get_collection] never raises and changes no document: a
    collection that exists keeps its documents, one that does not is
    created empty, and the other collections are left alone; a second
    call adds no collection. *)
Theorem get_collection_keeps_documents c s :
  let s' := leaves (get_collection c) s in
  (get_collection c s).1 = Ok c ∧
  dom (data s') = {[c]} ∪ dom (data s) ∧
  (∀ c', docs s' c' = docs s c') ∧
  heap s' = heap s ∧
  data (leaves (get_collection c) s') = data s'.
Proof.
  intros s'. subst s'.
  unfold leaves, get_collection, FallbackStorage_get_collection, bind, gets,
    modify, logger_debug, logger_log, ret. cbn -[dom].
  destruct (data s !! c) as [ls|] eqn:Hc.
  - rewrite (bool_decide_eq_true_2 (is_Some (Some ls))) by by eexists.
    cbn -[dom]. rewrite Hc.
    rewrite (bool_decide_eq_true_2 (is_Some (Some ls))) by by eexists.
    cbn -[dom]. split; [done|]. split.
    { apply elem_of_dom_2 in Hc. set_solver. }
    done.
  - rewrite (bool_decide_eq_false_2 (is_Some None)) by by intros [? ?].
    cbn -[dom]. rewrite lookup_insert_eq.
    rewrite (bool_decide_eq_true_2 (is_Some (Some []))) by by eexists.
    cbn -[dom]. split; [done|]. split; [by rewrite dom_insert_L|].
    split; [|done].
    intros c'. unfold docs, coll_data. cbn.
    destruct (decide (c = c')) as [<-|Hne].
    + by rewrite lookup_insert_eq, Hc.
    + by rewrite lookup_insert_ne.
Qed.

(** *** Starting from the file *)

Lemma alloc_all_spec ds s :
  alloc_all ds s
  = (Ok (seq (length (heap s)) (length ds)), set_heap (heap s ++ ds) s).
Proof.
  revert s. induction ds as [|d ds IH]; intros s.
  - simpl. unfold ret, set_heap. rewrite app_nil_r. by destruct s.
  - change (alloc_all (d :: ds) s)
      with (match alloc_all ds (set_heap (heap s ++ [d]) s) with
            | (Ok ls, s') => (Ok (length (heap s) :: ls), s')
            | (Raise e, s') => (Raise e, s')
            end).
    rewrite IH. unfold set_heap. cbn.
    rewrite length_app, Nat.add_1_r, <- app_assoc. done.
Qed.

Lemma load_collections_spec kvs s :
  NoDup kvs.*1 →
  ∃ m ext,
    load_collections kvs s = (Ok m, set_heap (heap s ++ ext) s) ∧
    dom m = list_to_set kvs.*1 ∧
    ∀ c ds, (c, ds) ∈ kvs →
      ∃ ls, m !! c = Some ls ∧
            heap_get (heap s ++ ext) <$> ls = ds ∧
            Forall (λ l, (l < length (heap s ++ ext))%nat) ls.
Proof.
  revert s. induction kvs as [|[c ds] kvs IH]; intros s Hnd.
  - exists ∅, []. simpl. unfold ret, set_heap. rewrite app_nil_r.
    split; [by destruct s|]. split; [done|].
    intros c ds Hin. by apply elem_of_nil in Hin.
  - rewrite fmap_cons in Hnd. apply NoDup_cons in Hnd as [Hc Hnd].
    change (load_collections ((c, ds) :: kvs) s)
      with (match alloc_all ds s with
            | (Ok ls, s1) =>
                match load_collections kvs s1 with
                | (Ok m, s2) => (Ok (<[c := ls]> m), s2)
                | (Raise e, s2) => (Raise e, s2)
                end
            | (Raise e, s1) => (Raise e, s1)
            end).
    rewrite alloc_all_spec.
    destruct (IH (set_heap (heap s ++ ds) s) Hnd) as (m & ext & Hload & Hdom & Hall).
    rewrite Hload. cbn [heap set_heap] in *.
    exists (<[c := seq (length (heap s)) (length ds)]> m), (ds ++ ext).
    rewrite app_assoc. split; [by destruct s|]. split.
    { rewrite dom_insert_L, Hdom. by rewrite fmap_cons. }
    intros c' ds' Hin. apply elem_of_cons in Hin as [[= -> ->]|Hin].
    + eexists. split; [apply lookup_insert_eq|]. split.
      * rewrite fmap_heap_get_app.
        -- apply heap_get_seq_app.
        -- apply Forall_forall. intros l Hl%elem_of_seq.
           rewrite length_app. lia.
      * apply Forall_forall. intros l Hl%elem_of_seq.
        rewrite !length_app. lia.
    + destruct (Hall c' ds' Hin) as (ls & Hm & Hget & Hlt).
      exists ls. split; [|done].
      rewrite lookup_insert_ne; [done|]. intros <-. apply Hc.
      apply list_elem_of_fmap. by exists (c, ds').
Qed.

Lemma init_spec s content :
  file s = Some (Json content) →
  ∃ m ext,
    FallbackStorage_init None s
    = (Ok tt,
       mkStore (heap s ++ ext) m (file s)
         (log s ++ [(INFO, "Loaded data from fallback storage: fallback_storage.json")]
                ++ [(INFO, "Collections: "
                             +:+ py_repr (VList (VStr <$> (map_to_list m).*1)))])
         (clock s) (clock_reads s) (disk s) (writes s)) ∧
    dom m = dom content ∧
    ∀ c, heap_get (heap s ++ ext) <$> default [] (m !! c)
           = default [] (content !! c) ∧
         Forall (λ l, (l < length (heap s ++ ext))%nat) (default [] (m !! c)).
Proof.
  intros Hfile.
  destruct (load_collections_spec (map_to_list content) (set_data ∅ s)
              (NoDup_fst_map_to_list content)) as (m & ext & Hload & Hdom & Hall).
  exists m, ext. split; [|split].
  - unfold FallbackStorage_init, _load_data, try_except, bind, gets, modify.
    cbn. rewrite Hfile. unfold json_load. rewrite Hload.
    unfold logger_info, logger_log, modify. cbn.
    rewrite <- app_assoc. unfold set_log, set_data, set_heap. cbn.
    by rewrite Hfile.
  - rewrite Hdom. apply set_eq. intros c.
    rewrite elem_of_list_to_set, elem_of_dom, list_elem_of_fmap.
    split.
    + intros ([c' ds] & -> & Hin%elem_of_map_to_list). by eexists.
    + intros [ds Hds]. exists (c, ds). split; [done|].
      by apply elem_of_map_to_list.
  - intros c. cbn [heap set_heap] in Hall.
    destruct (content !! c) as [ds|] eqn:Hc.
    + destruct (Hall c ds) as (ls & -> & Hget & Hlt);
        [by apply elem_of_map_to_list|]. done.
    + assert (m !! c = None) as ->.
      { apply not_elem_of_dom. rewrite Hdom.
        rewrite elem_of_list_to_set, list_elem_of_fmap.
        intros ([c' ds] & -> & Hin%elem_of_map_to_list). simpl in *.
        congruence. }
      split; [done|constructor].
Qed.

(** X6.  What a flush writes, a process that starts reads back: when the
    write succeeds the file holds every collection, and the storage
    initialised from that file has the same collections with the same
    documents in the same order, so that [find_one] answers as before. *)
Theorem restart_restores_documents s s0 :
  disk s (writes s) = None →
  file s0 = file (leaves _save_data s) →
  let s2 := leaves (FallbackStorage_init None) s0 in
  file (leaves _save_data s) = Some (Json (snapshot s)) ∧
  (FallbackStorage_init None s0).1 = Ok tt ∧
  dom (data s2) = dom (data s) ∧
  (∀ c, docs s2 c = docs s c) ∧
  (∀ c q, read_one c q s2 = read_one c q s) ∧
  wf s2.
Proof.
  intros Hdisk Hfile s2.
  assert (Hsaved : file (leaves _save_data s) = Some (Json (snapshot s))).
  { unfold leaves. by rewrite save_data_spec, Hdisk. }
  rewrite Hsaved in Hfile.
  destruct (init_spec s0 (snapshot s) Hfile) as (m & ext & Hinit & Hdom & Hall).
  subst s2. unfold leaves at 2 3 4 5. rewrite Hinit. cbn [fst snd].
  assert (Hdocs : ∀ c,
    docs (mkStore (heap s0 ++ ext) m (file s0)
            (log s0 ++ [(INFO, "Loaded data from fallback storage: fallback_storage.json")]
                   ++ [(INFO, "Collections: "
                                +:+ py_repr (VList (VStr <$> (map_to_list m).*1)))])
            (clock s0) (clock_reads s0) (disk s0) (writes s0)) c = docs s c).
  { intros c. unfold docs at 1, coll_data. cbn [heap data].
    destruct (Hall c) as [-> _]. unfold snapshot.
    rewrite lookup_fmap. unfold docs, coll_data.
    by destruct (data s !! c). }
  split; [done|]. split; [done|]. split.
  { cbn [data]. rewrite Hdom. unfold snapshot. by rewrite dom_fmap_L. }
  split; [exact Hdocs|]. split.
  { intros c q. by rewrite !read_one_find, Hdocs. }
  intros c ls Hc. cbn [heap data] in *.
  destruct (Hall c) as [_ Hlt]. by rewrite Hc in Hlt.
Qed.


(** *** Upserts keyed by the identifier *)

Lemma first_match_insert_same h q ls l d :
  first_match h q ls = Some l →
  (l < length h)%nat →
  doc_matches q d = true →
  first_match (<[l := d]> h) q ls = Some l.
Proof.
  intros Hfirst Hl Hd. induction ls as [|l0 ls IH]; [done|].
  simpl in *. destruct (decide (l0 = l)) as [->|Hne].
  - by rewrite heap_get_insert, Hd.
  - assert (Hget : heap_get (<[l := d]> h) l0 = heap_get h l0).
    { unfold heap_get. by rewrite list_lookup_insert_ne. }
    rewrite Hget.
    destruct (doc_matches q (heap_get h l0)); [congruence|]. by apply IH.
Qed.

Lemma first_match_insert_other h q ls l d :
  l ∉ ls → first_match (<[l := d]> h) q ls = first_match h q ls.
Proof.
  induction ls as [|l0 ls IH]; intros Hl; [done|].
  apply not_elem_of_cons in Hl as [Hne Hl]. simpl.
  assert (Hget : heap_get (<[l := d]> h) l0 = heap_get h l0).
  { unfold heap_get. by rewrite list_lookup_insert_ne. }
  rewrite Hget, IH by done. done.
Qed.

Lemma wf_same s s' :
  length (heap s') = length (heap s) → data s' = data s → wf s → wf s'.
Proof. unfold wf. by intros -> ->. Qed.

Lemma upsert_by_id c id fields s :
  wf s →
  fields !! "_id" = Some id →
  let q : Doc := {["_id" := id]} in
  let u : Doc := {["$set" := VDict fields]} in
  let s' := leaves (update_one c q u true) s in
  (update_one c q u true s).1 = Ok tt ∧
  wf s' ∧
  is_Some (data s' !! c) ∧
  (∃ l, first_match (heap s') q (coll_data s' c) = Some l ∧
        ∀ k v, fields !! k = Some v → k ≠ "updated_at" →
               heap_get (heap s') l !! k = Some v) ∧
  length (coll_data s' c)
    = (length (coll_data s c)
       + match first_match (heap s) q (coll_data s c) with
         | Some _ => 0
         | None => 1
         end)%nat ∧
  (length (heap s) ≤ length (heap s'))%nat ∧
  (∀ p, (p < length (heap s))%nat → p ∉ coll_data s c →
        heap_get (heap s') p = heap_get (heap s) p ∧ p ∉ coll_data s' c).
Proof.
  intros Hwf Hid q u s'.
  assert (Hf : update_fields u = ret fields).
  { unfold update_fields, u. by rewrite lookup_singleton_eq. }
  destruct (first_match (heap s) q (coll_data s c)) as [l|] eqn:Hfirst.
  - destruct (update_one_found_after c q u true s l fields Hfirst Hf)
      as (Hok & Hdata & Hheap). fold s' in Hdata, Hheap.
    destruct (first_match_Some _ _ _ _ Hfirst) as [Hin _].
    assert (Hl : (l < length (heap s))%nat) by by apply (wf_elem s c).
    assert (Hcoll : coll_data s' c = coll_data s c)
      by (unfold coll_data; by rewrite Hdata).
    split; [done|]. split.
    { apply (wf_same s); [by rewrite Hheap, length_insert|done|done]. }
    split.
    { rewrite Hdata. unfold coll_data in Hin.
      destruct (data s !! c); [by eexists|by apply elem_of_nil in Hin]. }
    split; [|split; [rewrite Hcoll; lia|split]].
    2: { by rewrite Hheap, length_insert. }
    2: { intros p Hp Hnin. rewrite Hcoll, Hheap. split; [|done].
         unfold heap_get. rewrite list_lookup_insert_ne; [done|].
         intros <-. by apply Hnin. }
    exists l. rewrite Hcoll, Hheap. split.
    + apply first_match_insert_same; [done|done|].
      unfold q. rewrite doc_matches_singleton. unfold dict_get, dict_update.
      rewrite lookup_insert_ne by done.
      rewrite (lookup_union_Some_l _ _ _ _ Hid). apply py_eq_refl.
    + intros k v Hk Hne. rewrite heap_get_insert by done.
      rewrite lookup_insert_ne by done.
      unfold dict_update. by apply lookup_union_Some_l.
  - destruct (update_one_upsert_after c q u s fields Hfirst Hf)
      as (Hok & Hheap & Hdata). fold s' in Hheap, Hdata.
    set (si := leaves (insert_one c (dict_update q fields)) s) in *.
    assert (Hnew : stored s c (dict_update q fields) = dict_update q fields).
    { unfold stored, dict_in, dict_update.
      rewrite bool_decide_eq_true_2; [done|].
      exists id. by apply lookup_union_Some_l. }
    assert (Hcoll : coll_data s' c = coll_data s c ++ [length (heap s)]).
    { unfold coll_data at 1. rewrite Hdata. fold (coll_data si c).
      apply coll_data_insert_one. }
    split; [done|]. split.
    { apply (wf_same si); [by rewrite Hheap|done|by apply insert_one_wf]. }
    split.
    { rewrite Hdata. unfold si.
      destruct (insert_one_after c (dict_update q fields) s) as (_ & _ & -> & _).
      rewrite lookup_insert_eq. by eexists. }
    assert (Hheap' : heap s' = heap s ++ [dict_update q fields]).
    { rewrite Hheap. unfold si.
      destruct (insert_one_after c (dict_update q fields) s) as (_ & -> & _).
      by rewrite Hnew. }
    split; [|split; [rewrite Hcoll, length_app; simpl; lia|split]].
    2: { rewrite Hheap', length_app. lia. }
    2: { intros p Hp Hnin. rewrite Hcoll, Hheap'. split.
         - by apply heap_get_alloc.
         - rewrite elem_of_app, list_elem_of_singleton. intros [?| ->]; [done|lia]. }
    exists (length (heap s)).
    assert (Hm : doc_matches q (dict_update q fields) = true).
    { unfold q. rewrite doc_matches_singleton. unfold dict_get, dict_update.
      rewrite (lookup_union_Some_l _ _ _ _ Hid). apply py_eq_refl. }
    split.
    + unfold coll_data at 1. rewrite Hdata, Hheap. fold (coll_data si c).
      unfold si. rewrite (first_match_insert_one c _ q s Hwf Hfirst).
      by rewrite Hnew, Hm.
    + intros k v Hk Hne. rewrite Hheap. unfold si.
      destruct (insert_one_after c (dict_update q fields) s) as (_ & -> & _).
      rewrite heap_get_new, Hnew. unfold dict_update.
      by apply lookup_union_Some_l.
Qed.

(** *** Plans *)

Lemma save_plan_spec p s :
  (p < length (heap s))%nat →
  let pd := heap_get (heap s) p in
  let pd' := plan_dict pd (clock s (clock_reads s)) in
  let present := bool_decide (is_Some (data s !! "plans")) in
  let s_pre :=
    mkStore (<[p := pd']> (heap s))
      (if present then data s else <["plans" := []]> (data s))
      (file s)
      (if present then log s ++ [(DEBUG, "Using fallback collection: plans")]
       else (log s ++ [(DEBUG, "Using fallback collection: plans")])
              ++ [(DEBUG, "Created new collection: plans")])
      (clock s) (S (clock_reads s)) (disk s) (writes s) in
  let sU := leaves (update_one "plans" {["_id" := plan_id pd]}
                      {["$set" := VDict pd']} true) s_pre in
  save_plan p s
  = (Ok true,
     set_log (log sU ++ [(DEBUG, "Plan saved: " +:+ py_str (plan_id pd))]) sU).
Proof.
  intros Hp. cbv zeta. unfold leaves, plan_dict, plan_id.
  unfold save_plan, try_except.
  unfold get_collection, FallbackStorage_get_collection.
  unfold bind, gets, modify, logger_debug, logger_log, deref, now, setitem, ret.
  cbn -[update_one].
  destruct (bool_decide (is_Some (data s !! "plans"))) eqn:Hpres; cbn -[update_one];
    destruct (dict_in "_id" (heap_get (heap s) p)) eqn:Hin; cbn -[update_one];
    rewrite ?heap_get_insert by (rewrite ?length_insert; done).
  all: unfold getitem; rewrite lookup_insert_ne by done.
  all: try (pose proof Hin as Hin'; apply bool_decide_eq_true in Hin' as [v Hv];
            rewrite Hv; unfold dict_get; rewrite Hv; cbn -[update_one];
            rewrite (insert_id _ _ _ Hv)).
  all: rewrite ?lookup_insert_eq.
  all: unfold ret; cbn -[update_one].
  all: rewrite ?list_insert_insert_eq.
  all: match goal with
       | |- context [update_one ?c ?q ?u true ?x] =>
           lazymatch goal with
           | |- _ = (Ok true, set_log (log (update_one c q u true ?y).2 ++ _) _) =>
               change y with x
           end
       end.
  all: match goal with
       | |- context [update_one ?c ?q ?u true ?x] =>
           pose proof (update_one_settles c q u true _ x
                         ltac:(unfold update_fields; by rewrite lookup_singleton_eq)) as Hu;
           destruct (update_one c q u true x) as [r sx]
       end.
  all: simpl in Hu; by subst r.
Qed.

Lemma get_plan_spec id s :
  is_Some (data s !! "plans") →
  get_plan id s
  = let s0 := set_log (log s ++ [(DEBUG, "Using fallback collection: plans")]) s in
    match first_match (heap s) {["_id" := id]} (coll_data s "plans") with
    | Some l =>
        (Ok (Some (length (heap s))),
         set_heap (heap s ++ [heap_get (heap s) l]) s0)
    | None => (Ok None, s0)
    end.
Proof.
  intros Hpres. unfold get_plan, try_except.
  unfold get_collection, FallbackStorage_get_collection.
  unfold bind at 1. unfold bind at 1, logger_debug, logger_log, modify.
  unfold bind at 1, gets at 1. cbn [data set_log].
  rewrite (bool_decide_eq_true_2 _ Hpres). cbn [negb].
  unfold bind at 1, ret at 1. unfold ret at 1.
  rewrite find_one_spec. cbn [heap set_log].
  change (coll_data (set_log _ s) "plans") with (coll_data s "plans").
  by destruct (first_match (heap s) {["_id" := id]} (coll_data s "plans")).
Qed.

Lemma plan_dict_id pd t : plan_dict pd t !! "_id" = Some (plan_id pd).
Proof.
  unfold plan_dict. rewrite lookup_insert_ne by done. apply lookup_insert_eq.
Qed.

Lemma plan_dict_keeps pd t k v :
  pd !! k = Some v → k ≠ "updated_at" → plan_dict pd t !! k = Some v.
Proof.
  intros Hk Hne. unfold plan_dict. rewrite lookup_insert_ne by done.
  destruct (decide (k = "_id")) as [->|Hid].
  - rewrite lookup_insert_eq. unfold plan_id, dict_in, dict_get.
    rewrite bool_decide_eq_true_2 by by eexists. by rewrite Hk.
  - by rewrite lookup_insert_ne.
Qed.

Lemma plan_id_plan_dict pd t : plan_id (plan_dict pd t) = plan_id pd.
Proof.
  unfold plan_id at 1. unfold dict_in, dict_get.
  rewrite plan_dict_id. rewrite bool_decide_eq_true_2 by by eexists. done.
Qed.

Lemma save_plan_after p s :
  wf s →
  (p < length (heap s))%nat →
  let pd := heap_get (heap s) p in
  let pd' := plan_dict pd (clock s (clock_reads s)) in
  let q : Doc := {["_id" := plan_id pd]} in
  let s1 := leaves (save_plan p) s in
  (save_plan p s).1 = Ok true ∧
  wf s1 ∧
  is_Some (data s1 !! "plans") ∧
  (length (heap s) ≤ length (heap s1))%nat ∧
  (∃ l, first_match (heap s1) q (coll_data s1 "plans") = Some l ∧
        ∀ k v, pd' !! k = Some v → k ≠ "updated_at" →
               heap_get (heap s1) l !! k = Some v) ∧
  (p ∉ coll_data s "plans" →
   length (coll_data s1 "plans")
     = (length (coll_data s "plans")
        + match first_match (heap s) q (coll_data s "plans") with
          | Some _ => 0
          | None => 1
          end)%nat ∧
   heap_get (heap s1) p = pd' ∧
   p ∉ coll_data s1 "plans").
Proof.
  intros Hwf Hp pd pd' q s1.
  pose proof (save_plan_spec p s Hp) as Hspec. cbv zeta in Hspec.
  fold pd pd' in Hspec.
  set (present := bool_decide (is_Some (data s !! "plans"))) in *.
  set (s_pre := mkStore (<[p := pd']> (heap s))
                  (if present then data s else <["plans" := []]> (data s))
                  (file s) _ (clock s) (S (clock_reads s)) (disk s) (writes s)) in *.
  assert (Hcoll : coll_data s_pre "plans" = coll_data s "plans").
  { unfold coll_data, s_pre. cbn [data]. destruct present eqn:Hpres; [done|].
    rewrite lookup_insert_eq. apply bool_decide_eq_false in Hpres.
    destruct (data s !! "plans"); [|done]. exfalso. apply Hpres. by eexists. }
  assert (Hwf_pre : wf s_pre).
  { unfold wf, s_pre. cbn [heap data]. rewrite length_insert.
    destruct present; [done|]. apply map_Forall_insert_2; [constructor|done]. }
  destruct (upsert_by_id "plans" (plan_id pd) pd' s_pre Hwf_pre (plan_dict_id _ _))
    as (Hok & Hwf' & Hpres' & Hfound & Hlen & Hheap & Hframe).
  fold q in Hok, Hwf', Hpres', Hfound, Hlen, Hheap, Hframe, Hspec.
  set (sU := leaves (update_one "plans" q {["$set" := VDict pd']} true) s_pre) in *.
  assert (Hs1 : s1 = set_log (log sU ++ [(DEBUG, "Plan saved: " +:+ py_str (plan_id pd))]) sU).
  { subst s1. unfold leaves at 1. by rewrite Hspec. }
  rewrite Hspec, Hs1. cbn [fst heap data set_log].
  change (coll_data (set_log _ sU) "plans") with (coll_data sU "plans").
  split; [done|]. split; [done|]. split; [done|]. split.
  { unfold s_pre in Hheap. cbn [heap] in Hheap. by rewrite length_insert in Hheap. }
  split; [done|].
  intros Hnin.
  assert (Hp' : (p < length (heap s_pre))%nat)
    by (unfold s_pre; cbn [heap]; by rewrite length_insert).
  rewrite <- Hcoll in Hnin.
  destruct (Hframe p Hp' Hnin) as [Hget Hnin'].
  rewrite Hlen, Hcoll. split; [|split; [|done]].
  - f_equal. unfold s_pre at 1. cbn [heap].
    rewrite <- Hcoll.
    by rewrite first_match_insert_other.
  - rewrite Hget. unfold s_pre. cbn [heap]. by apply heap_get_insert.
Qed.

Lemma read_one_first_match c q s :
  read_one c q s = heap_get (heap s) <$> first_match (heap s) q (coll_data s c).
Proof. unfold docs. by rewrite read_one_find, first_match_find. Qed.

(** X8.  [save_plan] followed by [get_plan] on the plan's identifier
    returns a document: it carries that identifier and every field of the
    plan as the caller gave it, [updated_at] excepted. *)
Theorem save_plan_then_get_plan p s :
  wf s →
  (p < length (heap s))%nat →
  let pd := heap_get (heap s) p in
  let s1 := leaves (save_plan p) s in
  let s2 := leaves (get_plan (plan_id pd)) s1 in
  (save_plan p s).1 = Ok true ∧
  ∃ r, (get_plan (plan_id pd) s1).1 = Ok (Some r) ∧
       heap_get (heap s2) r !! "_id" = Some (plan_id pd) ∧
       ∀ k v, pd !! k = Some v → k ≠ "updated_at" →
              heap_get (heap s2) r !! k = Some v.
Proof.
  intros Hwf Hp pd s1 s2.
  destruct (save_plan_after p s Hwf Hp)
    as (Hok & _ & Hpres & _ & (l & Hfirst & Hfields) & _).
  fold pd s1 in Hpres, Hfirst, Hfields.
  split; [done|]. exists (length (heap s1)).
  subst s2. unfold leaves at 1 2.
  rewrite (get_plan_spec _ _ Hpres). cbv zeta. rewrite Hfirst.
  cbn [fst snd heap set_heap]. rewrite heap_get_new.
  split; [done|]. split.
  - apply Hfields; [apply plan_dict_id|done].
  - intros k v Hk Hne. apply Hfields; [|done]. by apply plan_dict_keeps.
Qed.

(** X9.  [save_plan] of a dictionary of the caller's adds one document
    to the plans when none answers to the plan's identifier and none
    otherwise; saving the same dictionary again adds nothing. *)
Theorem save_plan_adds_at_most_one_document p s :
  wf s →
  (p < length (heap s))%nat →
  p ∉ coll_data s "plans" →
  let pd := heap_get (heap s) p in
  let s1 := leaves (save_plan p) s in
  let s2 := leaves (save_plan p) s1 in
  length (docs s1 "plans")
    = (length (docs s "plans")
       + match read_one "plans" {["_id" := plan_id pd]} s with
         | Some _ => 0
         | None => 1
         end)%nat ∧
  length (docs s2 "plans") = length (docs s1 "plans").
Proof.
  intros Hwf Hp Hnin pd s1 s2.
  destruct (save_plan_after p s Hwf Hp)
    as (_ & Hwf1 & _ & Hheap & (l & Hfirst & _) & Hcount).
  destruct (Hcount Hnin) as (Hlen & Hget & Hnin1).
  fold pd s1 in Hwf1, Hheap, Hfirst, Hlen, Hget, Hnin1.
  assert (Hp1 : (p < length (heap s1))%nat) by lia.
  destruct (save_plan_after p s1 Hwf1 Hp1) as (_ & _ & _ & _ & _ & Hcount2).
  destruct (Hcount2 Hnin1) as (Hlen2 & _).
  fold s2 in Hlen2. rewrite Hget, plan_id_plan_dict, Hfirst in Hlen2.
  unfold docs. rewrite !length_fmap. split.
  - rewrite Hlen, read_one_first_match.
    by destruct (first_match (heap s) _ (coll_data s "plans")).
  - lia.
Qed.

(** *** Preferences *)

Lemma bind_ok {S A B} (m : M S A) (f : A → M S B) (s s1 : S) a :
  m s = (Ok a, s1) → bind m f s = f a s1.
Proof. intros Hm. unfold bind. by rewrite Hm. Qed.

Lemma try_except_ok {S A} (m : M S A) (h : Exn → M S A) (s s1 : S) a :
  m s = (Ok a, s1) → try_except m h s = (Ok a, s1).
Proof. intros Hm. unfold try_except. by rewrite Hm. Qed.

Lemma get_collection_ok c s :
  ∃ s0,
    get_collection c s = (Ok c, s0) ∧
    heap s0 = heap s ∧
    (∀ c', coll_data s0 c' = coll_data s c') ∧
    is_Some (data s0 !! c) ∧
    clock s0 = clock s ∧
    clock_reads s0 = clock_reads s ∧
    (wf s → wf s0).
Proof.
  unfold get_collection, FallbackStorage_get_collection, bind, gets, modify,
    logger_debug, logger_log, ret. cbn.
  destruct (data s !! c) as [ls|] eqn:Hc.
  - rewrite (bool_decide_eq_true_2 (is_Some (Some ls))) by by eexists.
    cbn. eexists. split; [done|]. cbn. rewrite Hc.
    repeat split; eauto.
  - rewrite (bool_decide_eq_false_2 (is_Some None)) by by intros [? ?].
    cbn. eexists. split; [done|]. cbn. rewrite lookup_insert_eq.
    split; [done|]. split.
    { intros c'. unfold coll_data. cbn. destruct (decide (c = c')) as [<-|Hne].
      - by rewrite lookup_insert_eq, Hc.
      - by rewrite lookup_insert_ne. }
    split; [by eexists|]. split; [done|]. split; [done|].
    intros Hwf. unfold wf. cbn. apply map_Forall_insert_2; [constructor|done].
Qed.

Lemma preferences_data_id uid prefs t :
  preferences_data uid prefs t !! "_id" = Some (VStr ("prefs_" +:+ uid)).
Proof. unfold preferences_data. apply lookup_insert_eq. Qed.

Lemma preferences_data_preferences uid prefs t :
  preferences_data uid prefs t !! "preferences" = Some (VDict prefs).
Proof.
  unfold preferences_data. rewrite !lookup_insert_ne by done.
  apply lookup_insert_eq.
Qed.

Lemma first_match_same s s' c q :
  heap s' = heap s → (∀ c', coll_data s' c' = coll_data s c') →
  first_match (heap s') q (coll_data s' c) = first_match (heap s) q (coll_data s c).
Proof. by intros -> ->. Qed.

Lemma get_user_preferences_spec uid s :
  (get_user_preferences uid s).1
  = Ok (match read_one "user_preferences" {["_id" := VStr ("prefs_" +:+ uid)]} s with
        | Some d => if bool_decide (d = ∅) then VNone else dict_get d "preferences"
        | None => VNone
        end).
Proof.
  destruct (get_collection_ok "user_preferences" s)
    as (s0 & Hg & Hheap & Hcoll & _).
  unfold get_user_preferences, try_except.
  rewrite (bind_ok _ _ _ _ _ Hg).
  unfold bind. rewrite find_one_spec.
  rewrite (first_match_same s s0) by done.
  rewrite read_one_first_match.
  destruct (first_match (heap s) _ (coll_data s "user_preferences")) as [l|];
    [|done].
  cbn. rewrite heap_get_new, Hheap.
  by destruct (bool_decide (heap_get (heap s) l = ∅)).
Qed.

Lemma save_user_preferences_after uid prefs s :
  wf s →
  let q : Doc := {["_id" := VStr ("prefs_" +:+ uid)]} in
  let s1 := leaves (save_user_preferences uid prefs) s in
  (save_user_preferences uid prefs s).1 = Ok true ∧
  wf s1 ∧
  (∃ l, first_match (heap s1) q (coll_data s1 "user_preferences") = Some l ∧
        heap_get (heap s1) l !! "_id" = Some (VStr ("prefs_" +:+ uid)) ∧
        heap_get (heap s1) l !! "user_id" = Some (VStr uid) ∧
        heap_get (heap s1) l !! "preferences" = Some (VDict prefs)) ∧
  length (coll_data s1 "user_preferences")
    = (length (coll_data s "user_preferences")
       + match first_match (heap s) q (coll_data s "user_preferences") with
         | Some _ => 0
         | None => 1
         end)%nat.
Proof.
  intros Hwf q s1.
  destruct (get_collection_ok "user_preferences" s)
    as (s0 & Hg & Hheap & Hcoll & _ & Hclock & Hreads & Hwf0).
  set (t := clock s0 (clock_reads s0)).
  set (s0' := set_clock_reads (S (clock_reads s0)) s0).
  assert (Hwf0' : wf s0') by (by apply (wf_same s0); [| |apply Hwf0]).
  destruct (upsert_by_id "user_preferences" _ (preferences_data uid prefs t) s0'
              Hwf0' (preferences_data_id uid prefs t))
    as (Hok & Hwf' & _ & (l & Hfirst & Hfields) & Hlen & _).
  fold q in Hok, Hwf', Hfirst, Hfields, Hlen.
  set (sU := leaves (update_one "user_preferences" q
                       {["$set" := VDict (preferences_data uid prefs t)]} true) s0') in *.
  assert (Hrun : save_user_preferences uid prefs s
    = (Ok true, set_log (log sU ++ [(DEBUG, "Preferences saved for user: " +:+ uid)]) sU)).
  { unfold save_user_preferences. apply try_except_ok.
    rewrite (bind_ok _ _ _ _ _ Hg).
    unfold bind at 1, now. fold t. fold s0'.
    unfold bind at 1, getitem. rewrite preferences_data_id. unfold ret at 1.
    fold q. unfold bind at 1. unfold sU, leaves.
    destruct (update_one "user_preferences" q _ true s0') as [r sx].
    simpl in Hok. subst r. reflexivity. }
  assert (Hs1 : s1 = set_log (log sU ++ [(DEBUG, "Preferences saved for user: "
                                                  +:+ uid)]) sU).
  { subst s1. unfold leaves at 1. by rewrite Hrun. }
  clearbody s1. subst s1. rewrite Hrun. cbn [fst snd heap set_log].
  change (coll_data (set_log _ sU) "user_preferences")
    with (coll_data sU "user_preferences").
  split; [done|]. split; [done|]. split.
  - exists l. split; [done|].
    split; [|split].
    + apply Hfields; [apply preferences_data_id|done].
    + apply Hfields; [|done]. unfold preferences_data.
      rewrite lookup_insert_ne by done. apply lookup_insert_eq.
    + apply Hfields; [apply preferences_data_preferences|done].
  - rewrite Hlen.
    change (coll_data s0' "user_preferences") with (coll_data s0 "user_preferences").
    change (heap s0') with (heap s0).
    by rewrite (first_match_same s s0), Hcoll.
Qed.

(** X10.  [save_user_preferences] followed by [get_user_preferences]
    for the same user returns the preferences that were saved; a second
    save for that user adds no document; and a user for whom no document
    is stored gets [None].  None of them raises. *)
Theorem preferences_round_trip uid prefs prefs' s :
  wf s →
  let s1 := leaves (save_user_preferences uid prefs) s in
  let s2 := leaves (save_user_preferences uid prefs') s1 in
  (save_user_preferences uid prefs s).1 = Ok true ∧
  (get_user_preferences uid s1).1 = Ok (VDict prefs) ∧
  length (docs s2 "user_preferences") = length (docs s1 "user_preferences") ∧
  (get_user_preferences uid s2).1 = Ok (VDict prefs') ∧
  (read_one "user_preferences" {["_id" := VStr ("prefs_" +:+ uid)]} s = None →
   (get_user_preferences uid s).1 = Ok VNone).
Proof.
  intros Hwf s1 s2.
  destruct (save_user_preferences_after uid prefs s Hwf)
    as (Hok & Hwf1 & (l & Hfirst & Hid & _ & Hprefs) & _).
  fold s1 in Hwf1, Hfirst, Hid, Hprefs.
  destruct (save_user_preferences_after uid prefs' s1 Hwf1)
    as (_ & _ & (l2 & Hfirst2 & Hid2 & _ & Hprefs2) & Hlen2).
  fold s2 in Hfirst2, Hid2, Hprefs2, Hlen2.
  rewrite Hfirst in Hlen2.
  split; [done|]. split; [|split; [|split]].
  - rewrite get_user_preferences_spec, read_one_first_match, Hfirst. simpl.
    rewrite bool_decide_eq_false_2.
    + unfold dict_get. by rewrite Hprefs.
    + intros Hempty. by rewrite Hempty in Hid.
  - unfold docs. rewrite !length_fmap. lia.
  - rewrite get_user_preferences_spec, read_one_first_match, Hfirst2. simpl.
    rewrite bool_decide_eq_false_2.
    + unfold dict_get. by rewrite Hprefs2.
    + intros Hempty. by rewrite Hempty in Hid2.
  - intros Hnone. by rewrite get_user_preferences_spec, Hnone.
Qed.

(** *** The plans of a user *)


Lemma py_eq_VStr v x : py_eq v (VStr x) = true → v = VStr x.
Proof.
  destruct v; simpl; try done. intros H%bool_decide_eq_true. by subst.
Qed.



End MoreStoreProperties.

(** * Further properties of the scheduler *)

Section MoreSchedulerProperties.

Import Scheduler.

Context {W : Type}.
Implicit Types (s : Sched W) (job : Job W) (f : Callable W).

Lemma batch_tasks js s :
  NoDup js →
  (∀ i, i ∈ js → ∃ job, tasks s !! i = Some job ∧ enabled job = true) →
  let s' := foldl (λ s i, after (_run_job i) s) s js in
  clock s' = clock s ∧
  clock_reads s' = (clock_reads s + 2 * length js)%nat ∧
  length (tasks s') = length (tasks s) ∧
  (∀ i, i ∉ js → tasks s' !! i = tasks s !! i) ∧
  (∀ n i job, js !! n = Some i → tasks s !! i = Some job →
     tasks s' !! i
     = Some (stamped (clock s (clock_reads s + 2 * n)%nat)
               (clock s (clock_reads s + 2 * n + 1)%nat) job)).
Proof.
  intros Hnd. revert s. induction Hnd as [|j js Hj Hnd IH]; intros s Hen s'.
  - subst s'. simpl. rewrite Nat.add_0_r.
    split; [done|]. split; [done|]. split; [done|]. split; [done|].
    intros n i job Hn. done.
  - subst s'. cbn [foldl].
    destruct (Hen j) as (jobj & Hjj & Henj); [apply list_elem_of_here|].
    destruct (run_job_after s j) as (_ & _ & Hclock & Hrun).
    rewrite Hjj, Henj in Hrun.
    destruct Hrun as [Htasks Hreads].
    set (s1 := after (_run_job j) s) in *.
    assert (Hen1 : ∀ i, i ∈ js → ∃ job, tasks s1 !! i = Some job ∧ enabled job = true).
    { intros i Hi. destruct (Hen i) as (job & Hjob & Henjob);
        [by apply list_elem_of_further|].
      exists job. split; [|done]. rewrite Htasks.
      rewrite list_lookup_insert_ne; [done|]. by intros ->. }
    destruct (IH s1 Hen1) as (Hc & Hr & Hl & Hout & Hin).
    split; [by rewrite Hc|]. split.
    { rewrite Hr, Hreads. simpl. lia. }
    split; [by rewrite Hl, Htasks, length_insert|]. split.
    + intros i Hi. apply not_elem_of_cons in Hi as [Hne Hi].
      rewrite Hout by done. rewrite Htasks. by rewrite list_lookup_insert_ne.
    + intros n i job Hn Hjob. destruct n as [|n]; simpl in Hn.
      * injection Hn as <-. rewrite Hout by done. rewrite Htasks.
        rewrite list_lookup_insert_eq by (by eapply lookup_lt_Some).
        rewrite Hjj in Hjob. injection Hjob as <-.
        by rewrite !Nat.add_0_r, Nat.add_1_r.
      * assert (Hne : j ≠ i).
        { intros ->. apply Hj. by eapply list_elem_of_lookup_2. }
        rewrite (Hin n i job Hn)
          by (rewrite Htasks; by rewrite list_lookup_insert_ne).
        rewrite Hclock, Hreads.
        replace (S (S (clock_reads s)) + 2 * n)%nat
          with (clock_reads s + 2 * S n)%nat by lia.
        done.
Qed.

Lemma due_from_app t i0 (l1 l2 : list (Job W)) :
  due_from t i0 (l1 ++ l2)
  = due_from t i0 l1 ++ due_from t (i0 + length l1) l2.
Proof.
  revert i0. induction l1 as [|job l1 IH]; intros i0.
  - simpl. by rewrite Nat.add_0_r.
  - cbn [app due_from length]. rewrite IH.
    replace (S i0 + length l1)%nat with (i0 + S (length l1))%nat by lia.
    by destruct (is_due t job).
Qed.

(** The rank of a due job in the batch: the number of due jobs before it
    in the job list. *)
Lemma due_jobs_rank t (ts : list (Job W)) i job :
  ts !! i = Some job →
  is_due t job = true →
  due_jobs t ts !! length (due_jobs t (take i ts)) = Some i.
Proof.
  intros Hi Hd. unfold due_jobs.
  set (before := due_from t 0 (take i ts)).
  rewrite <- (take_drop_middle ts i job Hi).
  rewrite due_from_app. cbn [due_from]. rewrite Hd. fold before.
  rewrite Nat.add_0_l, length_take_le
    by (apply Nat.lt_le_incl; by eapply lookup_lt_Some).
  by apply list_lookup_middle.
Qed.

Lemma scan_tasks s :
  let t := clock s (clock_reads s) in
  let s' := after scan s in
  clock s' = clock s ∧
  length (tasks s') = length (tasks s) ∧
  (∀ i job, tasks s !! i = Some job → is_due t job = false →
            tasks s' !! i = Some job) ∧
  (∀ i job, tasks s !! i = Some job → is_due t job = true →
     let n := length (due_jobs t (take i (tasks s))) in
     tasks s' !! i
     = Some (stamped (clock s (clock_reads s + 1 + 2 * n)%nat)
               (clock s (clock_reads s + 2 + 2 * n)%nat) job)) ∧
  clock_reads s'
    = (clock_reads s + 1 + 2 * length (due_jobs t (tasks s)))%nat.
Proof.
  intros t s'. subst s'.
  destruct (scan_same_jobs s) as (Htasks & _ & _ & Hclock & Hreads).
  rewrite Htasks, Hclock, Hreads. fold t.
  destruct (due_jobs_spec t (tasks s)) as [Hnd Hdue].
  set (s0 := set_clock_reads (S (clock_reads s)) s).
  assert (Hen : ∀ i, i ∈ due_jobs t (tasks s) →
                 ∃ job, tasks s0 !! i = Some job ∧ enabled job = true).
  { intros i (job & Hjob & Hd)%Hdue. exists job. split; [done|].
    unfold is_due in Hd. by apply andb_true_iff in Hd as [-> _]. }
  destruct (batch_tasks (due_jobs t (tasks s)) s0 Hnd Hen)
    as (Hc & Hr & Hl & Hout & Hin).
  split; [done|]. split; [done|]. split; [|split].
  - intros i job Hjob Hd. rewrite Hout; [done|].
    rewrite Hdue. intros (job' & Hjob' & Hd'). congruence.
  - intros i job Hjob Hd n.
    pose proof (due_jobs_rank t (tasks s) i job Hjob Hd) as Hn. fold n in Hn.
    rewrite (Hin n i job Hn Hjob). cbn [clock clock_reads set_clock_reads s0].
    do 3 f_equal; lia.
  - rewrite Hr. cbn [clock_reads set_clock_reads s0]. lia.
Qed.


Lemma scan_same_registration s :
  Forall2 same_registration (tasks s) (tasks (after scan s)).
Proof.
  destruct (scan_tasks s) as (_ & Hlen & Hout & Hin & _).
  apply Forall2_same_length_lookup_2; [done|].
  intros i job job' Hjob Hjob'.
  destruct (is_due (clock s (clock_reads s)) job) eqn:Hd.
  - rewrite (Hin i job Hjob Hd) in Hjob'. injection Hjob' as <-. done.
  - rewrite (Hout i job Hjob Hd) in Hjob'. injection Hjob' as <-. done.
Qed.

(** X13.  The polling loop never adds, removes or reorders a job, and
    never changes the function, the interval, the name or the enabled
    flag of one: after any number of turns the job list has the jobs it
    had, position by position. *)
Theorem loop_keeps_the_registrations turns s :
  let s' := (_scheduler_loop turns s).2 in
  (_scheduler_loop turns s).1 = Ok Scanning ∧
  length (tasks s') = length (tasks s) ∧
  Forall2 same_registration (tasks s) (tasks s').
Proof.
  intros s'. subst s'.
  unfold _scheduler_loop, bind, logger_info, logger_log, modify. cbn [fst snd].
  set (s0 := set_running true _).
  assert (Hs0 : tasks s0 = tasks s) by done.
  assert (Hrun : running s0 = true) by done.
  rewrite <- Hs0. clearbody s0. clear Hs0.
  revert s0 Hrun. induction turns as [|n IH]; intros s0 Hrun.
  - cbn. split; [done|]. split; [done|]. apply registered_refl.
  - rewrite while_running_S, Hrun.
    destruct (scan_settles s0) as [Hok Hkeep].
    pose proof (scan_same_registration s0) as Hsame. unfold after in Hsame.
    destruct (scan s0) as [r s1]. cbn [fst snd] in *. subst r.
    destruct (IH s1) as (Hres & Hlen & Hall); [congruence|].
    split; [done|]. split.
    + rewrite Hlen. symmetry. by eapply Forall2_length.
    + by eapply registered_trans.
Qed.

Lemma monotone_le s a b :
  monotone_clock s → (a ≤ b)%nat → clock s a ≤ clock s b.
Proof.
  intros Hmono Hab. induction Hab as [|b Hab IH]; [lia|].
  specialize (Hmono b). lia.
Qed.

(** X14.  With a clock that never goes back, a scan keeps every job that
    has run scheduled at least one interval after its last run, and a job
    that runs again does so at least one interval after its previous run.
    Registering a job keeps the first property. *)
Theorem scan_keeps_the_pace s :
  monotone_clock s →
  paced s →
  let s' := after scan s in
  paced s' ∧
  monotone_clock s' ∧
  (∀ i job job' t t',
     tasks s !! i = Some job →
     is_due (clock s (clock_reads s)) job = true →
     last_run job = Some t →
     tasks s' !! i = Some job' →
     last_run job' = Some t' →
     t + interval job ≤ t') ∧
  (∀ func seconds id, paced (after (add_job func seconds id) s)).
Proof.
  intros Hmono Hpaced s'.
  destruct (scan_tasks s) as (Hclock & Hlen & Hout & Hin & _).
  fold s' in Hclock, Hlen, Hout, Hin.
  split; [|split; [|split]].
  - intros i job' t' Hjob' Hlast.
    assert (Hi : (i < length (tasks s))%nat)
      by (rewrite <- Hlen; by eapply lookup_lt_Some).
    destruct (lookup_lt_is_Some_2 _ _ Hi) as [job Hjob].
    destruct (is_due (clock s (clock_reads s)) job) eqn:Hd.
    + rewrite (Hin i job Hjob Hd) in Hjob'.
      injection Hjob' as <-. unfold stamped in *.
      cbn [last_run next_run interval] in *. injection Hlast as <-.
      match goal with
      | |- clock s ?a + _ <= clock s ?b + _ =>
          pose proof (monotone_le s a b Hmono ltac:(lia))
      end. lia.
    + rewrite (Hout i job Hjob Hd) in Hjob'. injection Hjob' as <-.
      by eapply Hpaced.
  - intros n. rewrite Hclock. apply Hmono.
  - intros i job job' t t' Hjob Hd Hlast Hjob' Hlast'.
    rewrite (Hin i job Hjob Hd) in Hjob'.
    injection Hjob' as <-. unfold stamped in Hlast'.
    cbn [last_run] in Hlast'. injection Hlast' as <-.
    pose proof (Hpaced i job t Hjob Hlast) as Hp.
    unfold is_due in Hd. apply andb_true_iff in Hd as [_ Hd%bool_decide_eq_true].
    match goal with
    | |- _ <= clock s ?b =>
        pose proof (monotone_le s (clock_reads s) b Hmono ltac:(lia))
    end. lia.
  - intros func seconds id i job t Hjob Hlast.
    unfold after, add_job, bind, gets, time_time, modify, logger_info,
      logger_log in Hjob. cbn in Hjob.
    apply lookup_app_Some in Hjob as [Hjob|[_ Hjob]]; [by eapply Hpaced|].
    apply list_lookup_singleton_Some in Hjob as [_ <-]. done.
Qed.

End MoreSchedulerProperties.

(** * Properties of the weather station, the weather condition and the
    monitor *)

Section StationProperties.

Import Station.

Context {W : Type}.
Implicit Types (s : WeatherStation W) (o : Observer W).

Lemma is_in_elem o os :
  is_in o os = true ↔ obs_id o ∈ obs_id <$> os.
Proof.
  unfold is_in. rewrite existsb_exists, list_elem_of_fmap. split.
  - intros (o' & Hin & Hid%bool_decide_eq_true). exists o'.
    split; [done|]. by apply list_elem_of_In.
  - intros (o' & Hid & Hin). exists o'. split; [by apply list_elem_of_In|].
    by apply bool_decide_eq_true.
Qed.

Lemma is_in_app o os o' :
  is_in o (os ++ [o']) = is_in o os || bool_decide (obs_id o' = obs_id o).
Proof. unfold is_in. rewrite existsb_app. simpl. by rewrite orb_false_r. Qed.

(** X15.  [attach] registers an observer once: the observer is attached
    afterwards, attaching an observer that is attached changes nothing
    (no second entry, no log line), and a station on which no observer
    occurs twice stays so. *)
Theorem attach_registers_once o s :
  let s1 := (attach o s).2 in
  (attach o s).1 = Ok tt ∧
  is_in o (_observers s1) = true ∧
  attach o s1 = (Ok tt, s1) ∧
  (is_in o (_observers s) = true → s1 = s) ∧
  (distinct_observers s → distinct_observers s1).
Proof.
  intros s1. subst s1.
  destruct (is_in o (_observers s)) eqn:Hin.
  - assert (Hs : attach o s = (Ok tt, s)).
    { unfold attach, bind, gets. cbn [fst snd]. by rewrite Hin. }
    rewrite Hs. cbn [fst snd]. done.
  - set (s1 := set_log (log s ++ [(INFO, "Observer attached: " +:+ obs_class o)])
                 (set_observers (_observers s ++ [o]) s)).
    assert (Hs : attach o s = (Ok tt, s1)).
    { unfold attach, bind, gets. cbn [fst snd]. by rewrite Hin. }
    assert (Hin1 : is_in o (_observers s1) = true).
    { unfold s1. cbn [_observers set_log set_observers].
      rewrite is_in_app, bool_decide_eq_true_2 by done. apply orb_true_r. }
    rewrite Hs. cbn [fst snd].
    split; [done|]. split; [done|]. split.
    { unfold attach, bind, gets. cbn [fst snd]. by rewrite Hin1. }
    split; [done|].
    unfold distinct_observers, s1. cbn [_observers set_log set_observers].
    intros Hnd. rewrite fmap_app. apply NoDup_app. split; [done|]. split.
    + intros x Hx ->%list_elem_of_singleton.
      apply is_in_elem in Hx. congruence.
    + apply NoDup_singleton.
Qed.

Lemma remove_first_None o os :
  is_in o os = false → remove_first o os = None.
Proof.
  induction os as [|o' os IH]; [done|]. simpl.
  destruct (bool_decide (obs_id o' = obs_id o)); [done|]. simpl.
  intros H. by rewrite IH.
Qed.

Lemma remove_first_app o os :
  is_in o os = false → remove_first o (os ++ [o]) = Some os.
Proof.
  induction os as [|o' os IH]; simpl.
  - by rewrite bool_decide_eq_true_2.
  - destruct (bool_decide (obs_id o' = obs_id o)); [done|]. simpl.
    intros H. by rewrite IH.
Qed.

(** X16.  [detach] of an observer that is not attached raises
    [ValueError] and leaves the station as it was; [detach] after
    [attach] of such an observer gives back the list of observers. *)
Theorem detach_needs_an_attached_observer o s :
  is_in o (_observers s) = false →
  detach o s = (Raise (Exception "ValueError: list.remove(x): x not in list"), s) ∧
  ((attach o ;;; detach o) s).1 = Ok tt ∧
  _observers ((attach o ;;; detach o) s).2 = _observers s.
Proof.
  intros Hin. split.
  - unfold detach, bind, gets. cbn. by rewrite remove_first_None.
  - unfold attach, detach, bind, gets, modify, logger_info, ret. cbn.
    rewrite Hin. cbn. by rewrite remove_first_app.
Qed.

Lemma notify_loop_returns os wd s :
  (∀ o w, o ∈ os → (update o wd w).1 = Ok tt) →
  notify_loop os wd s
  = (Ok tt, set_world (foldl (λ w o, (update o wd w).2) (world s) os) s).
Proof.
  revert s. induction os as [|o os IH]; intros s Hret.
  - cbn. unfold ret, set_world. by destruct s.
  - cbn [notify_loop foldl]. unfold bind, call_update.
    pose proof (Hret o (world s) (list_elem_of_here _ _)) as Ho.
    destruct (update o wd (world s)) as [r w]. cbn in Ho. subst r.
    rewrite IH by (intros o' w' Ho'; apply Hret; by apply list_elem_of_further).
    done.
Qed.

Lemma notify_loop_keeps os wd s :
  _observers (notify_loop os wd s).2 = _observers s ∧
  _current_weather (notify_loop os wd s).2 = _current_weather s ∧
  _current_city (notify_loop os wd s).2 = _current_city s ∧
  log (notify_loop os wd s).2 = log s.
Proof.
  revert s. induction os as [|o os IH]; intros s; [done|].
  cbn [notify_loop]. unfold bind, call_update.
  destruct (update o wd (world s)) as [[[]|e] w]; [|done].
  destruct (IH (set_world w s)) as (-> & -> & -> & ->). done.
Qed.

(** X17.  [set_weather] records the weather and the city in every case.
    When the weather equals the one recorded before, no observer is
    called and nothing is logged.  When it differs and the observers
    return, each is called once with the new weather, in the order of
    attachment.  A second call with the same weather calls no observer,
    even when the first call was stopped by an observer that raised. *)
Theorem set_weather_notifies_on_change wd city s :
  let s1 := (set_weather wd city s).2 in
  get_current_weather s1 = (Some wd, Some city) ∧
  (differs (_current_weather s) wd = false →
   set_weather wd city s = (Ok tt, set_current (Some wd) (Some city) s)) ∧
  (differs (_current_weather s) wd = true →
   observers_return s wd →
   (set_weather wd city s).1 = Ok tt ∧
   world s1 = foldl (λ w o, (update o wd w).2) (world s) (_observers s)) ∧
  set_weather wd city s1 = (Ok tt, s1).
Proof.
  intros s1. subst s1.
  unfold set_weather, bind, gets, modify, logger_info, notify, ret. cbn.
  destruct (differs (_current_weather s) wd) eqn:Hd; cbn.
  - set (s0 := set_log _ (set_current (Some wd) (Some city) s)).
    destruct (notify_loop_keeps (_observers s) wd s0) as (Ho & Hw & Hc & Hl).
    assert (Hsame : py_ne (VDict wd) (VDict wd) = false)
      by (unfold py_ne; by rewrite py_eq_refl).
    split; [|split; [done|split]].
    + unfold get_current_weather. by rewrite Hw, Hc.
    + intros _ Hret.
      rewrite (notify_loop_returns (_observers s) wd s0) by exact Hret. done.
    + rewrite Hw. cbn. rewrite Hsame.
      destruct (notify_loop (_observers s) wd s0) as [r [os cw cc lg w]].
      cbn in *. by subst.
  - split; [done|]. split; [done|]. split; [done|].
    unfold py_ne. by rewrite py_eq_refl.
Qed.

End StationProperties.

Section ConditionProperties.

Import Weather.

(** X18.  [map_weather_condition] sends the identifier of the first
    weather entry to Rainy on 200..599, Snowy on 600..699, Sunny on 800
    and Cloudy on every other integer; the fallback defined in the
    scheduler module returns the value of the same condition, and raises
    what it raises on data without such an identifier. *)
Theorem fallback_condition_agrees weather_data :
  simple_map_weather_condition weather_data
  = match map_weather_condition weather_data with
    | Ok c => Ok (value c)
    | Raise e => Raise e
    end ∧
  ∀ n, weather_id weather_data = Ok (VInt n) →
    (map_weather_condition weather_data = Ok RAINY ↔ 200 ≤ n < 600) ∧
    (map_weather_condition weather_data = Ok SNOWY ↔ 600 ≤ n < 700) ∧
    (map_weather_condition weather_data = Ok SUNNY ↔ n = 800) ∧
    (map_weather_condition weather_data = Ok CLOUDY ↔
     n < 200 ∨ 700 ≤ n < 800 ∨ 800 < n).
Proof.
  unfold simple_map_weather_condition, map_weather_condition. split.
  - destruct (weather_id weather_data) as [wid|e]; [|done].
    destruct (as_number wid) as [n|e]; [|done].
    repeat case_bool_decide; done.
  - intros n ->. simpl.
    repeat case_bool_decide; simpl;
      (repeat split; try (intros [= ]); try done; try lia).
Qed.

End ConditionProperties.

Section MonitorProperties.

Import Monitor.

Lemma Qfloor_unique (x : Q) (z : Z) :
  (inject_Z z <= x)%Q → (x < inject_Z (z + 1))%Q → Qfloor x = z.
Proof.
  intros Hle Hlt.
  pose proof (Qfloor_le x) as H1. pose proof (Qlt_floor x) as H2.
  assert (z < Qfloor x + 1).
  { rewrite Zlt_Qlt. eapply Qle_lt_trans; [exact Hle|exact H2]. }
  assert (Qfloor x < z + 1).
  { rewrite Zlt_Qlt. eapply Qle_lt_trans; [exact H1|exact Hlt]. }
  lia.
Qed.

Lemma Qfloor_div (x : Q) (k : Z) :
  0 < k → Qfloor (x / inject_Z k) = Qfloor x / k.
Proof.
  intros Hk.
  pose proof (Qfloor_le x) as H1. pose proof (Qlt_floor x) as H2.
  set (n := Qfloor x) in *.
  pose proof (Z.div_mod n k ltac:(lia)) as Hdm.
  pose proof (Z.mod_pos_bound n k Hk) as Hb.
  assert (Hk' : (0 < inject_Z k)%Q)
    by (change (inject_Z 0 < inject_Z k)%Q; by rewrite <- Zlt_Qlt).
  apply Qfloor_unique.
  - apply Qle_shift_div_l; [done|]. rewrite <- inject_Z_mult.
    eapply Qle_trans; [|exact H1]. rewrite <- Zle_Qle. lia.
  - apply Qlt_shift_div_r; [done|]. rewrite <- inject_Z_mult.
    eapply Qlt_le_trans; [exact H2|]. rewrite <- Zle_Qle. lia.
Qed.

Lemma Qfloor_minus (x : Q) (z : Z) :
  Qfloor (x - inject_Z z) = Qfloor x - z.
Proof.
  pose proof (Qfloor_le x) as H1. pose proof (Qlt_floor x) as H2.
  apply Qfloor_unique.
  - unfold Z.sub. rewrite inject_Z_plus, inject_Z_opp. lra.
  - replace (Qfloor x - z + 1) with ((Qfloor x + 1) + - z) by lia.
    rewrite inject_Z_plus, inject_Z_opp. lra.
Qed.

Lemma int_whole z : int (inject_Z z) = z.
Proof. unfold int. destruct (Qle_bool 0 _); [apply Qfloor_Z|apply Qceiling_Z]. Qed.

Lemma int_floor x : (0 <= x)%Q → int x = Qfloor x.
Proof. intros H%Qle_bool_iff. unfold int. by rewrite H. Qed.

Lemma modulo_floor (x : Q) (k : Z) :
  0 < k →
  (0 <= modulo x (inject_Z k))%Q ∧
  Qfloor (modulo x (inject_Z k)) = Qfloor x mod k.
Proof.
  intros Hk. unfold modulo, floordiv. rewrite Qfloor_div by done.
  pose proof (Qfloor_le x) as H1.
  pose proof (Z.div_mod (Qfloor x) k ltac:(lia)) as Hdm.
  pose proof (Z.mod_pos_bound (Qfloor x) k Hk) as Hb.
  assert (Heq : (x - inject_Z k * inject_Z (Qfloor x / k)
                 == x - inject_Z (k * (Qfloor x / k)))%Q)
    by (rewrite inject_Z_mult; reflexivity).
  split.
  - rewrite Heq.
    assert (inject_Z (k * (Qfloor x / k)) <= inject_Z (Qfloor x))%Q
      by (rewrite <- Zle_Qle; lia).
    lra.
  - rewrite (Qfloor_comp _ _ Heq), Qfloor_minus. lia.
Qed.

(** X19.  When the clock is not behind the start, the hours, minutes
    and seconds that [get_system_info] reports add up to the whole
    seconds of the uptime: the uptime exceeds them by less than one
    second.  Hours are not negative, minutes and seconds lie between 0
    and 59, and the uptime in seconds and the counters reported are those
    of the monitor. *)
Theorem uptime_splits_exactly now timestamp platform python_version m :
  (0 <= now - start_time m)%Q →
  let elapsed := (now - start_time m)%Q in
  let info := get_system_info now timestamp platform python_version m in
  let '(hours, minutes, seconds) := uptime_parts elapsed in
  hours * 3600 + minutes * 60 + seconds = Qfloor elapsed ∧
  (inject_Z (hours * 3600 + minutes * 60 + seconds) <= elapsed)%Q ∧
  (elapsed < inject_Z (hours * 3600 + minutes * 60 + seconds) + 1)%Q ∧
  0 ≤ hours ∧
  0 ≤ minutes < 60 ∧
  0 ≤ seconds < 60 ∧
  uptime info
    = pretty hours +:+ "h " +:+ pretty minutes +:+ "m " +:+ pretty seconds +:+ "s" ∧
  uptime_seconds info = elapsed ∧
  requests_processed info = request_count m ∧
  errors_occurred info = error_count m.
Proof.
  intros Hpos elapsed info. subst info. unfold get_system_info. fold elapsed.
  unfold uptime_parts.
  change 3600%Q with (inject_Z 3600). change 60%Q with (inject_Z 60).
  destruct (modulo_floor elapsed 3600 ltac:(lia)) as [Hh0 Hh].
  destruct (modulo_floor elapsed 60 ltac:(lia)) as [Hs0 Hs].
  assert (H1 : int (floordiv elapsed (inject_Z 3600)) = Qfloor elapsed / 3600).
  { unfold floordiv. rewrite int_whole. by apply Qfloor_div. }
  assert (H2 : int (floordiv (modulo elapsed (inject_Z 3600)) (inject_Z 60))
               = (Qfloor elapsed mod 3600) / 60).
  { unfold floordiv at 1. rewrite int_whole, Qfloor_div by done. by rewrite Hh. }
  assert (H3 : int (modulo elapsed (inject_Z 60)) = Qfloor elapsed mod 60).
  { rewrite int_floor by done. exact Hs. }
  rewrite H1, H2, H3. cbn [uptime uptime_seconds requests_processed errors_occurred].
  set (n := Qfloor elapsed).
  assert (Hn : 0 ≤ n).
  { change 0 with (Qfloor (inject_Z 0)). by apply Qfloor_resp_le. }
  pose proof (Z.div_mod n 3600 ltac:(lia)) as D1.
  pose proof (Z.mod_pos_bound n 3600 ltac:(lia)) as D2.
  pose proof (Z.div_mod (n mod 3600) 60 ltac:(lia)) as D3.
  pose proof (Z.mod_pos_bound (n mod 3600) 60 ltac:(lia)) as D4.
  pose proof (Z.mod_pos_bound n 60 ltac:(lia)) as D5.
  assert (D6 : n mod 60 = (n mod 3600) mod 60).
  { symmetry. apply Z.mod_mod_divide. by exists 60. }
  assert (Hsum : n / 3600 * 3600 + n mod 3600 / 60 * 60 + n mod 60 = n) by lia.
  split; [done|]. rewrite Hsum. split; [apply Qfloor_le|]. split.
  { pose proof (Qlt_floor elapsed) as Hlt. fold n in Hlt.
    rewrite inject_Z_plus in Hlt. exact Hlt. }
  split; [apply Z.div_pos; lia|]. split.
  { split; [apply Z.div_pos; lia|]. apply Z.div_lt_upper_bound; lia. }
  split; [lia|]. done.
Qed.

End MonitorProperties.

(** * Properties of the planner's strategies *)

Section PlannerProperties.

Import Planner.

Lemma filter_loop_spec activities preferences filtered :
  filter_loop activities preferences filtered
  = filtered ++ List.filter (admitted preferences) activities.
Proof.
  revert filtered. induction activities as [|a rest IH]; intros filtered.
  - simpl. by rewrite app_nil_r.
  - cbn [filter_loop List.filter].
    assert (E : admitted preferences a
                = negb (type_in (type a) (avoid_types preferences)) &&
                  (negb (truthy (preferred_types preferences))
                   || type_in (type a) (preferred_types preferences))) by done.
    destruct (type_in (type a) (avoid_types preferences));
      destruct (truthy (preferred_types preferences));
      destruct (type_in (type a) (preferred_types preferences));
      cbn in E; rewrite E; cbn [andb negb]; rewrite IH, <- ?app_assoc; done.
Qed.

Lemma base_filter_loop_spec activities preferences filtered :
  base_filter_loop activities preferences filtered
  = filtered ++ List.filter (admitted preferences) activities.
Proof.
  revert filtered. induction activities as [|a rest IH]; intros filtered.
  - simpl. by rewrite app_nil_r.
  - cbn [base_filter_loop List.filter].
    assert (E : admitted preferences a
                = negb (type_in (type a) (avoid_types preferences)) &&
                  (negb (truthy (preferred_types preferences))
                   || type_in (type a) (preferred_types preferences))) by done.
    destruct (type_in (type a) (avoid_types preferences));
      destruct (truthy (preferred_types preferences));
      destruct (type_in (type a) (preferred_types preferences));
      cbn in E; rewrite E; cbn [andb negb]; rewrite IH, <- ?app_assoc; done.
Qed.

Lemma filter_activities_spec activities preferences :
  _filter_activities activities preferences
  = take 4 (List.filter (admitted preferences) activities).
Proof. unfold _filter_activities. by rewrite filter_loop_spec. Qed.

Lemma filter_sublist {A} (f : A → bool) (l : list A) : sublist (List.filter f l) l.
Proof.
  induction l as [|x l IH]; simpl; [constructor|].
  destruct (f x); by constructor.
Qed.

Lemma admitted_spec preferences a :
  admitted preferences a = true ↔
  (type a ∉ avoid_types preferences) ∧
  (preferred_types preferences = [] ∨ type a ∈ preferred_types preferences).
Proof.
  unfold admitted, type_in.
  rewrite andb_true_iff, negb_true_iff, orb_true_iff, negb_true_iff.
  rewrite bool_decide_eq_false, bool_decide_eq_true.
  destruct (preferred_types preferences); simpl; naive_solver.
Qed.

(** X20.  [_filter_activities] keeps the activities that the preferences
    admit, in the order given, and returns the first four of them: it
    returns at most four activities, none of an avoided type (also when
    the type is preferred as well), only preferred types when some are
    preferred, and it leaves out an admitted activity only when four
    came before it; the priority plays no part.  The method that each
    strategy defines and the one of the base class agree. *)
Theorem filter_activities_respects_preferences activities preferences :
  let chosen := _filter_activities activities preferences in
  chosen = take 4 (List.filter (admitted preferences) activities) ∧
  (length chosen ≤ 4)%nat ∧
  sublist chosen activities ∧
  (∀ a, a ∈ chosen →
        (type a ∉ avoid_types preferences) ∧
        (preferred_types preferences = [] ∨ type a ∈ preferred_types preferences)) ∧
  ((length chosen < 4)%nat →
   ∀ a, a ∈ activities → admitted preferences a = true → a ∈ chosen) ∧
  base_filter_activities activities preferences = chosen.
Proof.
  intros chosen. subst chosen. rewrite filter_activities_spec.
  split; [done|]. split.
  { rewrite length_take. lia. }
  split.
  { etrans; [apply sublist_take|apply filter_sublist]. }
  split.
  { intros a Ha. apply admitted_spec.
    apply (λ H, elem_of_sublist _ _ _ H (sublist_take _ 4)) in Ha.
    apply list_elem_of_In, filter_In in Ha. apply Ha. }
  split.
  { intros Hlen a Ha Hadm. rewrite take_ge.
    - apply list_elem_of_In, filter_In. split; [by apply list_elem_of_In|done].
    - rewrite length_take in Hlen. lia. }
  unfold base_filter_activities. by rewrite base_filter_loop_spec.
Qed.

(** X21.  [generate_plan] always has a strategy: the one of the
    condition when the condition is the value of a member of
    [WeatherCondition], and the cloudy one for every other condition,
    a missing one included.  The activities of the plan are at most four
    activities of that strategy, in its order, with priorities between 1
    and 5; with the preferences of a new planner they are its first
    four. *)
Theorem plan_follows_the_condition weather_data preferences :
  let condition := dict_get weather_data "condition" in
  let strategy := strategy_for weather_data in
  let chosen := planned_activities weather_data preferences in
  (condition = VStr "Sunny" → strategy = SunnyWeatherStrategy) ∧
  (condition = VStr "Rainy" → strategy = RainyWeatherStrategy) ∧
  (condition = VStr "Snowy" → strategy = SnowyWeatherStrategy) ∧
  (condition ≠ VStr "Sunny" → condition ≠ VStr "Rainy" → condition ≠ VStr "Snowy" →
   strategy = CloudyWeatherStrategy) ∧
  sublist chosen (activities_of strategy) ∧
  (length chosen ≤ 4)%nat ∧
  Forall (λ a, 1 ≤ priority a ≤ 5) chosen ∧
  planned_activities weather_data default_preferences
    = take 4 (activities_of strategy).
Proof.
  intros condition strategy chosen.
  assert (Hsub : sublist chosen (activities_of strategy)).
  { unfold chosen, planned_activities, get_activities.
    rewrite filter_activities_spec.
    etrans; [apply sublist_take|apply filter_sublist]. }
  assert (Hprio : ∀ st, Forall (λ a, 1 ≤ priority a ≤ 5) (activities_of st)).
  { intros []; repeat constructor; simpl; lia. }
  assert (Hstr : ∀ x, condition = VStr x →
                      ∀ y, py_eq condition (VStr y) = bool_decide (x = y)).
  { by intros x -> y. }
  split.
  { intros H. unfold strategy, strategy_for. fold condition. by rewrite (Hstr _ H). }
  split.
  { intros H. unfold strategy, strategy_for. fold condition. by rewrite !(Hstr _ H). }
  split.
  { intros H. unfold strategy, strategy_for. fold condition. by rewrite !(Hstr _ H). }
  split.
  { intros H1 H2 H3. unfold strategy, strategy_for. fold condition.
    destruct (py_eq condition (VStr (Weather.value Weather.SUNNY))) eqn:E1.
    { by apply py_eq_VStr in E1. }
    destruct (py_eq condition (VStr (Weather.value Weather.RAINY))) eqn:E2.
    { by apply py_eq_VStr in E2. }
    destruct (py_eq condition (VStr (Weather.value Weather.CLOUDY))); [done|].
    destruct (py_eq condition (VStr (Weather.value Weather.SNOWY))) eqn:E4; [|done].
    by apply py_eq_VStr in E4. }
  split; [exact Hsub|]. split.
  { unfold chosen, planned_activities, get_activities, _filter_activities.
    rewrite length_take. lia. }
  split.
  { apply Forall_forall. intros a Ha.
    apply (λ H, elem_of_sublist _ _ _ H Hsub) in Ha.
    revert a Ha. apply Forall_forall, Hprio. }
  unfold planned_activities, get_activities. fold strategy.
  by destruct strategy.
Qed.

End PlannerProperties.

(** * The further properties on concrete states *)

Lemma plan_store_wf : wf plan_store.
Proof. apply map_Forall_empty. Qed.

Lemma starting_on_wf f : wf (starting_on f).
Proof. apply map_Forall_empty. Qed.

Lemma find_one_reads_the_first_match_witness :
  read_one "c" a_is_1 one_doc_store
    = List.find (Mongodb.doc_matches a_is_1) (docs one_doc_store "c") ∧
  ((Mongodb.find_one "c" a_is_1 one_doc_store).1 = Ok None ↔
   Forall (λ d, Mongodb.doc_matches a_is_1 d = false) (docs one_doc_store "c")) ∧
  (∀ c', docs (leaves (Mongodb.find_one "c" a_is_1) one_doc_store) c'
         = docs one_doc_store c').
Proof.
  exact (find_one_reads_the_first_match "c" a_is_1 one_doc_store one_doc_store_wf).
Defined.

Lemma find_returns_copies_of_the_matches_witness :
  ∃ rs,
    (Mongodb.find "c" (Some a_is_1) one_doc_store).1 = Ok rs ∧
    read_all rs (leaves (Mongodb.find "c" (Some a_is_1)) one_doc_store)
      = List.filter (Mongodb.doc_matches a_is_1) (docs one_doc_store "c") ∧
    Forall (λ r, (length (Mongodb.heap one_doc_store) ≤ r)%nat) rs ∧
    NoDup rs ∧
    (∀ c', docs (leaves (Mongodb.find "c" (Some a_is_1)) one_doc_store) c'
           = docs one_doc_store c').
Proof.
  exact (find_returns_copies_of_the_matches "c" a_is_1 one_doc_store
           one_doc_store_wf).
Defined.

Lemma results_are_copies_witness :
  (∀ c', docs (leaves (Mongodb.find_one "c" a_is_1 ;;; Mongodb.setitem 1 "a" (VInt 2))
                 one_doc_store) c'
         = docs one_doc_store c') ∧
  (∀ c', docs (leaves (Mongodb.find "c" (Some a_is_1) ;;; Mongodb.setitem 1 "a" (VInt 2))
                 one_doc_store) c'
         = docs one_doc_store c').
Proof.
  destruct (results_are_copies "c" a_is_1 one_doc_store 1 "a" (VInt 2)
              one_doc_store_wf) as [Hone Hall].
  split.
  - apply Hone. vm_compute. reflexivity.
  - apply (Hall [1%nat]).
    + vm_compute. reflexivity.
    + apply list_elem_of_here.
Defined.

Lemma update_one_changes_the_first_match_witness :
  docs (leaves (Mongodb.update_one "c" a_is_1 set_value false) one_doc_store) "c"
    = [<["updated_at" := VStr (Mongodb.isoformat 10)]>
         (dict_update a_is_1 value_fields)] ∧
  Mongodb.writes (leaves (Mongodb.update_one "c" a_is_1 set_value false) one_doc_store)
    = 1%nat.
Proof.
  assert (Hunshared : unshared one_doc_store "c").
  { unfold unshared. vm_compute. apply NoDup_singleton. }
  assert (Hat : docs one_doc_store "c" !! 0%nat = Some a_is_1)
    by (vm_compute; reflexivity).
  assert (Hmatch : Mongodb.doc_matches a_is_1 a_is_1 = true) by (vm_compute; reflexivity).
  assert (Hfirst : ∀ j d', (j < 0)%nat → docs one_doc_store "c" !! j = Some d' →
                           Mongodb.doc_matches a_is_1 d' = false) by (intros; lia).
  assert (Hfields : (Mongodb.update_fields set_value one_doc_store).1 = Ok value_fields)
    by (vm_compute; reflexivity).
  destruct (update_one_changes_the_first_match "c" a_is_1 set_value false
              value_fields one_doc_store 0 a_is_1 one_doc_store_wf Hunshared Hat
              Hmatch Hfirst Hfields) as (_ & Hdocs & _ & Hwrites).
  split; [exact Hdocs | exact Hwrites].
Defined.

Lemma restart_restores_documents_witness :
  let s0 := starting_on (Mongodb.file (leaves Mongodb._save_data one_doc_store)) in
  let s2 := leaves (Mongodb.FallbackStorage_init None) s0 in
  docs s2 "c" = docs one_doc_store "c" ∧
  read_one "c" a_is_1 s2 = read_one "c" a_is_1 one_doc_store ∧
  wf s2.
Proof.
  intros s0 s2.
  destruct (restart_restores_documents one_doc_store s0 eq_refl eq_refl)
    as (_ & _ & _ & Hdocs & Hread & Hwf).
  split; [apply Hdocs|]. split; [apply Hread | exact Hwf].
Defined.


Lemma save_plan_then_get_plan_witness :
  let pd := Mongodb.heap_get (Mongodb.heap plan_store) 0 in
  let s1 := leaves (Mongodb.save_plan 0) plan_store in
  let s2 := leaves (Mongodb.get_plan (plan_id pd)) s1 in
  (Mongodb.save_plan 0 plan_store).1 = Ok true ∧
  ∃ r, (Mongodb.get_plan (plan_id pd) s1).1 = Ok (Some r) ∧
       Mongodb.heap_get (Mongodb.heap s2) r !! "_id" = Some (plan_id pd) ∧
       ∀ k v, pd !! k = Some v → k ≠ "updated_at" →
              Mongodb.heap_get (Mongodb.heap s2) r !! k = Some v.
Proof.
  apply (save_plan_then_get_plan 0 plan_store plan_store_wf). simpl. lia.
Defined.

Lemma save_plan_adds_at_most_one_document_witness :
  let s1 := leaves (Mongodb.save_plan 0) plan_store in
  let s2 := leaves (Mongodb.save_plan 0) s1 in
  length (docs s1 "plans") = 1%nat ∧ length (docs s2 "plans") = 1%nat.
Proof.
  intros s1 s2.
  assert (Hlt : (0 < length (Mongodb.heap plan_store))%nat) by (simpl; lia).
  assert (Hnew : 0%nat ∉ Mongodb.coll_data plan_store "plans").
  { vm_compute. apply not_elem_of_nil. }
  destruct (save_plan_adds_at_most_one_document 0 plan_store plan_store_wf Hlt Hnew)
    as [H1 H2].
  fold s1 in H1, H2. fold s2 in H2. split.
  - rewrite H1. vm_compute. reflexivity.
  - rewrite H2, H1. vm_compute. reflexivity.
Defined.

Lemma preferences_round_trip_witness :
  let s1 := leaves (Mongodb.save_user_preferences "u" a_is_1) (fresh_store good_disk) in
  let s2 := leaves (Mongodb.save_user_preferences "u" a_becomes_2) s1 in
  (Mongodb.get_user_preferences "u" s1).1 = Ok (VDict a_is_1) ∧
  length (docs s2 "user_preferences") = length (docs s1 "user_preferences") ∧
  (Mongodb.get_user_preferences "u" s2).1 = Ok (VDict a_becomes_2) ∧
  (Mongodb.get_user_preferences "u" (fresh_store good_disk)).1 = Ok VNone.
Proof.
  intros s1 s2.
  destruct (preferences_round_trip "u" a_is_1 a_becomes_2 (fresh_store good_disk)
              (fresh_store_wf good_disk)) as (_ & Hget & Hlen & Hget' & Hnone).
  split; [exact Hget|]. split; [exact Hlen|]. split; [exact Hget'|].
  apply Hnone. vm_compute. reflexivity.
Defined.



Lemma ticking_monotone n : ticking n ≤ ticking (S n).
Proof. unfold ticking. lia. Qed.

Lemma job_that_ran_paced : paced job_that_ran.
Proof.
  intros i job t Hjob Hlast. destruct i as [|i]; [|done].
  injection Hjob as <-. simpl in *. injection Hlast as <-. lia.
Qed.

Lemma scan_keeps_the_pace_witness :
  paced (after Scheduler.scan job_that_ran) ∧
  monotone_clock (after Scheduler.scan job_that_ran).
Proof.
  destruct (scan_keeps_the_pace job_that_ran ticking_monotone job_that_ran_paced)
    as (Hpaced & Hmono & _).
  split; [exact Hpaced | exact Hmono].
Defined.

Lemma attach_registers_once_witness :
  let s1 := (Station.attach recorder new_station).2 in
  Station.attach recorder s1 = (Ok tt, s1) ∧ distinct_observers s1.
Proof.
  intros s1.
  destruct (attach_registers_once recorder new_station) as (_ & _ & Hagain & _ & Hnd).
  split; [exact Hagain|]. apply Hnd. apply NoDup_nil_2.
Defined.

Lemma detach_needs_an_attached_observer_witness :
  Station.detach recorder new_station
    = (Raise (Exception "ValueError: list.remove(x): x not in list"), new_station) ∧
  ((Station.attach recorder ;;; Station.detach recorder) new_station).1 = Ok tt ∧
  Station._observers ((Station.attach recorder ;;; Station.detach recorder) new_station).2
    = Station._observers new_station.
Proof.
  apply (detach_needs_an_attached_observer recorder new_station). reflexivity.
Defined.

Lemma set_weather_notifies_on_change_witness :
  let s := (Station.attach recorder new_station).2 in
  let s1 := (Station.set_weather rainy_weather "Kyiv" s).2 in
  Station.world s1 = ["Rainy"] ∧
  Station.set_weather rainy_weather "Kyiv" s1 = (Ok tt, s1).
Proof.
  intros s s1.
  destruct (set_weather_notifies_on_change rainy_weather "Kyiv" s)
    as (_ & _ & Hchange & Hagain).
  split; [|exact Hagain].
  destruct Hchange as [_ Hworld]; [reflexivity| |exact Hworld].
  intros o w Ho. apply list_elem_of_singleton in Ho. subst o. reflexivity.
Defined.

Lemma fallback_condition_agrees_witness :
  Weather.map_weather_condition light_rain = Ok Weather.RAINY ∧
  Weather.simple_map_weather_condition light_rain = Ok "Rainy".
Proof.
  destruct (fallback_condition_agrees light_rain) as [Hfallback Hclass].
  destruct (Hclass 500 eq_refl) as ((_ & Hrainy) & _).
  assert (Hr : Weather.map_weather_condition light_rain = Ok Weather.RAINY)
    by (apply Hrainy; lia).
  split; [exact Hr|]. rewrite Hfallback, Hr. reflexivity.
Defined.

Lemma filter_activities_respects_preferences_witness :
  let chosen :=
    Planner._filter_activities (Planner.activities_of Planner.RainyWeatherStrategy)
      sporty in
  (∀ a, a ∈ chosen → Planner.type a = Planner.SPORT) ∧
  Planner.mkActivity "Gym Workout" Planner.SPORT 3 (Some "Indoor exercise") ∈ chosen.
Proof.
  intros chosen.
  destruct (filter_activities_respects_preferences
              (Planner.activities_of Planner.RainyWeatherStrategy) sporty)
    as (_ & _ & _ & Hadmitted & Hall & _).
  fold chosen in Hadmitted, Hall. split.
  - intros a Ha. destruct (Hadmitted a Ha) as [Havoid [Hnone|Hpref]].
    + discriminate Hnone.
    + simpl in Havoid, Hpref. set_solver.
  - apply Hall.
    + vm_compute. lia.
    + simpl. set_solver.
    + reflexivity.
Defined.

Lemma plan_follows_the_condition_witness :
  Planner.strategy_for rainy_weather = Planner.RainyWeatherStrategy ∧
  Planner.strategy_for ∅ = Planner.CloudyWeatherStrategy.
Proof.
  split.
  - destruct (plan_follows_the_condition rainy_weather Planner.default_preferences)
      as (_ & Hrainy & _).
    apply Hrainy. reflexivity.
  - destruct (plan_follows_the_condition ∅ Planner.default_preferences)
      as (_ & _ & _ & Hother & _).
    apply Hother; discriminate.
Defined.

Lemma uptime_splits_exactly_witness :
  let '(hours, minutes, seconds) :=
    Monitor.uptime_parts ((14903 # 4) - Monitor.start_time a_monitor) in
  hours * 3600 + minutes * 60 + seconds = 3725.
Proof.
  assert (Hpos : (0 <= (14903 # 4) - Monitor.start_time a_monitor)%Q)
    by (vm_compute; discriminate).
  pose proof (uptime_splits_exactly (14903 # 4) "t" "Linux" "3.11" a_monitor Hpos)
    as H.
  cbv zeta in H.
  destruct (Monitor.uptime_parts ((14903 # 4) - Monitor.start_time a_monitor)%Q)
    as [[hours minutes] seconds].
  destruct H as (Hsum & _). rewrite Hsum. vm_compute. reflexivity.
Defined.
